(** * neurowriter/tokenizer.py: tokenizers and BPE training

    A shallow embedding of the tokenizer classes of
    [src/neurowriter/tokenizer.py] and the properties of their
    specification.

    Conventions of the embedding:
    - a Python [str] is a list over a type [char] with decidable equality;
      a symbol is such a list;
    - a Python [set] is a list whose order stands for the (unspecified)
      iteration order of the set; [len] is the length of the list, which
      the operations keep free of duplicates;
    - a Python [dict] (also [defaultdict(int)] and [Counter]) is an
      association list in insertion order, which is the iteration order of
      the dictionary;
    - a method that may raise returns an [outcome] together with the object
      as the call leaves it, since an exception does not undo a mutation;
    - [re.match("\w", c)] on a one-character string is the parameter
      [wordchar]: the character class belongs to the regex library. *)

From Stdlib Require Import ZArith Lia String Ascii.
From stdpp Require Import base decidable option list strings sorting.

(** ** Outcomes of a call *)

Inductive exn : Type :=
| ValueError
| TypeError
| KeyError
| AttributeError
| NotImplementedError.

(** [OutOfFuel] stands for a loop that has not finished within the number
    of iterations the model was given. *)
Inductive outcome (A : Type) : Type :=
| Ok (a : A)
| Raise (e : exn)
| OutOfFuel.

Arguments Ok {A} a.
Arguments Raise {A} e.
Arguments OutOfFuel {A}.

(** ** Python sets of hashable values *)

Module PySet.
Section defs.
Context {A : Type} `{!EqDecision A}.

(** [set(iterable)] *)
Definition of_list (l : list A) : list A := remove_dups l.

(** [s.add(x)] *)
Definition add (x : A) (s : list A) : list A :=
  if decide (x ∈ s) then s else s ++ [x].

(** [s.update(iterable)] and [s | set(iterable)] *)
Definition update (s : list A) (l : list A) : list A :=
  foldl (λ acc x, add x acc) s l.

(** [s1 == s2] *)
Definition eqb (s1 s2 : list A) : bool :=
  bool_decide (s1 ⊆ s2) && bool_decide (s2 ⊆ s1).

(** [o1 == o2] where each side is [None] or a set *)
Definition opt_eqb (o1 o2 : option (list A)) : bool :=
  match o1, o2 with
  | None, None => true
  | Some s1, Some s2 => eqb s1 s2
  | _, _ => false
  end.

End defs.
End PySet.

(** ** Python dictionaries with integer values *)

Module PyDict.
Section defs.
Context {K : Type} `{!EqDecision K}.

(** [d.get(k)] *)
Fixpoint get (d : list (K * Z)) (k : K) : option Z :=
  match d with
  | [] => None
  | (k', v) :: d' => if decide (k' = k) then Some v else get d' k
  end.

(** The count a [defaultdict(int)] stands for at [k]. *)
Definition get0 (d : list (K * Z)) (k : K) : Z := default 0%Z (get d k).

(** [d[k] += n] on a [defaultdict(int)]: an existing entry is updated in
    place, a missing one is created at the end with [0 + n]. *)
Fixpoint add (k : K) (n : Z) (d : list (K * Z)) : list (K * Z) :=
  match d with
  | [] => [(k, n)]
  | (k', v) :: d' =>
      if decide (k' = k) then (k', (v + n)%Z) :: d' else (k', v) :: add k n d'
  end.

(** [del d[k]]: [None] stands for the [KeyError] of a missing key. *)
Fixpoint del (k : K) (d : list (K * Z)) : option (list (K * Z)) :=
  match d with
  | [] => None
  | (k', v) :: d' =>
      if decide (k' = k) then Some d' else cons (k', v) <$> del k d'
  end.

(** [max(d, key=d.get)] together with the value found: the first key, in
    iteration order, whose value is maximal; [None] on an empty dictionary,
    where [max] raises [ValueError]. *)
Fixpoint argmax (d : list (K * Z)) : option (K * Z) :=
  match d with
  | [] => None
  | (k, v) :: d' =>
      match argmax d' with
      | Some (k', v') => if (v <? v')%Z then Some (k', v') else Some (k, v)
      | None => Some (k, v)
      end
  end.

Definition keys (d : list (K * Z)) : list K := fst <$> d.

End defs.
End PyDict.

(** ** Builtins on lists *)

Section builtins.
Context {A : Type}.

(** [l[0:k]] for a Python integer [k]: a negative bound counts from the
    end of the list. *)
Definition slice_to (l : list A) (k : Z) : list A :=
  if (k <? 0)%Z then take (Z.to_nat (Z.of_nat (length l) + k)) l
  else take (Z.to_nat k) l.

(** [sorted(l, key=key, reverse=True)]: a stable sort, so elements of equal
    key keep the order they have in [l]. *)
Fixpoint insert_desc (key : A → Z) (x : A) (l : list A) : list A :=
  match l with
  | [] => [x]
  | y :: l' =>
      if (key y <=? key x)%Z then x :: l else y :: insert_desc key x l'
  end.

Definition sorted_desc (key : A → Z) (l : list A) : list A :=
  foldr (insert_desc key) [] l.

End builtins.

Definition len {A} (l : list A) : Z := Z.of_nat (length l).

(** ** Regular expressions made of literal alternatives *)

Module Re.
Section defs.
Context {char : Type} `{!EqDecision char}.

(** [s.startswith(p)] *)
Fixpoint startswith (s p : list char) {struct p} : bool :=
  match p, s with
  | [], _ => true
  | a :: p', b :: s' => bool_decide (a = b) && startswith s' p'
  | _ :: _, [] => false
  end.

(** [re.compile('|'.join(re.escape(t) for t in alts))]: the ordered list of
    literal alternatives. Joining no alternative gives the empty pattern,
    which is the single empty alternative. *)
Definition compile_alternation (alts : list (list char)) : list (list char) :=
  match alts with
  | [] => [[]]
  | _ :: _ => alts
  end.

(** [regex.match(s)] then [.group()]: the alternatives are tried in order
    at the start of [s] and the first that matches is the match. *)
Definition match_ (regex : list (list char)) (s : list char)
  : option (list char) :=
  find (startswith s) regex.

End defs.
End Re.

(** ** SubwordTokenizer *)

Module SubwordTokenizer.
Section defs.
Context {char : Type} `{!EqDecision char}.
Local Abbreviation symbol := (list char).

Record t : Type := mk {
  symbols : option (list symbol);
  detector : option (list symbol)
}.

(** [__init__] *)
Definition init : t := mk None None.

(** [compile]: [sorted] of [None] is a [TypeError]. *)
Definition compile (self : t) : outcome unit * t :=
  match symbols self with
  | None => (Raise TypeError, self)
  | Some syms =>
      let srt := sorted_desc len syms in
      (Ok tt, mk (symbols self) (Some (Re.compile_alternation srt)))
  end.

(** [bestmatch] *)
Definition bestmatch (self : t) (string : list char)
  : outcome (option symbol) * t :=
  let precompiled :=
    match detector self with
    | None =>
        match symbols self with
        | None => (Raise ValueError, self)
        | Some _ => compile self
        end
    | Some _ => (Ok tt, self)
    end in
  match precompiled with
  | (Ok _, self') =>
      match detector self' with
      | Some regex => (Ok (Re.match_ regex string), self')
      | None => (Raise AttributeError, self')
      end
  | (Raise e, self') => (Raise e, self')
  | (OutOfFuel, self') => (OutOfFuel, self')
  end.

(** [fit] of the abstract class *)
Definition fit (self : t) (corpus : list (list char)) : outcome unit * t :=
  (Raise NotImplementedError, self).

(** The loop of [transform]. [rest] is [text[i:]]; [len(None)] is a
    [TypeError]. Each of the [fuel] iterations is one turn of the [while]. *)
Fixpoint transform_loop (fuel : nat) (self : t) (rest : list char)
    (transformed : list symbol) : outcome (list symbol) * t :=
  match rest with
  | [] => (Ok transformed, self)
  | _ :: _ =>
      match fuel with
      | O => (OutOfFuel, self)
      | S fuel' =>
          match bestmatch self rest with
          | (Ok (Some symbol), self') =>
              transform_loop fuel' self' (drop (length symbol) rest)
                (transformed ++ [symbol])
          | (Ok None, self') => (Raise TypeError, self')
          | (Raise e, self') => (Raise e, self')
          | (OutOfFuel, self') => (OutOfFuel, self')
          end
      end
  end.

(** [transform]. A turn of the loop that matches a symbol of at least one
    character consumes it, so a run that ends takes at most [len(text)]
    turns; see [transform_loop_stuck] and [transform_loop_fuel_mono]. *)
Definition transform (self : t) (text : list char)
  : outcome (list symbol) * t :=
  transform_loop (length text) self text [].

End defs.
Arguments t char : clear implicits.
End SubwordTokenizer.

(** ** CharTokenizer *)

Module CharTokenizer.
Section defs.
Context {char : Type}.

(** [fit]: no training necessary *)
Definition fit (corpus : list (list char)) : outcome unit := Ok tt.

(** [transform]: [list(text)] *)
Definition transform (text : list char) : outcome (list (list char)) :=
  Ok ((λ c, [c]) <$> text).

End defs.
End CharTokenizer.

(** ** WordTokenizer *)

Module WordTokenizer.
Section defs.
Context {char : Type} `{!EqDecision char}.
Variable wordchar : char → bool.
Local Abbreviation symbol := (list char).

Record t : Type := mk {
  numsymbols : Z;
  minfreq : Z;
  symbols : option (list symbol)
}.

(** [__init__(numsymbols=4096, minfreq=2)] *)
Definition init (numsymbols minfreq : Z) : t := mk numsymbols minfreq None.

(** [self.parser.split(doc)] for the parser [(\W)]: the text is cut at
    every character that is not a word character, and that character is
    kept as a token of its own; [word] is the word read so far. *)
Fixpoint parser_split_from (word : symbol) (doc : list char) : list symbol :=
  match doc with
  | [] => [word]
  | c :: doc' =>
      if wordchar c then parser_split_from (word ++ [c]) doc'
      else word :: [c] :: parser_split_from [] doc'
  end.

Definition parser_split (doc : list char) : list symbol :=
  parser_split_from [] doc.

(** [collections.Counter(iterable)] *)
Definition counter (l : list symbol) : list (symbol * Z) :=
  foldl (λ d x, PyDict.add x 1%Z d) [] l.

(** The characters of a corpus, [chain( *corpus)], as one-character strings *)
Definition chars (corpus : list (list char)) : list symbol :=
  (λ c, [c]) <$> concat corpus.

(** [fit] *)
Definition fit (self : t) (corpus : list (list char)) : outcome unit * t :=
  let symbols := PySet.of_list (chars corpus) in
  let tokens := counter (concat (parser_split <$> corpus)) in
  let freqsymbols := filter (λ sf, minfreq self ≤ sf.2)%Z tokens in
  let srt := sorted_desc snd freqsymbols in
  let remain := filter (λ s, s ∉ symbols) (fst <$> srt) in
  let freespace := (numsymbols self - len symbols)%Z in
  (Ok tt,
   mk (numsymbols self) (minfreq self)
      (Some (PySet.update symbols (slice_to remain freespace)))).

(** [transform]: [token in None] is a [TypeError], and [split] always
    returns at least one token. *)
Definition transform (self : t) (text : list char)
  : outcome (list symbol) * t :=
  match symbols self with
  | None => (Raise TypeError, self)
  | Some syms =>
      let tokens := parser_split text in
      (Ok (concat ((λ token,
              if decide (token ∈ syms) then [token]
              else filter (λ c, c ∈ syms) ((λ c, [c]) <$> token)) <$> tokens)),
       self)
  end.

End defs.
Arguments t char : clear implicits.
End WordTokenizer.

(** ** LinkedList *)

Module LinkedList.
Section defs.
Context {A : Type}.

(** Modelled from the spec: [neurowriter/linkedlist.py] is not among the
    sources. The specification describes a per-document ordered sequence,
    built from the list of its initial elements, iterated in order by value
    or by node, where a node that has a successor is merged with it in
    place: the node then holds the concatenation of both values and its
    successor is the successor's former successor. The sequence is the list
    of its values; a node is a position in it, given by the values before
    it (nearest first) and the values from it on. *)
Definition t : Type := list A.

(** [LinkedList(data)] *)
Definition of_list (data : list A) : t := data.

(** [iter(doc)] *)
Definition values (doc : t) : list A := doc.

End defs.
Arguments t A : clear implicits.
End LinkedList.

(** ** BPETokenizer *)

Module BPETokenizer.
Section defs.
Context {char : Type} `{!EqDecision char}.
Variable wordchar : char → bool.
Local Abbreviation symbol := (list char).
Local Abbreviation pair := (list char * list char)%type.

Record t : Type := mk {
  numsymbols : Z;
  minfreq : Z;
  crosswords : bool;
  base : SubwordTokenizer.t char
}.

(** [__init__(numsymbols=4096, minfreq=10, crosswords=False)] *)
Definition init (numsymbols minfreq : Z) (crosswords : bool) : t :=
  mk numsymbols minfreq crosswords SubwordTokenizer.init.

(** [re.match("\w", s)] *)
Definition re_match_w (s : symbol) : bool :=
  match s with
  | c :: _ => wordchar c
  | [] => false
  end.

(** [validpair] *)
Definition validpair (self : t) (s1 s2 : symbol) : bool :=
  if crosswords self || ((1 <? len s1)%Z && (1 <? len s2)%Z) then true
  else ((1 <? len s1)%Z || re_match_w s1) && ((1 <? len s2)%Z || re_match_w s2).

(** [pairfreqs], one document: every node that has a successor *)
Fixpoint pairfreqs_doc (self : t) (doc : LinkedList.t symbol)
    (stats : list (pair * Z)) : list (pair * Z) :=
  match doc with
  | [] => stats
  | value :: after =>
      match after with
      | [] => stats
      | nxt :: _ =>
          pairfreqs_doc self after
            (if validpair self value nxt
             then PyDict.add (value, nxt) 1%Z stats else stats)
      end
  end.

(** [pairfreqs] *)
Definition pairfreqs (self : t) (corpus : list (LinkedList.t symbol))
  : list (pair * Z) :=
  foldl (λ stats doc, pairfreqs_doc self doc stats) [] corpus.

(** The inner loop of [mergesymbols] over the nodes of one document. The
    node visited is the head of [doc]; [prev] holds the values before it,
    nearest first. After [node.mergewithnext()] the iteration goes on at
    the successor of the merged node. *)
Fixpoint merge_nodes (self : t) (leftsymbol rightsymbol : symbol)
    (prev : list symbol) (doc : LinkedList.t symbol) (freqs : list (pair * Z))
  : LinkedList.t symbol * list (pair * Z) :=
  match doc with
  | [] => (rev prev, freqs)
  | value :: after =>
      match after with
      | [] => (rev (value :: prev), freqs)
      | nxt :: after' =>
          if bool_decide (value = leftsymbol) && bool_decide (nxt = rightsymbol)
          then
            let newsymbol := leftsymbol ++ rightsymbol in
            let freqs1 :=
              match prev with
              | prevsymbol :: _ =>
                  if validpair self prevsymbol newsymbol
                  then PyDict.add (prevsymbol, leftsymbol) (-1)%Z
                         (PyDict.add (prevsymbol, newsymbol) 1%Z freqs)
                  else freqs
              | [] => freqs
              end in
            let freqs2 :=
              match after' with
              | nextsymbol :: _ =>
                  if validpair self nextsymbol newsymbol
                  then PyDict.add (rightsymbol, nextsymbol) (-1)%Z
                         (PyDict.add (newsymbol, nextsymbol) 1%Z freqs1)
                  else freqs1
              | [] => freqs1
              end in
            merge_nodes self leftsymbol rightsymbol
              ((value ++ nxt) :: prev) after' freqs2
          else
            merge_nodes self leftsymbol rightsymbol (value :: prev) after freqs
      end
  end.

(** The outer loop of [mergesymbols] over the documents *)
Fixpoint merge_docs (self : t) (leftsymbol rightsymbol : symbol)
    (corpus : list (LinkedList.t symbol)) (freqs : list (pair * Z))
  : list (LinkedList.t symbol) * list (pair * Z) :=
  match corpus with
  | [] => ([], freqs)
  | doc :: corpus' =>
      let '(doc', freqs') :=
        merge_nodes self leftsymbol rightsymbol [] doc freqs in
      let '(corpus'', freqs'') :=
        merge_docs self leftsymbol rightsymbol corpus' freqs' in
      (doc' :: corpus'', freqs'')
  end.

(** [mergesymbols]. [symbols] is the set [self.symbols], which the method
    extends in place; the second component is that set as the call leaves
    it. *)
Definition mergesymbols (self : t) (corpus : list (LinkedList.t symbol))
    (symbols : list symbol) (freqs : list (pair * Z))
    (leftsymbol rightsymbol : symbol)
  : outcome (list (LinkedList.t symbol) * list (pair * Z)) * list symbol :=
  let newsymbol := leftsymbol ++ rightsymbol in
  let symbols' := PySet.add newsymbol symbols in
  let '(corpus', freqs') :=
    merge_docs self leftsymbol rightsymbol corpus freqs in
  match PyDict.del (leftsymbol, rightsymbol) freqs' with
  | Some freqs'' => (Ok (corpus', freqs''), symbols')
  | None => (Raise KeyError, symbols')
  end.

(** [prunesymbols] *)
Definition prunesymbols (self : t) (corpus : list (LinkedList.t symbol))
    (symbols : list symbol) : list symbol :=
  let freqs :=
    foldl (λ d symbol, PyDict.add symbol 1%Z d) []
      (concat (LinkedList.values <$> corpus)) in
  filter (λ symbol, length symbol = 1 ∨ (minfreq self ≤ PyDict.get0 freqs symbol)%Z)
    symbols.

(** The number of merges a run can still make: every merge either joins two
    nodes of the corpus or only removes its entry from the table. *)
Definition budget (corpus : list (LinkedList.t symbol))
    (freqs : list (pair * Z)) : nat :=
  5 * length (concat corpus) + length freqs.

(** The loop of [mergingrun]; [fuel] bounds the number of merges. *)
Fixpoint mergingrun_loop (fuel : nat) (self : t)
    (corpus : list (LinkedList.t symbol)) (freqs : list (pair * Z))
    (symbols : list symbol)
  : outcome (list (LinkedList.t symbol) * list (pair * Z)) * list symbol :=
  if (len symbols <? numsymbols self)%Z then
    match fst <$> PyDict.argmax freqs with
    | None => (Raise ValueError, symbols)
    | Some (leftsymbol, rightsymbol) =>
        if (PyDict.get0 freqs (leftsymbol, rightsymbol) <? minfreq self)%Z
        then (Ok (corpus, freqs), symbols)
        else
          match fuel with
          | O => (OutOfFuel, symbols)
          | S fuel' =>
              match mergesymbols self corpus symbols freqs
                      leftsymbol rightsymbol with
              | (Ok (corpus', freqs'), symbols') =>
                  mergingrun_loop fuel' self corpus' freqs' symbols'
              | (Raise e, symbols') => (Raise e, symbols')
              | (OutOfFuel, symbols') => (OutOfFuel, symbols')
              end
          end
    end
  else (Ok (corpus, freqs), symbols).

(** [mergingrun] *)
Definition mergingrun (self : t) (corpus : list (LinkedList.t symbol))
    (freqs : list (pair * Z)) (symbols : list symbol)
  : outcome (list (LinkedList.t symbol) * list (pair * Z)) * list symbol :=
  mergingrun_loop (budget corpus freqs) self corpus freqs symbols.

(** The [while not finished] loop of [fit]; [fuel] bounds the number of
    further turns. *)
Fixpoint fit_loop (fuel : nat) (self : t)
    (corpus : list (LinkedList.t symbol)) (freqs : list (pair * Z))
    (symbols : list symbol) : outcome unit * list symbol :=
  match mergingrun self corpus freqs symbols with
  | (Ok (corpus', freqs'), symbols') =>
      let beforeprune := len symbols' in
      let symbols'' := prunesymbols self corpus' symbols' in
      let afterprune := len symbols'' in
      if (beforeprune =? afterprune)%Z then (Ok tt, symbols'')
      else
        match fuel with
        | O => (OutOfFuel, symbols'')
        | S fuel' => fit_loop fuel' self corpus' freqs' symbols''
        end
  | (Raise e, symbols') => (Raise e, symbols')
  | (OutOfFuel, symbols') => (OutOfFuel, symbols')
  end.

(** [fit]. An exception leaves [self.symbols] as the training had it and
    the matcher as it was. *)
Definition fit (self : t) (corpus : list (list char)) : outcome unit * t :=
  let corpus := (λ doc, LinkedList.of_list ((λ c, [c]) <$> doc)) <$> corpus in
  let symbols := PySet.of_list (concat (LinkedList.values <$> corpus)) in
  let freqs := pairfreqs self corpus in
  let with_symbols (s : list symbol) :=
    SubwordTokenizer.mk (Some s) (SubwordTokenizer.detector (base self)) in
  let with_base (b : SubwordTokenizer.t char) :=
    mk (numsymbols self) (minfreq self) (crosswords self) b in
  match fit_loop (budget corpus freqs) self corpus freqs symbols with
  | (Ok _, symbols') =>
      let '(r, b) := SubwordTokenizer.compile (with_symbols symbols') in
      (r, with_base b)
  | (Raise e, symbols') => (Raise e, with_base (with_symbols symbols'))
  | (OutOfFuel, symbols') => (OutOfFuel, with_base (with_symbols symbols'))
  end.

(** [transform], inherited *)
Definition transform (self : t) (text : list char)
  : outcome (list symbol) * t :=
  let '(r, b) := SubwordTokenizer.transform (base self) text in
  (r, mk (numsymbols self) (minfreq self) (crosswords self) b).

End defs.
Arguments t char : clear implicits.
End BPETokenizer.

(** ** SubwordsListTokenizer *)

Module SubwordsListTokenizer.
Section defs.
Context {char : Type} `{!EqDecision char}.
Local Abbreviation symbol := (list char).

Record t : Type := mk {
  subwords : list symbol;
  base : SubwordTokenizer.t char
}.

(** [__init__(subwords)] *)
Definition init (subwords : list symbol) : t :=
  mk (PySet.of_list subwords) SubwordTokenizer.init.

(** [fit] *)
Definition fit (self : t) (corpus : list (list char)) : outcome unit * t :=
  let symbols :=
    PySet.update (PySet.of_list ((λ c, [c]) <$> concat corpus))
      (subwords self) in
  let '(r, b) :=
    SubwordTokenizer.compile
      (SubwordTokenizer.mk (Some symbols)
         (SubwordTokenizer.detector (base self))) in
  (r, mk (subwords self) b).

(** [transform], inherited *)
Definition transform (self : t) (text : list char)
  : outcome (list symbol) * t :=
  let '(r, b) := SubwordTokenizer.transform (base self) text in
  (r, mk (subwords self) b).

End defs.
Arguments t char : clear implicits.
End SubwordsListTokenizer.

(** ** The family of tokenizers and [==] *)

Section family.
Context {char : Type} `{!EqDecision char}.

Inductive tokenizer : Type :=
| Char
| Word (w : WordTokenizer.t char)
| Subword (s : SubwordTokenizer.t char)
| BPE (b : BPETokenizer.t char)
| SubwordsList (l : SubwordsListTokenizer.t char).

(** [isinstance(x, SubwordTokenizer)], with the fields of the base class *)
Definition as_subword (x : tokenizer) : option (SubwordTokenizer.t char) :=
  match x with
  | Subword s => Some s
  | BPE b => Some (BPETokenizer.base b)
  | SubwordsList l => Some (SubwordsListTokenizer.base l)
  | Char | Word _ => None
  end.

(** [self == other]: the [__eq__] of the class of [self]. It returns a
    boolean for every [other], so the reflected method is never tried; no
    subclass overrides the [__eq__] it inherits. *)
Definition tokenizer_eq (self other : tokenizer) : bool :=
  match self with
  | Char =>
      match other with
      | Char => true
      | _ => false
      end
  | Word w =>
      match other with
      | Word w' =>
          PySet.opt_eqb (WordTokenizer.symbols w) (WordTokenizer.symbols w')
      | _ => false
      end
  | Subword _ | BPE _ | SubwordsList _ =>
      match as_subword self, as_subword other with
      | Some s, Some s' =>
          PySet.opt_eqb (SubwordTokenizer.symbols s)
            (SubwordTokenizer.symbols s')
      | _, _ => false
      end
  end.

(** The Symbol Set of a tokenizer; the character tokenizer has none. *)
Definition symbol_set (x : tokenizer) : option (list (list char)) :=
  match x with
  | Char => None
  | Word w => WordTokenizer.symbols w
  | Subword s => SubwordTokenizer.symbols s
  | BPE b => SubwordTokenizer.symbols (BPETokenizer.base b)
  | SubwordsList l => SubwordTokenizer.symbols (SubwordsListTokenizer.base l)
  end.

End family.
Arguments tokenizer char : clear implicits.

(** ** Concrete texts *)

Definition str (s : string) : list ascii := list_ascii_of_string s.

(** [\w] on the ASCII letters, digits and the underscore *)
Definition ascii_wordchar (c : ascii) : bool :=
  let n := nat_of_ascii c in
  ((48 <=? n) && (n <=? 57)) || ((65 <=? n) && (n <=? 90))
  || ((97 <=? n) && (n <=? 122)) || (n =? 95).

(** * Properties *)

(** ** Sets and dictionaries *)

Section pyset_facts.
Context {A : Type} `{!EqDecision A}.
Implicit Types (s l : list A) (x y : A).

Lemma pyset_elem_of_add x y s : y ∈ PySet.add x s ↔ y = x ∨ y ∈ s.
Proof.
  unfold PySet.add. destruct (decide (x ∈ s)) as [Hin|Hin].
  - split; [by right|]. intros [->|?]; done.
  - rewrite elem_of_app, list_elem_of_singleton. tauto.
Qed.

Lemma pyset_NoDup_add x s : NoDup s → NoDup (PySet.add x s).
Proof.
  intros Hnd. unfold PySet.add. destruct (decide (x ∈ s)) as [Hin|Hin]; [done|].
  apply NoDup_app. split_and!; [done| |apply NoDup_singleton].
  intros y Hy ->%list_elem_of_singleton. done.
Qed.

Lemma pyset_length_add x s :
  length (PySet.add x s) ≤ S (length s) ∧ length s ≤ length (PySet.add x s).
Proof.
  unfold PySet.add. destruct (decide (x ∈ s)); [lia|].
  rewrite length_app. simpl. lia.
Qed.

Lemma pyset_elem_of_update y s l : y ∈ PySet.update s l ↔ y ∈ s ∨ y ∈ l.
Proof.
  unfold PySet.update. revert s. induction l as [|x l IH]; intros s; simpl.
  - rewrite elem_of_nil. tauto.
  - rewrite IH, pyset_elem_of_add, elem_of_cons. tauto.
Qed.

Lemma pyset_NoDup_update s l : NoDup s → NoDup (PySet.update s l).
Proof.
  unfold PySet.update. revert s. induction l as [|x l IH]; intros s Hs; simpl.
  - done.
  - apply IH. by apply pyset_NoDup_add.
Qed.

Lemma pyset_length_update s l :
  length (PySet.update s l) ≤ length s + length l.
Proof.
  unfold PySet.update. revert s. induction l as [|x l IH]; intros s; simpl.
  - lia.
  - pose proof (IH (PySet.add x s)). pose proof (pyset_length_add x s). lia.
Qed.

Lemma pyset_eqb_spec s1 s2 : PySet.eqb s1 s2 = true ↔ ∀ x, x ∈ s1 ↔ x ∈ s2.
Proof.
  unfold PySet.eqb. rewrite andb_true_iff, !bool_decide_eq_true.
  split.
  - intros [H1 H2] x. split; [apply H1|apply H2].
  - intros H. split; intros x Hx; by apply H.
Qed.

End pyset_facts.

(** Two sides of [==] hold the same Symbol Set: both undefined, or both
    defined with the same members. *)
Definition same_set {A} (o1 o2 : option (list A)) : Prop :=
  match o1, o2 with
  | None, None => True
  | Some s1, Some s2 => ∀ x, x ∈ s1 ↔ x ∈ s2
  | _, _ => False
  end.

Lemma pyset_opt_eqb_spec {A} `{!EqDecision A} (o1 o2 : option (list A)) :
  PySet.opt_eqb o1 o2 = true ↔ same_set o1 o2.
Proof.
  destruct o1 as [s1|], o2 as [s2|]; simpl; try (split; [discriminate|tauto]).
  - apply pyset_eqb_spec.
  - tauto.
Qed.

Section pydict_facts.
Context {K : Type} `{!EqDecision K}.
Implicit Types (d : list (K * Z)) (k p : K) (n v : Z).

Lemma pydict_get_None d k : PyDict.get d k = None ↔ k ∉ PyDict.keys d.
Proof.
  unfold PyDict.keys. induction d as [|[k' v] d IH]; simpl.
  - split; [intros _; apply not_elem_of_nil|done].
  - rewrite not_elem_of_cons. destruct (decide (k' = k)) as [->|Hne].
    + split; [discriminate|]. intros [? _]. done.
    + rewrite IH. split; [intros ?; split; [congruence|done]|tauto].
Qed.

Lemma pydict_get_Some d k v : PyDict.get d k = Some v → (k, v) ∈ d.
Proof.
  induction d as [|[k' v'] d IH]; simpl; [discriminate|].
  destruct (decide (k' = k)) as [->|Hne].
  - intros [= ->]. left.
  - intros H. right. by apply IH.
Qed.

Lemma pydict_get_elem d k v :
  NoDup (PyDict.keys d) → (k, v) ∈ d → PyDict.get d k = Some v.
Proof.
  unfold PyDict.keys. induction d as [|[k' v'] d IH]; simpl.
  - intros _ H. by apply elem_of_nil in H.
  - intros [Hk Hnd]%NoDup_cons [Heq|Hin]%elem_of_cons.
    + injection Heq as -> ->. by rewrite decide_True.
    + destruct (decide (k' = k)) as [->|Hne]; [|by apply IH].
      exfalso. apply Hk. apply list_elem_of_fmap. by exists (k, v).
Qed.

Lemma pydict_get0_add d k n p :
  PyDict.get0 (PyDict.add k n d) p
  = (PyDict.get0 d p + if decide (p = k) then n else 0)%Z.
Proof.
  unfold PyDict.get0. induction d as [|[k' v] d IH]; simpl.
  - destruct (decide (k = p)) as [->|Hne].
    + by rewrite decide_True.
    + rewrite decide_False by congruence. done.
  - destruct (decide (k' = k)) as [->|Hne]; simpl.
    + destruct (decide (k = p)) as [->|Hne'].
      * by rewrite decide_True.
      * rewrite decide_False by congruence. simpl. lia.
    + destruct (decide (k' = p)) as [->|Hne'].
      * rewrite decide_False by congruence. simpl. lia.
      * apply IH.
Qed.

Lemma pydict_keys_add d k n p :
  p ∈ PyDict.keys (PyDict.add k n d) ↔ p = k ∨ p ∈ PyDict.keys d.
Proof.
  unfold PyDict.keys. induction d as [|[k' v] d IH]; simpl.
  - rewrite list_elem_of_singleton, elem_of_nil. tauto.
  - destruct (decide (k' = k)) as [->|Hne]; simpl; rewrite !elem_of_cons.
    + tauto.
    + rewrite IH. tauto.
Qed.

Lemma pydict_NoDup_add d k n :
  NoDup (PyDict.keys d) → NoDup (PyDict.keys (PyDict.add k n d)).
Proof.
  induction d as [|[k' v] d IH]; simpl.
  - intros _. apply NoDup_singleton.
  - intros [Hk Hnd]%NoDup_cons.
    destruct (decide (k' = k)) as [->|Hne]; simpl.
    + by apply NoDup_cons.
    + apply NoDup_cons. split; [|by apply IH].
      fold (PyDict.keys (PyDict.add k n d)).
      rewrite pydict_keys_add. intros [?|?]; done.
Qed.

Lemma pydict_length_add d k n :
  length (PyDict.add k n d) ≤ S (length d)
  ∧ length d ≤ length (PyDict.add k n d).
Proof.
  induction d as [|[k' v] d IH]; simpl; [lia|].
  destruct (decide (k' = k)); simpl; lia.
Qed.

Lemma pydict_del_Some d k : k ∈ PyDict.keys d → is_Some (PyDict.del k d).
Proof.
  unfold PyDict.keys. induction d as [|[k' v] d IH]; simpl.
  - intros H. by apply elem_of_nil in H.
  - intros [->|Hin]%elem_of_cons.
    + rewrite decide_True by done. by eexists.
    + destruct (decide (k' = k)); [by eexists|].
      destruct (IH Hin) as [d' ->]. by eexists.
Qed.

Lemma pydict_del_length d k d' :
  PyDict.del k d = Some d' → length d = S (length d').
Proof.
  revert d'. induction d as [|[k' v] d IH]; intros d'; simpl; [discriminate|].
  destruct (decide (k' = k)).
  - by intros [= ->].
  - destruct (PyDict.del k d) as [d''|] eqn:Hd; simpl; [|discriminate].
    intros [= <-]. simpl. f_equal. by apply IH.
Qed.

Lemma pydict_del_keys d k d' p :
  PyDict.del k d = Some d' →
  p ∈ PyDict.keys d' → p ∈ PyDict.keys d.
Proof.
  unfold PyDict.keys. revert d'.
  induction d as [|[k' v] d IH]; intros d'; simpl; [discriminate|].
  destruct (decide (k' = k)).
  - intros [= ->] ?. by right.
  - destruct (PyDict.del k d) as [d''|] eqn:Hd; simpl; [|discriminate].
    intros [= <-]. simpl. rewrite !elem_of_cons. intros [->|?]; [by left|].
    right. by eapply IH.
Qed.

Lemma pydict_del_NoDup d k d' :
  NoDup (PyDict.keys d) → PyDict.del k d = Some d' →
  NoDup (PyDict.keys d') ∧ k ∉ PyDict.keys d'.
Proof.
  revert d'. induction d as [|[k' v] d IH]; intros d'; simpl; [discriminate|].
  intros [Hk Hnd]%NoDup_cons.
  destruct (decide (k' = k)) as [->|Hne].
  - by intros [= <-].
  - destruct (PyDict.del k d) as [d''|] eqn:Hd; simpl; [|discriminate].
    intros [= <-]. destruct (IH d'' Hnd eq_refl) as [Hnd' Hk'].
    simpl. split.
    + apply NoDup_cons. split; [|done].
      intros Hin. apply Hk. by eapply pydict_del_keys.
    + rewrite not_elem_of_cons. split; [congruence|done].
Qed.

Lemma pydict_get0_del d k d' p :
  NoDup (PyDict.keys d) → PyDict.del k d = Some d' →
  PyDict.get0 d' p = if decide (p = k) then 0%Z else PyDict.get0 d p.
Proof.
  intros Hnd Hdel. destruct (decide (p = k)) as [->|Hne].
  - destruct (pydict_del_NoDup _ _ _ Hnd Hdel) as [_ Hk].
    apply pydict_get_None in Hk. unfold PyDict.get0. by rewrite Hk.
  - clear Hnd. unfold PyDict.get0. revert d' Hdel.
    induction d as [|[k' v] d IH]; intros d'; simpl; [discriminate|].
    destruct (decide (k' = k)) as [->|Hne'].
    + intros [= ->]. by rewrite decide_False by congruence.
    + destruct (PyDict.del k d) as [d''|] eqn:Hd; simpl; [|discriminate].
      intros [= <-]. simpl. destruct (decide (k' = p)); [done|].
      by apply IH.
Qed.

(** [max(d, key=d.get)] returns an entry of [d] whose value no other entry
    exceeds. *)
Lemma pydict_argmax_spec d k v :
  PyDict.argmax d = Some (k, v) →
  (k, v) ∈ d ∧ ∀ k' v', (k', v') ∈ d → (v' ≤ v)%Z.
Proof.
  revert k v. induction d as [|[k0 v0] d IH]; intros k v; simpl; [discriminate|].
  destruct (PyDict.argmax d) as [[k1 v1]|] eqn:Hmax.
  - destruct (IH k1 v1 eq_refl) as [Hin Hle].
    destruct (v0 <? v1)%Z eqn:Hlt; intros [= <- <-].
    + apply Z.ltb_lt in Hlt. split; [by right|].
      intros k' v' [[= -> ->]|Hin']%elem_of_cons; [lia|by eapply Hle].
    + apply Z.ltb_ge in Hlt. split; [by left|].
      intros k' v' [[= -> ->]|Hin']%elem_of_cons; [lia|].
      specialize (Hle _ _ Hin'). lia.
  - intros [= <- <-]. destruct d as [|[k1 v1] d]; simpl in Hmax.
    + split; [by left|]. intros k' v' [[= -> ->]|Hin']%elem_of_cons; [lia|].
      by apply elem_of_nil in Hin'.
    + destruct (PyDict.argmax d) as [[? ?]|]; [destruct (v1 <? _)%Z|]; discriminate.
Qed.

Lemma pydict_argmax_None d : PyDict.argmax d = None ↔ d = [].
Proof.
  destruct d as [|[k v] d]; simpl; [done|].
  destruct (PyDict.argmax d) as [[? ?]|]; [destruct (v <? _)%Z|]; done.
Qed.

End pydict_facts.

(** ** [sorted] *)

Section sorted_facts.
Context {A : Type} (key : A → Z).

Definition key_ge (x y : A) : Prop := (key y ≤ key x)%Z.

Lemma insert_desc_perm x l : insert_desc key x l ≡ₚ x :: l.
Proof.
  induction l as [|y l IH]; simpl; [done|].
  destruct (key y <=? key x)%Z; [done|].
  rewrite IH. apply Permutation_swap.
Qed.

Lemma sorted_desc_perm l : sorted_desc key l ≡ₚ l.
Proof.
  induction l as [|x l IH]; simpl; [done|].
  unfold sorted_desc in *. by rewrite insert_desc_perm, IH.
Qed.

Lemma sorted_desc_elem_of l x : x ∈ sorted_desc key l ↔ x ∈ l.
Proof. by rewrite sorted_desc_perm. Qed.

Lemma sorted_desc_nil_inv l : sorted_desc key l = [] → l = [].
Proof.
  intros H. apply Permutation_nil_r. by rewrite <- H, sorted_desc_perm.
Qed.

Lemma insert_desc_sorted x l :
  StronglySorted key_ge l → StronglySorted key_ge (insert_desc key x l).
Proof.
  induction 1 as [|y l Hl IH Hy]; simpl.
  - repeat constructor.
  - destruct (key y <=? key x)%Z eqn:Hle.
    + apply Z.leb_le in Hle. constructor; [by constructor|].
      constructor; [done|].
      eapply Forall_impl; [exact Hy|]. unfold key_ge. intros; simpl in *; lia.
    + apply Z.leb_gt in Hle. constructor; [done|].
      rewrite insert_desc_perm. constructor; [unfold key_ge; lia|done].
Qed.

Lemma sorted_desc_sorted l : StronglySorted key_ge (sorted_desc key l).
Proof.
  induction l as [|x l IH]; simpl; [constructor|].
  by apply insert_desc_sorted.
Qed.

End sorted_facts.

(** ** The compiled matcher *)

Section matcher_facts.
Context {char : Type} `{!EqDecision char}.
Implicit Types (s p m : list char) (syms alts : list (list char)).

Lemma startswith_prefix s p : Re.startswith s p = true ↔ p `prefix_of` s.
Proof.
  revert s. induction p as [|a p IH]; intros s; simpl.
  - split; [intros _; apply prefix_nil|done].
  - destruct s as [|b s].
    + split; [discriminate|]. intros [k Hk]. discriminate.
    + rewrite andb_true_iff, bool_decide_eq_true, IH. split.
      * intros [-> Hp]. by apply prefix_cons.
      * intros [k Hk]. injection Hk as -> ->. split; [done|]. by exists k.
Qed.

Lemma startswith_length s p : Re.startswith s p = true → length p ≤ length s.
Proof. rewrite startswith_prefix. apply prefix_length. Qed.

Lemma startswith_drop s p : Re.startswith s p = true → p ++ drop (length p) s = s.
Proof.
  rewrite startswith_prefix. intros [k ->]. by rewrite drop_app_length.
Qed.

(** Two symbols of one length that both start [s] are one symbol. *)
Lemma startswith_same_length s p1 p2 :
  Re.startswith s p1 = true → Re.startswith s p2 = true →
  length p1 = length p2 → p1 = p2.
Proof.
  rewrite !startswith_prefix. intros [k1 ->] [k2 Hk] Hlen.
  by apply app_inj_1 in Hk as [? _].
Qed.

(** The alternation built by [compile] for the Symbol Set [syms] *)
Definition compiled syms : list (list char) :=
  Re.compile_alternation (sorted_desc len syms).

(** What the matcher returns, told from the Symbol Set alone: a longest
    symbol that starts the text; the empty match when there is no symbol at
    all; nothing when there are symbols and none starts the text. *)
Definition longest_match syms s (r : option (list char)) : Prop :=
  match r with
  | Some m =>
      Re.startswith s m = true
      ∧ (m ∈ syms ∨ (syms = [] ∧ m = []))
      ∧ ∀ m', m' ∈ syms → Re.startswith s m' = true → length m' ≤ length m
  | None => syms ≠ [] ∧ ∀ m', m' ∈ syms → Re.startswith s m' = false
  end.

Lemma find_sorted_longest alts s m :
  StronglySorted (key_ge len) alts →
  find (Re.startswith s) alts = Some m →
  ∀ m', m' ∈ alts → Re.startswith s m' = true → length m' ≤ length m.
Proof.
  induction 1 as [|a alts Hs IH Ha]; simpl; [discriminate|].
  destruct (Re.startswith s a) eqn:Hsa.
  - intros [= <-] m' [->|Hin]%elem_of_cons _; [done|].
    rewrite Forall_forall in Ha. specialize (Ha m' Hin).
    unfold key_ge, len in Ha. lia.
  - intros Hf m' [->|Hin]%elem_of_cons Hm'; [congruence|]. by apply IH.
Qed.

Lemma match_compiled syms s :
  longest_match syms s (Re.match_ (compiled syms) s).
Proof.
  unfold compiled, Re.match_, Re.compile_alternation.
  destruct (sorted_desc len syms) as [|a alts] eqn:Hsrt.
  - apply sorted_desc_nil_inv in Hsrt as ->. simpl.
    split; [done|]. split; [by right|]. intros m' Hm'. by apply elem_of_nil in Hm'.
  - rewrite <- Hsrt.
    destruct (find (Re.startswith s) (sorted_desc len syms)) as [m|] eqn:Hf; simpl.
    + pose proof (find_some _ _ Hf) as [Hin Hm].
      apply list_elem_of_In, sorted_desc_elem_of in Hin.
      split; [done|]. split; [by left|]. intros m' Hm' Hs'.
      eapply find_sorted_longest; [apply sorted_desc_sorted|exact Hf| |done].
      by apply sorted_desc_elem_of.
    + split.
      * intros ->. discriminate.
      * intros m' Hm'. eapply find_none; [exact Hf|].
        by apply list_elem_of_In, sorted_desc_elem_of.
Qed.

(** The description determines the result. *)
Lemma longest_match_unique syms s r1 r2 :
  longest_match syms s r1 → longest_match syms s r2 → r1 = r2.
Proof.
  destruct r1 as [m1|], r2 as [m2|]; simpl.
  - intros (Hs1 & [Hin1|[-> ->]] & Hmax1) (Hs2 & [Hin2|[Hnil ->]] & Hmax2).
    + f_equal. apply (startswith_same_length s); [done..|].
      specialize (Hmax1 _ Hin2 Hs2). specialize (Hmax2 _ Hin1 Hs1). lia.
    + subst. by apply elem_of_nil in Hin1.
    + by apply elem_of_nil in Hin2.
    + done.
  - intros (Hs1 & [Hin1|[-> ->]] & _) [Hne Hnone]; [|done].
    rewrite (Hnone _ Hin1) in Hs1. discriminate.
  - intros [Hne Hnone] (Hs2 & [Hin2|[-> ->]] & _); [|done].
    rewrite (Hnone _ Hin2) in Hs2. discriminate.
  - done.
Qed.

Lemma longest_match_ext syms1 syms2 s r :
  (∀ x, x ∈ syms1 ↔ x ∈ syms2) →
  longest_match syms1 s r → longest_match syms2 s r.
Proof.
  intros Hext.
  assert (Hnil : syms1 = [] → syms2 = []).
  { intros ->. destruct syms2 as [|x ?]; [done|].
    exfalso. eapply (elem_of_nil x). apply Hext. left. }
  destruct r as [m|]; simpl.
  - intros (Hs & Hin & Hmax). split; [done|]. split.
    + destruct Hin as [Hin|[-> ->]]; [left; by apply Hext|right; auto].
    + intros m' Hm'. apply Hmax. by apply Hext.
  - intros [Hne Hnone]. split.
    + intros ->. apply Hne. destruct syms1 as [|x ?]; [done|].
      exfalso. eapply (elem_of_nil x). apply Hext. left.
    + intros m' Hm'. apply Hnone. by apply Hext.
Qed.

(** The matcher is a function of the members of the Symbol Set. *)
Lemma match_compiled_ext syms1 syms2 s :
  (∀ x, x ∈ syms1 ↔ x ∈ syms2) →
  Re.match_ (compiled syms1) s = Re.match_ (compiled syms2) s.
Proof.
  intros Hext. apply (longest_match_unique syms2 s).
  - eapply longest_match_ext; [exact Hext|]. apply match_compiled.
  - apply match_compiled.
Qed.

End matcher_facts.

(** ** [transform] of a subword tokenizer *)

Section transform_facts.
Context {char : Type} `{!EqDecision char}.
Implicit Types (self : SubwordTokenizer.t char) (rest text : list char).
Implicit Types (syms : list (list char)) (acc : list (list char)).

(** The loop of [transform] over a fixed matcher *)
Fixpoint segment (matcher : list char → option (list char)) (fuel : nat)
    rest acc : outcome (list (list char)) :=
  match rest with
  | [] => Ok acc
  | _ :: _ =>
      match fuel with
      | O => OutOfFuel
      | S fuel' =>
          match matcher rest with
          | Some symbol =>
              segment matcher fuel' (drop (length symbol) rest) (acc ++ [symbol])
          | None => Raise TypeError
          end
      end
  end.

(** The matcher [bestmatch] ends up using: the one it holds, or the one it
    compiles on the first call *)
Definition effective_detector self : option (list (list char)) :=
  match SubwordTokenizer.detector self with
  | Some regex => Some regex
  | None => compiled <$> SubwordTokenizer.symbols self
  end.

Lemma bestmatch_effective self regex s :
  effective_detector self = Some regex →
  ∃ self', SubwordTokenizer.bestmatch self s = (Ok (Re.match_ regex s), self')
           ∧ SubwordTokenizer.detector self' = Some regex
           ∧ SubwordTokenizer.symbols self' = SubwordTokenizer.symbols self.
Proof.
  unfold effective_detector, SubwordTokenizer.bestmatch, SubwordTokenizer.compile.
  destruct self as [osyms [d|]]; simpl.
  - intros [= ->]. by eexists.
  - destruct osyms as [syms|]; simpl; [|discriminate].
    intros [= <-]. by eexists.
Qed.

Lemma bestmatch_untrained self s :
  effective_detector self = None →
  SubwordTokenizer.bestmatch self s = (Raise ValueError, self).
Proof.
  unfold effective_detector, SubwordTokenizer.bestmatch.
  destruct self as [[syms|] [d|]]; simpl; done.
Qed.

Lemma transform_loop_segment self regex fuel rest acc :
  effective_detector self = Some regex →
  (SubwordTokenizer.transform_loop fuel self rest acc).1
  = segment (Re.match_ regex) fuel rest acc.
Proof.
  revert self rest acc. induction fuel as [|fuel IH]; intros self rest acc Heff.
  - by destruct rest.
  - destruct rest as [|c rest]; [done|]. simpl.
    destruct (bestmatch_effective self regex (c :: rest) Heff)
      as (self' & -> & Hd & _).
    destruct (Re.match_ regex (c :: rest)) as [m|]; [|done].
    apply IH. unfold effective_detector. by rewrite Hd.
Qed.

(** A turn that matches the empty symbol changes neither the position nor
    the matcher: the loop never ends. *)
Lemma segment_stuck matcher fuel rest acc :
  rest ≠ [] → matcher rest = Some [] →
  segment matcher fuel rest acc = OutOfFuel.
Proof.
  intros Hne Hm. revert acc. induction fuel as [|fuel IH]; intros acc.
  - by destruct rest.
  - destruct rest as [|c rest]; [done|]. simpl. rewrite Hm. simpl. apply IH.
Qed.

Lemma segment_fuel_mono matcher fuel fuel' rest acc :
  fuel ≤ fuel' → segment matcher fuel rest acc ≠ OutOfFuel →
  segment matcher fuel' rest acc = segment matcher fuel rest acc.
Proof.
  revert fuel' rest acc. induction fuel as [|fuel IH]; intros fuel' rest acc Hle.
  - destruct rest; [by destruct fuel'|done].
  - destruct fuel' as [|fuel']; [lia|]. destruct rest as [|c rest]; [done|].
    simpl. destruct (matcher (c :: rest)) as [m|]; [|done].
    apply IH. lia.
Qed.

(** A run that ends does so within [len(text)] turns. *)
Lemma segment_fuel_enough matcher fuel rest acc :
  segment matcher fuel rest acc ≠ OutOfFuel →
  segment matcher (length rest) rest acc = segment matcher fuel rest acc.
Proof.
  revert rest acc. induction fuel as [|fuel IH]; intros rest acc Hfin.
  - by destruct rest.
  - destruct rest as [|c rest]; [done|]. simpl in *.
    destruct (matcher (c :: rest)) as [m|] eqn:Hm; [|done].
    destruct m as [|a m].
    + exfalso. apply Hfin. by apply segment_stuck.
    + rewrite <- (IH _ _ Hfin). apply segment_fuel_mono.
      * simpl. rewrite length_drop. lia.
      * by rewrite (IH _ _ Hfin).
Qed.

Lemma transform_loop_fuel_mono self fuel text :
  (SubwordTokenizer.transform_loop fuel self text []).1 ≠ OutOfFuel →
  (SubwordTokenizer.transform self text).1
  = (SubwordTokenizer.transform_loop fuel self text []).1.
Proof.
  unfold SubwordTokenizer.transform.
  destruct (effective_detector self) as [regex|] eqn:Heff.
  - rewrite !(transform_loop_segment _ regex) by done.
    apply segment_fuel_enough.
  - destruct text as [|c text]; [by destruct fuel|].
    destruct fuel as [|fuel]; [done|]. simpl.
    by rewrite bestmatch_untrained.
Qed.

Lemma transform_loop_stuck self regex fuel rest acc :
  effective_detector self = Some regex →
  rest ≠ [] → Re.match_ regex rest = Some [] →
  (SubwordTokenizer.transform_loop fuel self rest acc).1 = OutOfFuel.
Proof.
  intros Heff Hne Hm. rewrite (transform_loop_segment _ regex) by done.
  by apply segment_stuck.
Qed.

(** Where no symbol starts the rest of the text, the turn ends in a
    [TypeError]. *)
Lemma segment_no_match matcher fuel rest acc :
  rest ≠ [] → matcher rest = None →
  segment matcher (S fuel) rest acc = Raise TypeError.
Proof. intros Hne Hm. destruct rest; [done|]. simpl. by rewrite Hm. Qed.

(** The state in which [fit] leaves the base class: the Symbol Set and the
    matcher compiled from it. *)
Definition fitted self syms : Prop :=
  SubwordTokenizer.symbols self = Some syms
  ∧ SubwordTokenizer.detector self = Some (compiled syms).

Lemma compile_fitted syms d :
  ∃ self', SubwordTokenizer.compile (SubwordTokenizer.mk (Some syms) d)
           = (Ok tt, self') ∧ fitted self' syms.
Proof. eexists. split; [reflexivity|]. by split. Qed.

Lemma fitted_effective self syms :
  fitted self syms → effective_detector self = Some (compiled syms).
Proof. intros [_ Hd]. unfold effective_detector. by rewrite Hd. Qed.

(** When every character of the text is a symbol, each turn matches at
    least one character and the tokens spell the text. *)
Lemma segment_roundtrip syms fuel rest acc :
  (∀ c, c ∈ rest → [c] ∈ syms) → length rest ≤ fuel →
  ∃ tokens, segment (Re.match_ (compiled syms)) fuel rest acc = Ok (acc ++ tokens)
            ∧ concat tokens = rest.
Proof.
  revert rest acc. induction fuel as [|fuel IH]; intros rest acc Hin Hlen.
  - destruct rest; [|simpl in Hlen; lia]. exists []. by rewrite app_nil_r.
  - destruct rest as [|c rest].
    { exists []. by rewrite app_nil_r. }
    simpl. pose proof (match_compiled syms (c :: rest)) as Hm.
    assert (Hc : [c] ∈ syms) by (apply Hin; left).
    assert (Hsc : Re.startswith (c :: rest) [c] = true).
    { simpl. by rewrite bool_decide_eq_true_2. }
    destruct (Re.match_ (compiled syms) (c :: rest)) as [m|]; simpl in Hm.
    + destruct Hm as (Hs & _ & Hmax). specialize (Hmax _ Hc Hsc). simpl in Hmax.
      destruct (IH (drop (length m) (c :: rest)) (acc ++ [m])) as (tokens & -> & Hcat).
      * intros c' Hc'. apply Hin. by eapply subseteq_drop.
      * rewrite length_drop. simpl in *. lia.
      * exists (m :: tokens). rewrite <- app_assoc. split; [done|].
        simpl. rewrite Hcat. by apply startswith_drop.
    + destruct Hm as [_ Hnone]. rewrite (Hnone _ Hc) in Hsc. discriminate.
Qed.

Lemma transform_roundtrip self syms text :
  fitted self syms → (∀ c, c ∈ text → [c] ∈ syms) →
  ∃ tokens, (SubwordTokenizer.transform self text).1 = Ok tokens
            ∧ concat tokens = text.
Proof.
  intros Hfit Hin. unfold SubwordTokenizer.transform.
  rewrite (transform_loop_segment _ (compiled syms)) by by apply fitted_effective.
  by apply (segment_roundtrip syms (length text) text []).
Qed.

Lemma transform_ext self1 self2 syms1 syms2 text :
  fitted self1 syms1 → fitted self2 syms2 →
  (∀ x, x ∈ syms1 ↔ x ∈ syms2) →
  (SubwordTokenizer.transform self1 text).1
  = (SubwordTokenizer.transform self2 text).1.
Proof.
  intros H1 H2 Hext. unfold SubwordTokenizer.transform.
  rewrite (transform_loop_segment _ (compiled syms1)) by by apply fitted_effective.
  rewrite (transform_loop_segment _ (compiled syms2)) by by apply fitted_effective.
  generalize (@nil (list char)) as acc. generalize (length text) as fuel.
  intros fuel. revert text. induction fuel as [|fuel IH]; intros text acc.
  - done.
  - destruct text as [|c text]; [done|]. simpl.
    rewrite (match_compiled_ext syms1 syms2) by done.
    destruct (Re.match_ (compiled syms2) (c :: text)); [apply IH|done].
Qed.

End transform_facts.

(** ** Adjacent pairs of a corpus *)

Section adjacency.
Context {A : Type} `{!EqDecision A}.
Implicit Types (doc l : list A) (p q : A * A) (ps : list (A * A)).

(** The ordered pairs of neighbours of a document, left to right *)
Fixpoint adjacent doc : list (A * A) :=
  match doc with
  | [] => []
  | x :: after =>
      match after with
      | [] => []
      | y :: _ => (x, y) :: adjacent after
      end
  end.

(** How many entries of [l] are the pair [p] *)
Definition count p (l : list (A * A)) : Z := len (filter (λ q, q = p) l).

(** The number of adjacent occurrences of [p] across the corpus *)
Definition occurrences p (corpus : list (list A)) : Z :=
  count p (concat (adjacent <$> corpus)).

Lemma count_nil p : count p [] = 0%Z.
Proof. done. Qed.

Lemma count_cons p q ps :
  count p (q :: ps) = ((if decide (q = p) then 1 else 0) + count p ps)%Z.
Proof.
  unfold count, len. rewrite filter_cons. destruct (decide (q = p)); simpl; lia.
Qed.

Lemma count_app p ps1 ps2 : count p (ps1 ++ ps2) = (count p ps1 + count p ps2)%Z.
Proof. unfold count, len. rewrite filter_app, length_app. lia. Qed.

Lemma count_nonneg p ps : (0 ≤ count p ps)%Z.
Proof. unfold count, len. lia. Qed.

Lemma count_pos p ps : (0 < count p ps)%Z ↔ p ∈ ps.
Proof.
  induction ps as [|q ps IH].
  - rewrite count_nil, elem_of_nil. lia.
  - rewrite count_cons, elem_of_cons. pose proof (count_nonneg p ps).
    destruct (decide (q = p)) as [->|Hne].
    + split; [by left|lia].
    + rewrite Z.add_0_l, IH. split; [by right|]. intros [?|?]; [congruence|done].
Qed.

Lemma adjacent_app_cons l1 x l2 :
  adjacent (l1 ++ x :: l2) = adjacent (l1 ++ [x]) ++ adjacent (x :: l2).
Proof.
  induction l1 as [|a l1 IH]; [done|].
  destruct l1 as [|b l1]; [done|].
  change (adjacent ((a :: b :: l1) ++ x :: l2))
    with ((a, b) :: adjacent ((b :: l1) ++ x :: l2)).
  rewrite IH. done.
Qed.

Lemma adjacent_snoc l a x :
  adjacent ((l ++ [a]) ++ [x]) = adjacent (l ++ [a]) ++ [(a, x)].
Proof. rewrite <- app_assoc. simpl. by rewrite adjacent_app_cons. Qed.

Lemma occurrences_nil p : occurrences p [] = 0%Z.
Proof. done. Qed.

Lemma occurrences_cons p doc corpus :
  occurrences p (doc :: corpus)
  = (count p (adjacent doc) + occurrences p corpus)%Z.
Proof. unfold occurrences. simpl. by rewrite count_app. Qed.

Lemma elem_of_concat {B} (x : B) (ls : list (list B)) :
  x ∈ concat ls ↔ ∃ l0 : list B, x ∈ l0 ∧ l0 ∈ ls.
Proof.
  induction ls as [|l0 ls IH]; simpl.
  - split; [intros H; by apply elem_of_nil in H|].
    intros (l & _ & H). by apply elem_of_nil in H.
  - rewrite elem_of_app, IH. split.
    + intros [H|(l & H1 & H2)]; [exists l0; split; [done|left]|].
      exists l. split; [done|by right].
    + intros (l & H1 & [->|H2]%elem_of_cons); [by left|right; eauto].
Qed.

Lemma occurrences_pos p corpus :
  (0 < occurrences p corpus)%Z ↔ ∃ doc, doc ∈ corpus ∧ p ∈ adjacent doc.
Proof.
  unfold occurrences. rewrite count_pos, elem_of_concat. split.
  - intros (l & Hp & (doc & -> & Hdoc)%list_elem_of_fmap). eauto.
  - intros (doc & Hdoc & Hp). exists (adjacent doc). split; [done|].
    apply list_elem_of_fmap. eauto.
Qed.

(** Induction on a list, two elements at a time *)
Lemma list_pair_ind (P : list A → Prop) :
  P [] → (∀ x, P [x]) →
  (∀ x y l, P (y :: l) → P l → P (x :: y :: l)) →
  ∀ l, P l.
Proof.
  intros Hnil Hone Hstep l.
  assert (H : P l ∧ ∀ x, P (x :: l)); [|tauto].
  induction l as [|y l [IH1 IH2]]; [by auto|].
  split; [done|]. intros x. by apply Hstep.
Qed.

End adjacency.

(** ** BPE training *)

Section bpe_facts.
Context {char : Type} `{!EqDecision char}.
Variable wordchar : char → bool.
Variable self : BPETokenizer.t char.
Local Abbreviation symbol := (list char).
Local Abbreviation pair := (list char * list char)%type.
Local Abbreviation valid := (BPETokenizer.validpair wordchar self).
Implicit Types (s a b L R : symbol) (p : pair).
Implicit Types (doc prev : list symbol) (corpus : list (list symbol)).
Implicit Types (freqs stats : list (pair * Z)) (symbols : list symbol).

(** *** The boundary policy *)

(** A symbol that may take part in a pair when merges must stay inside
    words *)
Definition wordsymbol s : bool :=
  (1 <? len s)%Z || BPETokenizer.re_match_w wordchar s.

Lemma validpair_wordsymbol a b :
  valid a b = BPETokenizer.crosswords self || (wordsymbol a && wordsymbol b).
Proof.
  unfold BPETokenizer.validpair, wordsymbol.
  destruct (BPETokenizer.crosswords self), (1 <? len a)%Z, (1 <? len b)%Z,
    (BPETokenizer.re_match_w wordchar a), (BPETokenizer.re_match_w wordchar b);
    done.
Qed.

Lemma validpair_sym a b : valid a b = valid b a.
Proof. rewrite !validpair_wordsymbol. by rewrite (andb_comm (wordsymbol a)). Qed.

Lemma wordsymbol_app L R : L ≠ [] → R ≠ [] → wordsymbol (L ++ R) = true.
Proof.
  intros HL HR. unfold wordsymbol, len. rewrite length_app.
  destruct L, R; try done. simpl.
  apply orb_true_iff. left. apply Z.ltb_lt. lia.
Qed.

Lemma validpair_merged_l a L R :
  L ≠ [] → R ≠ [] →
  valid a (L ++ R) = BPETokenizer.crosswords self || wordsymbol a.
Proof.
  intros HL HR. rewrite validpair_wordsymbol, wordsymbol_app by done.
  by rewrite andb_true_r.
Qed.

(** *** The initial frequency pass *)

Lemma pairfreqs_doc_get0 doc stats p :
  PyDict.get0 (BPETokenizer.pairfreqs_doc wordchar self doc stats) p
  = (PyDict.get0 stats p
     + if valid p.1 p.2 then count p (adjacent doc) else 0)%Z.
Proof.
  revert stats. induction doc as [|x doc IH]; intros stats.
  - simpl. destruct (valid _ _); rewrite ?count_nil; lia.
  - destruct doc as [|y doc].
    + simpl. destruct (valid _ _); rewrite ?count_nil; lia.
    + change (BPETokenizer.pairfreqs_doc wordchar self (x :: y :: doc) stats)
        with (BPETokenizer.pairfreqs_doc wordchar self (y :: doc)
                (if valid x y then PyDict.add (x, y) 1%Z stats else stats)).
      rewrite IH. change (adjacent (x :: y :: doc)) with ((x, y) :: adjacent (y :: doc)).
      rewrite count_cons.
      destruct (valid x y) eqn:Hxy.
      * rewrite pydict_get0_add.
        destruct (decide ((x, y) = p)) as [<-|Hne].
        -- rewrite decide_True by done. simpl. rewrite Hxy. lia.
        -- rewrite decide_False by congruence. destruct (valid _ _); lia.
      * destruct (decide ((x, y) = p)) as [<-|Hne].
        -- simpl. rewrite Hxy. lia.
        -- destruct (valid _ _); lia.
Qed.

Lemma pairfreqs_doc_keys doc stats p :
  p ∈ PyDict.keys (BPETokenizer.pairfreqs_doc wordchar self doc stats) →
  p ∈ PyDict.keys stats ∨ (p ∈ adjacent doc ∧ valid p.1 p.2 = true).
Proof.
  revert stats. induction doc as [|x doc IH]; intros stats.
  - by left.
  - destruct doc as [|y doc]; [by left|].
    change (BPETokenizer.pairfreqs_doc wordchar self (x :: y :: doc) stats)
      with (BPETokenizer.pairfreqs_doc wordchar self (y :: doc)
              (if valid x y then PyDict.add (x, y) 1%Z stats else stats)).
    change (adjacent (x :: y :: doc)) with ((x, y) :: adjacent (y :: doc)).
    intros [Hin|[Hin Hv]]%IH.
    + destruct (valid x y) eqn:Hxy; [|by left].
      apply pydict_keys_add in Hin as [->|Hin]; [|by left].
      right. split; [left|done].
    + right. split; [by right|done].
Qed.

Lemma pairfreqs_doc_NoDup doc stats :
  NoDup (PyDict.keys stats) →
  NoDup (PyDict.keys (BPETokenizer.pairfreqs_doc wordchar self doc stats)).
Proof.
  revert stats. induction doc as [|x doc IH]; intros stats Hnd; [done|].
  destruct doc as [|y doc]; [done|].
  change (BPETokenizer.pairfreqs_doc wordchar self (x :: y :: doc) stats)
    with (BPETokenizer.pairfreqs_doc wordchar self (y :: doc)
            (if valid x y then PyDict.add (x, y) 1%Z stats else stats)).
  apply IH. destruct (valid x y); [by apply pydict_NoDup_add|done].
Qed.

Lemma adjacent_elem_of {A} (doc : list A) x y :
  (x, y) ∈ adjacent doc → x ∈ doc ∧ y ∈ doc.
Proof.
  induction doc as [|a doc IH]; simpl.
  - intros H. by apply elem_of_nil in H.
  - destruct doc as [|b doc].
    + intros H. by apply elem_of_nil in H.
    + intros [[= -> ->]|Hin]%elem_of_cons.
      * split; [left|right; left].
      * destruct (IH Hin). split; by right.
Qed.

(** *** One merge step *)

Lemma validpair_merged_weaken a L R :
  L ≠ [] → R ≠ [] → valid a L = true → valid a (L ++ R) = true.
Proof.
  intros HL HR. rewrite validpair_merged_l, validpair_wordsymbol by done.
  destruct (BPETokenizer.crosswords self), (wordsymbol a); simpl; done.
Qed.

Lemma validpair_merged_weaken_r b L R :
  L ≠ [] → R ≠ [] → valid R b = true → valid b (L ++ R) = true.
Proof.
  intros HL HR. rewrite validpair_merged_l, validpair_wordsymbol by done.
  destruct (BPETokenizer.crosswords self), (wordsymbol b), (wordsymbol R);
    simpl; done.
Qed.

Lemma validpair_merged_prev a L R :
  L ≠ [] → R ≠ [] → valid L R = true → valid a (L ++ R) = true →
  valid a L = true.
Proof.
  intros HL HR. rewrite validpair_merged_l, !validpair_wordsymbol by done.
  destruct (BPETokenizer.crosswords self), (wordsymbol a), (wordsymbol L);
    simpl; done.
Qed.

Lemma validpair_merged_next b L R :
  L ≠ [] → R ≠ [] → valid L R = true → valid b (L ++ R) = true →
  valid R b = true.
Proof.
  intros HL HR. rewrite validpair_merged_l, !validpair_wordsymbol by done.
  destruct (BPETokenizer.crosswords self), (wordsymbol b), (wordsymbol L),
    (wordsymbol R); simpl; done.
Qed.

(** The update of the table for the symbol before a merged node *)
Definition update_prev L R prev freqs : list (pair * Z) :=
  match prev with
  | prevsymbol :: _ =>
      if valid prevsymbol (L ++ R)
      then PyDict.add (prevsymbol, L) (-1)%Z
             (PyDict.add (prevsymbol, L ++ R) 1%Z freqs)
      else freqs
  | [] => freqs
  end.

(** The update of the table for the symbol after a merged node *)
Definition update_next L R doc freqs : list (pair * Z) :=
  match doc with
  | nextsymbol :: _ =>
      if valid nextsymbol (L ++ R)
      then PyDict.add (R, nextsymbol) (-1)%Z
             (PyDict.add (L ++ R, nextsymbol) 1%Z freqs)
      else freqs
  | [] => freqs
  end.

Lemma merge_nodes_unfold L R prev x y doc freqs :
  BPETokenizer.merge_nodes wordchar self L R prev (x :: y :: doc) freqs
  = if bool_decide (x = L) && bool_decide (y = R)
    then BPETokenizer.merge_nodes wordchar self L R ((x ++ y) :: prev) doc
           (update_next L R doc (update_prev L R prev freqs))
    else BPETokenizer.merge_nodes wordchar self L R (x :: prev) (y :: doc) freqs.
Proof. reflexivity. Qed.

(** The document a pass of [mergesymbols] leaves *)
Fixpoint merge_list L R doc : list symbol :=
  match doc with
  | [] => []
  | x :: after =>
      match after with
      | [] => [x]
      | y :: after' =>
          if bool_decide (x = L) && bool_decide (y = R)
          then (x ++ y) :: merge_list L R after'
          else x :: merge_list L R after
      end
  end.

Lemma merge_list_unfold L R x y doc :
  merge_list L R (x :: y :: doc)
  = if bool_decide (x = L) && bool_decide (y = R)
    then (x ++ y) :: merge_list L R doc
    else x :: merge_list L R (y :: doc).
Proof. reflexivity. Qed.

Lemma merge_nodes_fst L R doc :
  ∀ prev freqs,
    (BPETokenizer.merge_nodes wordchar self L R prev doc freqs).1
    = rev prev ++ merge_list L R doc.
Proof.
  induction doc as [| x | x y doc IH1 IH2] using list_pair_ind; intros prev freqs.
  - simpl. by rewrite app_nil_r.
  - done.
  - rewrite merge_nodes_unfold, merge_list_unfold.
    destruct (bool_decide (x = L) && bool_decide (y = R)).
    + rewrite IH2. simpl. by rewrite <- app_assoc.
    + rewrite IH1. simpl. by rewrite <- app_assoc.
Qed.

Lemma cond_merge_true x y L R :
  bool_decide (x = L) && bool_decide (y = R) = true ↔ x = L ∧ y = R.
Proof. by rewrite andb_true_iff, !bool_decide_eq_true. Qed.

Lemma update_prev_exact L R prev freqs p :
  L ≠ [] → R ≠ [] → valid p.1 p.2 = true →
  (PyDict.get0 (update_prev L R prev freqs) p - PyDict.get0 freqs p
   = count p (adjacent (rev prev ++ [L ++ R]))
     - count p (adjacent (rev prev ++ [L])))%Z.
Proof.
  intros HL HR Hp. destruct prev as [|a prev]; simpl.
  - rewrite !count_nil. lia.
  - rewrite !adjacent_snoc, !count_app, !count_cons, !count_nil.
    destruct (valid a (L ++ R)) eqn:Hv.
    + rewrite !pydict_get0_add. repeat case_decide; subst; simpl in *; try lia; congruence.
    + destruct (decide ((a, L ++ R) = p)) as [<-|_]; [simpl in Hp; congruence|].
      destruct (decide ((a, L) = p)) as [<-|_]; [|lia].
      simpl in Hp. apply (validpair_merged_weaken _ L R) in Hp; [congruence|done..].
Qed.

Lemma update_next_exact L R doc freqs p :
  L ≠ [] → R ≠ [] → valid p.1 p.2 = true →
  (PyDict.get0 (update_next L R doc freqs) p - PyDict.get0 freqs p
   = count p (adjacent ((L ++ R) :: doc)) - count p (adjacent (R :: doc)))%Z.
Proof.
  intros HL HR Hp. destruct doc as [|b doc].
  - simpl. rewrite !count_nil. lia.
  - change (adjacent ((L ++ R) :: b :: doc))
      with ((L ++ R, b) :: adjacent (b :: doc)).
    change (adjacent (R :: b :: doc)) with ((R, b) :: adjacent (b :: doc)).
    rewrite !count_cons. simpl.
    destruct (valid b (L ++ R)) eqn:Hv.
    + rewrite !pydict_get0_add. repeat case_decide; subst; simpl in *; try lia; congruence.
    + destruct (decide ((L ++ R, b) = p)) as [<-|_].
      { simpl in Hp. rewrite validpair_sym in Hp. congruence. }
      destruct (decide ((R, b) = p)) as [<-|_]; [|lia].
      simpl in Hp. apply (validpair_merged_weaken_r _ L R) in Hp; [congruence|done..].
Qed.

(** Merging one occurrence changes the table, at every eligible pair
    other than the merged one, by what the merge changes in the corpus. *)
Lemma update_exact L R prev doc freqs p :
  L ≠ [] → R ≠ [] → valid p.1 p.2 = true → p ≠ (L, R) →
  (PyDict.get0 (update_next L R doc (update_prev L R prev freqs)) p
   - PyDict.get0 freqs p
   = count p (adjacent (rev prev ++ (L ++ R) :: doc))
     - count p (adjacent (rev prev ++ L :: R :: doc)))%Z.
Proof.
  intros HL HR Hp Hne.
  pose proof (update_prev_exact L R prev freqs p HL HR Hp).
  pose proof (update_next_exact L R doc (update_prev L R prev freqs) p HL HR Hp).
  rewrite (adjacent_app_cons (rev prev) (L ++ R)).
  rewrite (adjacent_app_cons (rev prev) L).
  change (adjacent (L :: R :: doc)) with ((L, R) :: adjacent (R :: doc)).
  rewrite !count_app, count_cons. rewrite decide_False by congruence. lia.
Qed.

Lemma merge_nodes_exact L R doc :
  L ≠ [] → R ≠ [] →
  ∀ prev freqs p, valid p.1 p.2 = true → p ≠ (L, R) →
    (PyDict.get0 (BPETokenizer.merge_nodes wordchar self L R prev doc freqs).2 p
     - PyDict.get0 freqs p
     = count p (adjacent (rev prev ++ merge_list L R doc))
       - count p (adjacent (rev prev ++ doc)))%Z.
Proof.
  intros HL HR.
  induction doc as [| x | x y doc IH1 IH2] using list_pair_ind;
    intros prev freqs p Hp Hne.
  - simpl. lia.
  - simpl. lia.
  - rewrite merge_nodes_unfold, merge_list_unfold.
    destruct (bool_decide (x = L) && bool_decide (y = R)) eqn:Hc.
    + apply cond_merge_true in Hc as [-> ->].
      specialize (IH2 ((L ++ R) :: prev)
                    (update_next L R doc (update_prev L R prev freqs)) p Hp Hne).
      pose proof (update_exact L R prev doc freqs p HL HR Hp Hne) as Hstep.
      cbn [rev] in IH2. rewrite <- !app_assoc in IH2. cbn [app] in IH2. lia.
    + specialize (IH1 (x :: prev) freqs p Hp Hne).
      cbn [rev] in IH1. rewrite <- !app_assoc in IH1. cbn [app] in IH1.
      exact IH1.
Qed.

(** No occurrence of the merged pair is left in a document. *)
Lemma merge_list_head L R doc h :
  head (merge_list L R doc) = Some h →
  head doc = Some h ∨ h = L ++ R.
Proof.
  destruct doc as [|x [|y doc]]; [done|by left|].
  rewrite merge_list_unfold.
  destruct (bool_decide (x = L) && bool_decide (y = R)) eqn:Hc; simpl.
  - apply cond_merge_true in Hc as [-> ->]. intros [= <-]. by right.
  - intros [= <-]. by left.
Qed.

Lemma adjacent_cons_head {A} (x : A) (l : list A) :
  adjacent (x :: l)
  = match head l with Some y => [(x, y)] | None => [] end ++ adjacent l.
Proof. by destruct l. Qed.

Lemma merge_list_no_pair L R doc :
  L ≠ [] → R ≠ [] → (L, R) ∉ adjacent (merge_list L R doc).
Proof.
  intros HL HR.
  induction doc as [| x | x y doc IH1 IH2] using list_pair_ind.
  - apply not_elem_of_nil.
  - apply not_elem_of_nil.
  - rewrite merge_list_unfold.
    destruct (bool_decide (x = L) && bool_decide (y = R)) eqn:Hc.
    + apply cond_merge_true in Hc as [-> ->].
      rewrite adjacent_cons_head. rewrite elem_of_app. intros [Hin|Hin]; [|done].
      destruct (head (merge_list L R doc)); [|by apply elem_of_nil in Hin].
      apply list_elem_of_singleton in Hin. injection Hin as Hin _.
      apply (f_equal length) in Hin. rewrite length_app in Hin.
      destruct R; [done|]. simpl in Hin. lia.
    + rewrite adjacent_cons_head. rewrite elem_of_app. intros [Hin|Hin]; [|done].
      destruct (head (merge_list L R (y :: doc))) as [h|] eqn:Hh;
        [|by apply elem_of_nil in Hin].
      apply list_elem_of_singleton in Hin. injection Hin as <- <-.
      apply merge_list_head in Hh as [[= ->]|Hh].
      * rewrite !bool_decide_eq_true_2 in Hc by done. done.
      * apply (f_equal length) in Hh. rewrite length_app in Hh.
        destruct L; [done|]. simpl in Hh. lia.
Qed.

Lemma merge_list_elem_of L R doc s :
  s ∈ merge_list L R doc → s ∈ doc ∨ s = L ++ R.
Proof.
  induction doc as [| x | x y doc IH1 IH2] using list_pair_ind.
  - by left.
  - by left.
  - rewrite merge_list_unfold.
    destruct (bool_decide (x = L) && bool_decide (y = R)) eqn:Hc.
    + apply cond_merge_true in Hc as [-> ->].
      intros [->|[Hin| ->]%IH2]%elem_of_cons; [by right| |by right].
      left. by do 2 right.
    + intros [->|[Hin| ->]%IH1]%elem_of_cons; [left; left| |by right].
      left. by right.
Qed.

Lemma merge_list_length L R doc : length (merge_list L R doc) ≤ length doc.
Proof.
  induction doc as [| x | x y doc IH1 IH2] using list_pair_ind; [done..|].
  rewrite merge_list_unfold.
  destruct (bool_decide (x = L) && bool_decide (y = R)); simpl in *; lia.
Qed.

(** *** The keys of the table across a merge *)

Lemma update_prev_keys L R prev freqs k :
  k ∈ PyDict.keys (update_prev L R prev freqs) →
  k ∈ PyDict.keys freqs
  ∨ ∃ a, a ∈ prev ∧ valid a (L ++ R) = true ∧ (k = (a, L) ∨ k = (a, L ++ R)).
Proof.
  destruct prev as [|a prev]; simpl; [by left|].
  destruct (valid a (L ++ R)) eqn:Hv; [|by left].
  intros [->|[->|Hin]%pydict_keys_add]%pydict_keys_add; [| |by left].
  - right. exists a. split; [left|auto].
  - right. exists a. split; [left|auto].
Qed.

Lemma update_next_keys L R doc freqs k :
  k ∈ PyDict.keys (update_next L R doc freqs) →
  k ∈ PyDict.keys freqs
  ∨ ∃ b, b ∈ doc ∧ valid b (L ++ R) = true ∧ (k = (R, b) ∨ k = (L ++ R, b)).
Proof.
  destruct doc as [|b doc]; simpl; [by left|].
  destruct (valid b (L ++ R)) eqn:Hv; [|by left].
  intros [->|[->|Hin]%pydict_keys_add]%pydict_keys_add; [| |by left].
  - right. exists b. split; [left|auto].
  - right. exists b. split; [left|auto].
Qed.

Lemma update_keys_mono L R prev doc freqs k :
  k ∈ PyDict.keys freqs →
  k ∈ PyDict.keys (update_next L R doc (update_prev L R prev freqs)).
Proof.
  intros Hk.
  assert (k ∈ PyDict.keys (update_prev L R prev freqs)) as Hk'.
  { destruct prev as [|a prev]; simpl; [done|].
    destruct (valid a (L ++ R)); [|done].
    apply pydict_keys_add. right. apply pydict_keys_add. by right. }
  destruct doc as [|b doc]; simpl; [done|].
  destruct (valid b (L ++ R)); [|done].
  apply pydict_keys_add. right. apply pydict_keys_add. by right.
Qed.

Lemma update_NoDup L R prev doc freqs :
  NoDup (PyDict.keys freqs) →
  NoDup (PyDict.keys (update_next L R doc (update_prev L R prev freqs))).
Proof.
  intros Hnd.
  assert (NoDup (PyDict.keys (update_prev L R prev freqs))) as Hnd'.
  { destruct prev as [|a prev]; simpl; [done|].
    destruct (valid a (L ++ R)); [|done]. by do 2 apply pydict_NoDup_add. }
  destruct doc as [|b doc]; simpl; [done|].
  destruct (valid b (L ++ R)); [|done]. by do 2 apply pydict_NoDup_add.
Qed.

Lemma update_length L R prev doc freqs :
  length (update_next L R doc (update_prev L R prev freqs)) ≤ 4 + length freqs.
Proof.
  assert (length (update_prev L R prev freqs) ≤ 2 + length freqs) as Hp.
  { destruct prev as [|a prev]; simpl; [lia|].
    destruct (valid a (L ++ R)); [|lia].
    pose proof (pydict_length_add (PyDict.add (a, L ++ R) 1%Z freqs) (a, L) (-1)%Z).
    pose proof (pydict_length_add freqs (a, L ++ R) 1%Z). lia. }
  destruct doc as [|b doc]; simpl; [lia|].
  destruct (valid b (L ++ R)); [|lia].
  pose proof (pydict_length_add
                (PyDict.add (L ++ R, b) 1%Z (update_prev L R prev freqs))
                (R, b) (-1)%Z).
  pose proof (pydict_length_add (update_prev L R prev freqs) (L ++ R, b) 1%Z).
  lia.
Qed.

(** A key of the table after the pass over a document was there before, or
    pairs a symbol of the document (or the new symbol) with [L], [R] or the
    new symbol, under the condition the code tests. *)
Definition fresh_key L R (scope : list symbol) (k : pair) : Prop :=
  ∃ a, (a ∈ scope ∨ a = L ++ R) ∧ valid a (L ++ R) = true
       ∧ (k = (a, L) ∨ k = (a, L ++ R) ∨ k = (R, a) ∨ k = (L ++ R, a)).

Lemma merge_nodes_keys L R doc :
  ∀ prev freqs k,
    k ∈ PyDict.keys (BPETokenizer.merge_nodes wordchar self L R prev doc freqs).2 →
    k ∈ PyDict.keys freqs ∨ fresh_key L R (prev ++ doc) k.
Proof.
  induction doc as [| x | x y doc IH1 IH2] using list_pair_ind;
    intros prev freqs k.
  - by left.
  - by left.
  - rewrite merge_nodes_unfold.
    destruct (bool_decide (x = L) && bool_decide (y = R)) eqn:Hc.
    + apply cond_merge_true in Hc as [-> ->].
      intros [Hk|(a & Ha & Hv & Hk)]%IH2.
      * apply update_next_keys in Hk as [Hk|(b & Hb & Hv & Hk)].
        -- apply update_prev_keys in Hk as [Hk|(a & Ha & Hv & Hk)]; [by left|].
           right. exists a. split; [left; apply elem_of_app; by left|].
           split; [done|]. tauto.
        -- right. exists b. split; [left; apply elem_of_app; right; by do 2 right|].
           split; [done|]. tauto.
      * right. exists a. split; [|done].
        destruct Ha as [Ha| ->]; [|by right].
        apply elem_of_app in Ha as [[->|Ha]%elem_of_cons|Ha]; [by right|left..].
        -- apply elem_of_app. by left.
        -- apply elem_of_app. right. by do 2 right.
    + intros [Hk|(a & Ha & Hv & Hk)]%IH1; [by left|].
      right. exists a. split; [|done].
      destruct Ha as [Ha| ->]; [|by right]. left.
      apply elem_of_app in Ha as [[->|Ha]%elem_of_cons|Ha].
      * apply elem_of_app. right. left.
      * apply elem_of_app. by left.
      * apply elem_of_app. right. by right.
Qed.

Lemma merge_nodes_keys_mono L R doc :
  ∀ prev freqs k,
    k ∈ PyDict.keys freqs →
    k ∈ PyDict.keys (BPETokenizer.merge_nodes wordchar self L R prev doc freqs).2.
Proof.
  induction doc as [| x | x y doc IH1 IH2] using list_pair_ind;
    intros prev freqs k Hk; [done..|].
  rewrite merge_nodes_unfold.
  destruct (bool_decide (x = L) && bool_decide (y = R)).
  - apply IH2. by apply update_keys_mono.
  - by apply IH1.
Qed.

Lemma merge_nodes_NoDup L R doc :
  ∀ prev freqs,
    NoDup (PyDict.keys freqs) →
    NoDup (PyDict.keys (BPETokenizer.merge_nodes wordchar self L R prev doc freqs).2).
Proof.
  induction doc as [| x | x y doc IH1 IH2] using list_pair_ind;
    intros prev freqs Hnd; [done..|].
  rewrite merge_nodes_unfold.
  destruct (bool_decide (x = L) && bool_decide (y = R)).
  - apply IH2. by apply update_NoDup.
  - by apply IH1.
Qed.

Lemma merge_nodes_budget L R doc :
  ∀ prev freqs,
    5 * length (merge_list L R doc)
    + length (BPETokenizer.merge_nodes wordchar self L R prev doc freqs).2
    ≤ 5 * length doc + length freqs.
Proof.
  induction doc as [| x | x y doc IH1 IH2] using list_pair_ind;
    intros prev freqs; [done..|].
  rewrite merge_nodes_unfold, merge_list_unfold.
  destruct (bool_decide (x = L) && bool_decide (y = R)).
  - specialize (IH2 ((x ++ y) :: prev)
                  (update_next L R doc (update_prev L R prev freqs))).
    pose proof (update_length L R prev doc freqs). simpl in *. lia.
  - specialize (IH1 (x :: prev) freqs). simpl in *. lia.
Qed.

(** *** A pass of [mergesymbols] over the corpus *)

Lemma merge_docs_cons L R doc corpus freqs :
  BPETokenizer.merge_docs wordchar self L R (doc :: corpus) freqs
  = let r := BPETokenizer.merge_nodes wordchar self L R [] doc freqs in
    let r' := BPETokenizer.merge_docs wordchar self L R corpus r.2 in
    (r.1 :: r'.1, r'.2).
Proof.
  simpl. destruct (BPETokenizer.merge_nodes wordchar self L R [] doc freqs).
  simpl. by destruct (BPETokenizer.merge_docs wordchar self L R corpus _).
Qed.

Lemma merge_docs_fst L R corpus :
  ∀ freqs, (BPETokenizer.merge_docs wordchar self L R corpus freqs).1
           = merge_list L R <$> corpus.
Proof.
  induction corpus as [|doc corpus IH]; intros freqs; [done|].
  rewrite merge_docs_cons. simpl. by rewrite IH, merge_nodes_fst.
Qed.

Lemma merge_docs_exact L R corpus :
  L ≠ [] → R ≠ [] →
  ∀ freqs p, valid p.1 p.2 = true → p ≠ (L, R) →
    (PyDict.get0 (BPETokenizer.merge_docs wordchar self L R corpus freqs).2 p
     - PyDict.get0 freqs p
     = occurrences p (merge_list L R <$> corpus) - occurrences p corpus)%Z.
Proof.
  intros HL HR. induction corpus as [|doc corpus IH]; intros freqs p Hp Hne.
  - simpl. lia.
  - rewrite merge_docs_cons. cbn [snd]. rewrite fmap_cons, !occurrences_cons.
    specialize (IH (BPETokenizer.merge_nodes wordchar self L R [] doc freqs).2 p Hp Hne).
    pose proof (merge_nodes_exact L R doc HL HR [] freqs p Hp Hne) as Hdoc.
    simpl in Hdoc. lia.
Qed.

Lemma merge_docs_keys L R corpus :
  ∀ freqs k,
    k ∈ PyDict.keys (BPETokenizer.merge_docs wordchar self L R corpus freqs).2 →
    k ∈ PyDict.keys freqs ∨ fresh_key L R (concat corpus) k.
Proof.
  induction corpus as [|doc corpus IH]; intros freqs k; [by left|].
  rewrite merge_docs_cons. cbn [snd].
  intros [Hk|(a & Ha & Hk)]%IH.
  - apply merge_nodes_keys in Hk as [Hk|(a & Ha & Hk)]; [by left|].
    right. exists a. split; [|done]. destruct Ha as [Ha| ->]; [|by right].
    left. simpl. apply elem_of_app. by left.
  - right. exists a. split; [|done]. destruct Ha as [Ha| ->]; [|by right].
    left. simpl. apply elem_of_app. by right.
Qed.

Lemma merge_docs_keys_mono L R corpus :
  ∀ freqs k,
    k ∈ PyDict.keys freqs →
    k ∈ PyDict.keys (BPETokenizer.merge_docs wordchar self L R corpus freqs).2.
Proof.
  induction corpus as [|doc corpus IH]; intros freqs k Hk; [done|].
  rewrite merge_docs_cons. cbn [snd]. apply IH. by apply merge_nodes_keys_mono.
Qed.

Lemma merge_docs_NoDup L R corpus :
  ∀ freqs,
    NoDup (PyDict.keys freqs) →
    NoDup (PyDict.keys (BPETokenizer.merge_docs wordchar self L R corpus freqs).2).
Proof.
  induction corpus as [|doc corpus IH]; intros freqs Hnd; [done|].
  rewrite merge_docs_cons. cbn [snd]. apply IH. by apply merge_nodes_NoDup.
Qed.

Lemma merge_docs_budget L R corpus :
  ∀ freqs,
    5 * length (concat (merge_list L R <$> corpus))
    + length (BPETokenizer.merge_docs wordchar self L R corpus freqs).2
    ≤ 5 * length (concat corpus) + length freqs.
Proof.
  induction corpus as [|doc corpus IH]; intros freqs; [done|].
  rewrite merge_docs_cons. cbn [snd]. rewrite fmap_cons. simpl.
  rewrite !length_app.
  specialize (IH (BPETokenizer.merge_nodes wordchar self L R [] doc freqs).2).
  pose proof (merge_nodes_budget L R doc [] freqs). lia.
Qed.

Lemma merge_corpus_no_pair L R corpus :
  L ≠ [] → R ≠ [] → occurrences (L, R) (merge_list L R <$> corpus) = 0%Z.
Proof.
  intros HL HR.
  destruct (Z.lt_trichotomy 0 (occurrences (L, R) (merge_list L R <$> corpus)))
    as [Hpos|[<-|Hneg]]; [|done|].
  - apply occurrences_pos in Hpos as (doc' & Hin & Hp).
    apply list_elem_of_fmap in Hin as (doc & -> & _).
    by apply merge_list_no_pair in Hp.
  - pose proof (count_nonneg (L, R)
                  (concat (adjacent <$> (merge_list L R <$> corpus)))).
    unfold occurrences in Hneg. lia.
Qed.

Lemma mergesymbols_symbols corpus symbols freqs L R :
  (BPETokenizer.mergesymbols wordchar self corpus symbols freqs L R).2
  = PySet.add (L ++ R) symbols.
Proof.
  unfold BPETokenizer.mergesymbols.
  destruct (BPETokenizer.merge_docs wordchar self L R corpus freqs) as [c' f'].
  by destruct (PyDict.del (L, R) f').
Qed.

Lemma mergesymbols_Ok corpus symbols freqs L R :
  (L, R) ∈ PyDict.keys freqs →
  ∃ freqs',
    PyDict.del (L, R) (BPETokenizer.merge_docs wordchar self L R corpus freqs).2
    = Some freqs'
    ∧ BPETokenizer.mergesymbols wordchar self corpus symbols freqs L R
      = (Ok (merge_list L R <$> corpus, freqs'), PySet.add (L ++ R) symbols).
Proof.
  intros Hk. unfold BPETokenizer.mergesymbols.
  pose proof (merge_docs_fst L R corpus freqs) as Hfst.
  pose proof (merge_docs_keys_mono L R corpus freqs _ Hk) as Hk'.
  destruct (BPETokenizer.merge_docs wordchar self L R corpus freqs) as [c' f'].
  simpl in *. subst c'. destruct (pydict_del_Some _ _ Hk') as [freqs' Hdel].
  exists freqs'. by rewrite Hdel.
Qed.

Lemma mergesymbols_budget corpus symbols freqs L R corpus' freqs' symbols' :
  BPETokenizer.mergesymbols wordchar self corpus symbols freqs L R
  = (Ok (corpus', freqs'), symbols') →
  BPETokenizer.budget corpus' freqs' < BPETokenizer.budget corpus freqs.
Proof.
  unfold BPETokenizer.mergesymbols, BPETokenizer.budget.
  pose proof (merge_docs_fst L R corpus freqs) as Hfst.
  pose proof (merge_docs_budget L R corpus freqs) as Hb.
  destruct (BPETokenizer.merge_docs wordchar self L R corpus freqs) as [c' f'].
  simpl in *. subst c'.
  destruct (PyDict.del (L, R) f') as [f''|] eqn:Hdel; [|discriminate].
  intros [= <- <- <-]. apply pydict_del_length in Hdel. lia.
Qed.

(** *** The invariant of the frequency table *)

(** The table has one entry per key; its keys are eligible pairs of
    nonempty symbols; at every eligible pair it holds the number of adjacent
    occurrences of the pair across the corpus; the corpus has no empty
    symbol. *)
Record table_inv corpus freqs : Prop := {
  inv_NoDup : NoDup (PyDict.keys freqs);
  inv_keys : ∀ a b, (a, b) ∈ PyDict.keys freqs →
                    valid a b = true ∧ a ≠ [] ∧ b ≠ [];
  inv_exact : ∀ a b, valid a b = true →
                     PyDict.get0 freqs (a, b) = occurrences (a, b) corpus;
  inv_symbols : ∀ doc s, doc ∈ corpus → s ∈ doc → s ≠ []
}.

Lemma table_inv_ineligible corpus freqs a b :
  table_inv corpus freqs → valid a b = false →
  ((a, b) ∉ PyDict.keys freqs) ∧ PyDict.get0 freqs (a, b) = 0%Z.
Proof.
  intros Hinv Hv.
  assert ((a, b) ∉ PyDict.keys freqs) as Hk.
  { intros Hk. apply (inv_keys _ _ Hinv) in Hk as [? _]. congruence. }
  split; [done|]. apply pydict_get_None in Hk. unfold PyDict.get0. by rewrite Hk.
Qed.

Lemma mergesymbols_inv corpus symbols freqs L R :
  table_inv corpus freqs → (L, R) ∈ PyDict.keys freqs →
  ∃ freqs',
    BPETokenizer.mergesymbols wordchar self corpus symbols freqs L R
    = (Ok (merge_list L R <$> corpus, freqs'), PySet.add (L ++ R) symbols)
    ∧ table_inv (merge_list L R <$> corpus) freqs'.
Proof.
  intros Hinv Hk.
  destruct (mergesymbols_Ok corpus symbols freqs L R Hk) as (freqs' & Hdel & Hms).
  exists freqs'. split; [done|].
  destruct (inv_keys _ _ Hinv _ _ Hk) as (HLR & HL & HR).
  pose proof (merge_docs_NoDup L R corpus freqs (inv_NoDup _ _ Hinv)) as Hnd.
  assert (Hne : ∀ a, a ∈ concat corpus ∨ a = L ++ R → a ≠ []).
  { intros a [Ha| ->].
    - apply elem_of_concat in Ha as (doc & Ha & Hdoc).
      by eapply (inv_symbols _ _ Hinv).
    - by destruct L. }
  split.
  - by eapply pydict_del_NoDup.
  - intros a b Hab. eapply pydict_del_keys in Hab; [|exact Hdel].
    apply merge_docs_keys in Hab as [Hab|(c & Hc & Hv & Hab)].
    { by apply (inv_keys _ _ Hinv). }
    specialize (Hne c Hc).
    assert (L ++ R ≠ []) as HLR' by (by destruct L).
    destruct Hab as [[= -> ->]|[[= -> ->]|[[= -> ->]|[= -> ->]]]].
    + split; [|done]. by apply (validpair_merged_prev _ L R).
    + done.
    + split; [|done]. by apply (validpair_merged_next _ L R).
    + split; [|done]. by rewrite validpair_sym.
  - intros a b Hab.
    rewrite (pydict_get0_del _ (L, R) freqs' (a, b) Hnd Hdel).
    destruct (decide ((a, b) = (L, R))) as [[= -> ->]|Hne'].
    + by rewrite merge_corpus_no_pair.
    + pose proof (merge_docs_exact L R corpus HL HR freqs (a, b) Hab Hne') as He.
      rewrite (inv_exact _ _ Hinv a b Hab) in He. lia.
  - intros doc' s (doc & -> & Hdoc)%list_elem_of_fmap Hs.
    apply merge_list_elem_of in Hs as [Hs| ->].
    + by eapply (inv_symbols _ _ Hinv).
    + by destruct L.
Qed.

Lemma pairfreqs_fold_get0 corpus :
  ∀ stats p,
    PyDict.get0
      (foldl (λ stats doc, BPETokenizer.pairfreqs_doc wordchar self doc stats)
         stats corpus) p
    = (PyDict.get0 stats p
       + if valid p.1 p.2 then occurrences p corpus else 0)%Z.
Proof.
  induction corpus as [|doc corpus IH]; intros stats p.
  - simpl. rewrite occurrences_nil. destruct (valid _ _); lia.
  - simpl. rewrite IH, pairfreqs_doc_get0, occurrences_cons.
    destruct (valid _ _); lia.
Qed.

Lemma pairfreqs_fold_keys corpus :
  ∀ stats p,
    p ∈ PyDict.keys
          (foldl (λ stats doc, BPETokenizer.pairfreqs_doc wordchar self doc stats)
             stats corpus) →
    p ∈ PyDict.keys stats
    ∨ (valid p.1 p.2 = true ∧ ∃ doc, doc ∈ corpus ∧ p ∈ adjacent doc).
Proof.
  induction corpus as [|doc corpus IH]; intros stats p; [by left|].
  simpl. intros [Hp|(Hv & doc' & Hdoc & Hp)]%IH.
  - apply pairfreqs_doc_keys in Hp as [Hp|[Hp Hv]]; [by left|].
    right. split; [done|]. exists doc. split; [left|done].
  - right. split; [done|]. exists doc'. split; [by right|done].
Qed.

Lemma pairfreqs_fold_NoDup corpus :
  ∀ stats,
    NoDup (PyDict.keys stats) →
    NoDup (PyDict.keys
             (foldl (λ stats doc, BPETokenizer.pairfreqs_doc wordchar self doc stats)
                stats corpus)).
Proof.
  induction corpus as [|doc corpus IH]; intros stats Hnd; [done|].
  simpl. apply IH. by apply pairfreqs_doc_NoDup.
Qed.

(** The initial pass establishes the invariant. *)
Lemma pairfreqs_inv corpus :
  (∀ doc s, doc ∈ corpus → s ∈ doc → s ≠ []) →
  table_inv corpus (BPETokenizer.pairfreqs wordchar self corpus).
Proof.
  intros Hne. unfold BPETokenizer.pairfreqs. split.
  - apply pairfreqs_fold_NoDup. apply NoDup_nil_2.
  - intros a b [Hk|(Hv & doc & Hdoc & Hp)]%pairfreqs_fold_keys.
    + by apply elem_of_nil in Hk.
    + split; [done|]. apply adjacent_elem_of in Hp as [Ha Hb]. eauto.
  - intros a b Hv. rewrite pairfreqs_fold_get0. simpl. rewrite Hv. done.
  - done.
Qed.

(** *** The merging run *)

(** The pair a turn of the loop of [mergingrun] merges, if it merges one:
    the budget is not reached, the table has a first maximal key, and the
    count of that key is not below [minfreq]. *)
Definition merge_target freqs symbols : option pair :=
  if (len symbols <? BPETokenizer.numsymbols self)%Z then
    match fst <$> PyDict.argmax freqs with
    | Some (L, R) =>
        if (PyDict.get0 freqs (L, R) <? BPETokenizer.minfreq self)%Z
        then None else Some (L, R)
    | None => None
    end
  else None.

(** How a turn that merges nothing leaves the loop *)
Definition halt freqs symbols : outcome unit :=
  if (len symbols <? BPETokenizer.numsymbols self)%Z then
    match PyDict.argmax freqs with
    | Some _ => Ok tt
    | None => Raise ValueError
    end
  else Ok tt.

Lemma mergingrun_loop_halt fuel corpus freqs symbols :
  merge_target freqs symbols = None →
  BPETokenizer.mergingrun_loop wordchar fuel self corpus freqs symbols
  = (match halt freqs symbols with
     | Ok _ => Ok (corpus, freqs)
     | Raise e => Raise e
     | OutOfFuel => OutOfFuel
     end, symbols).
Proof.
  unfold merge_target, halt.
  destruct fuel as [|fuel]; simpl;
    destruct (len symbols <? BPETokenizer.numsymbols self)%Z; try done;
    destruct (PyDict.argmax freqs) as [[[L R] v]|]; simpl; try done;
    destruct (PyDict.get0 freqs (L, R) <? BPETokenizer.minfreq self)%Z; done.
Qed.

Lemma mergingrun_loop_merge fuel corpus freqs symbols L R :
  merge_target freqs symbols = Some (L, R) →
  BPETokenizer.mergingrun_loop wordchar (S fuel) self corpus freqs symbols
  = match BPETokenizer.mergesymbols wordchar self corpus symbols freqs L R with
    | (Ok (corpus', freqs'), symbols') =>
        BPETokenizer.mergingrun_loop wordchar fuel self corpus' freqs' symbols'
    | (Raise e, symbols') => (Raise e, symbols')
    | (OutOfFuel, symbols') => (OutOfFuel, symbols')
    end.
Proof.
  unfold merge_target. simpl.
  destruct (len symbols <? BPETokenizer.numsymbols self)%Z; [|done].
  destruct (PyDict.argmax freqs) as [[[L' R'] v]|]; simpl; [|done].
  destruct (PyDict.get0 freqs (L', R') <? BPETokenizer.minfreq self)%Z; [done|].
  by intros [= -> ->].
Qed.

Lemma mergingrun_loop_no_fuel corpus freqs symbols L R :
  merge_target freqs symbols = Some (L, R) →
  BPETokenizer.mergingrun_loop wordchar 0 self corpus freqs symbols
  = (OutOfFuel, symbols).
Proof.
  unfold merge_target. simpl.
  destruct (len symbols <? BPETokenizer.numsymbols self)%Z; [|done].
  destruct (PyDict.argmax freqs) as [[[L' R'] v]|]; simpl; [|done].
  by destruct (PyDict.get0 freqs (L', R') <? BPETokenizer.minfreq self)%Z.
Qed.

(** The pair merged is a key of the table whose count no other key
    exceeds, and that count is not below [minfreq]. *)
Lemma merge_target_spec freqs symbols L R :
  NoDup (PyDict.keys freqs) →
  merge_target freqs symbols = Some (L, R) →
  (len symbols < BPETokenizer.numsymbols self)%Z
  ∧ (L, R) ∈ PyDict.keys freqs
  ∧ (∀ k, k ∈ PyDict.keys freqs →
          (PyDict.get0 freqs k ≤ PyDict.get0 freqs (L, R))%Z)
  ∧ (BPETokenizer.minfreq self ≤ PyDict.get0 freqs (L, R))%Z.
Proof.
  intros Hnd. unfold merge_target.
  destruct (len symbols <? BPETokenizer.numsymbols self)%Z eqn:Hlen; [|done].
  destruct (PyDict.argmax freqs) as [[[L' R'] v]|] eqn:Hmax; simpl; [|done].
  destruct (PyDict.get0 freqs (L', R') <? BPETokenizer.minfreq self)%Z eqn:Hmin;
    [done|].
  intros [= -> ->]. apply Z.ltb_lt in Hlen. apply Z.ltb_ge in Hmin.
  apply pydict_argmax_spec in Hmax as [Hin Hle].
  assert (PyDict.get0 freqs (L, R) = v) as Hv.
  { unfold PyDict.get0. by rewrite (pydict_get_elem _ _ _ Hnd Hin). }
  split_and!; [done| |..|done].
  - apply list_elem_of_fmap. by exists (L, R, v).
  - intros k (kv & -> & Hk)%list_elem_of_fmap. destruct kv as [k v'].
    simpl. unfold PyDict.get0 at 1. rewrite (pydict_get_elem _ _ _ Hnd Hk).
    simpl. rewrite Hv. by eapply Hle.
Qed.

(** A maximal count below [minfreq] ends the run with nothing merged. *)
Lemma mergingrun_loop_below_minfreq fuel corpus freqs symbols L R :
  fst <$> PyDict.argmax freqs = Some (L, R) →
  (PyDict.get0 freqs (L, R) < BPETokenizer.minfreq self)%Z →
  BPETokenizer.mergingrun_loop wordchar fuel self corpus freqs symbols
  = (Ok (corpus, freqs), symbols).
Proof.
  intros Hmax Hlt. apply Z.ltb_lt in Hlt.
  rewrite mergingrun_loop_halt.
  - unfold halt. destruct (len symbols <? _)%Z; [|done].
    by destruct (PyDict.argmax freqs).
  - unfold merge_target. destruct (len symbols <? _)%Z; [|done].
    by rewrite Hmax, Hlt.
Qed.

(** Every merge lowers the budget, so a run given the budget as fuel does
    not run out of it. *)
Lemma mergingrun_loop_fuel fuel :
  ∀ corpus freqs symbols,
    BPETokenizer.budget corpus freqs ≤ fuel →
    (BPETokenizer.mergingrun_loop wordchar fuel self corpus freqs symbols).1
    ≠ OutOfFuel.
Proof.
  induction fuel as [|fuel IH]; intros corpus freqs symbols Hb.
  - destruct (merge_target freqs symbols) as [[L R]|] eqn:Ht.
    + exfalso. unfold merge_target in Ht.
      destruct (len symbols <? _)%Z; [|done].
      destruct (PyDict.argmax freqs) as [[[L' R'] v]|] eqn:Hmax; [|done].
      destruct freqs; [done|]. unfold BPETokenizer.budget in Hb. simpl in Hb. lia.
    + rewrite mergingrun_loop_halt by done. simpl. unfold halt.
      destruct (len symbols <? _)%Z; [|done].
      by destruct (PyDict.argmax freqs).
  - destruct (merge_target freqs symbols) as [[L R]|] eqn:Ht.
    + rewrite (mergingrun_loop_merge _ _ _ _ L R) by done.
      destruct (BPETokenizer.mergesymbols wordchar self corpus symbols freqs L R)
        as [[[c' f']|e|] s'] eqn:Hms; simpl; [|done|].
      * apply IH. apply mergesymbols_budget in Hms. lia.
      * unfold BPETokenizer.mergesymbols in Hms.
        destruct (BPETokenizer.merge_docs _ _ _ _ _ _) as [? f1].
        by destruct (PyDict.del (L, R) f1).
    + rewrite mergingrun_loop_halt by done. simpl. unfold halt.
      destruct (len symbols <? _)%Z; [|done].
      by destruct (PyDict.argmax freqs).
Qed.

(** A run that ends has merged nothing and changed nothing, or has lowered
    the budget. *)
Lemma mergingrun_loop_progress fuel :
  ∀ corpus freqs symbols corpus' freqs' symbols',
    BPETokenizer.mergingrun_loop wordchar fuel self corpus freqs symbols
    = (Ok (corpus', freqs'), symbols') →
    (corpus' = corpus ∧ freqs' = freqs ∧ symbols' = symbols)
    ∨ BPETokenizer.budget corpus' freqs' < BPETokenizer.budget corpus freqs.
Proof.
  induction fuel as [|fuel IH]; intros corpus freqs symbols corpus' freqs' symbols'.
  - destruct (merge_target freqs symbols) as [[L R]|] eqn:Ht.
    + by rewrite (mergingrun_loop_no_fuel _ _ _ L R).
    + rewrite mergingrun_loop_halt by done.
      destruct (halt freqs symbols); [|done..]. intros [= <- <- <-]. by left.
  - destruct (merge_target freqs symbols) as [[L R]|] eqn:Ht.
    + rewrite (mergingrun_loop_merge _ _ _ _ L R) by done.
      destruct (BPETokenizer.mergesymbols wordchar self corpus symbols freqs L R)
        as [[[c1 f1]|e|] s1] eqn:Hms; [|done..].
      apply mergesymbols_budget in Hms.
      intros [(-> & -> & ->)|Hlt]%IH; right; lia.
    + rewrite mergingrun_loop_halt by done.
      destruct (halt freqs symbols); [|done..]. intros [= <- <- <-]. by left.
Qed.

(** *** The Symbol Set during training *)

Lemma prunesymbols_elem_of corpus symbols s :
  s ∈ BPETokenizer.prunesymbols self corpus symbols → s ∈ symbols.
Proof. unfold BPETokenizer.prunesymbols. rewrite list_elem_of_filter. tauto. Qed.

(** A pruning pass keeps every symbol of one character. *)
Lemma prunesymbols_keeps_chars corpus symbols s :
  s ∈ symbols → length s = 1 → s ∈ BPETokenizer.prunesymbols self corpus symbols.
Proof.
  intros Hs Hlen. unfold BPETokenizer.prunesymbols.
  apply list_elem_of_filter. split; [by left|done].
Qed.

Lemma prunesymbols_NoDup corpus symbols :
  NoDup symbols → NoDup (BPETokenizer.prunesymbols self corpus symbols).
Proof. apply NoDup_filter. Qed.

Lemma prunesymbols_length corpus symbols :
  length (BPETokenizer.prunesymbols self corpus symbols) ≤ length symbols.
Proof. apply length_filter. Qed.

(** Pruning twice over one corpus is pruning once. *)
Lemma prunesymbols_idemp corpus symbols :
  BPETokenizer.prunesymbols self corpus
    (BPETokenizer.prunesymbols self corpus symbols)
  = BPETokenizer.prunesymbols self corpus symbols.
Proof.
  unfold BPETokenizer.prunesymbols.
  induction symbols as [|s symbols IH]; [done|].
  rewrite filter_cons. case_decide as Hs.
  - rewrite filter_cons. rewrite decide_True by done. by rewrite IH.
  - done.
Qed.

Lemma prunesymbols_same_length corpus symbols :
  length (BPETokenizer.prunesymbols self corpus symbols) = length symbols →
  BPETokenizer.prunesymbols self corpus symbols = symbols.
Proof.
  unfold BPETokenizer.prunesymbols.
  induction symbols as [|s symbols IH]; [done|].
  rewrite filter_cons. case_decide as Hs; simpl.
  - intros [= Hlen]. by rewrite IH.
  - intros Hlen. pose proof (length_filter
      (λ symbol, length symbol = 1
         ∨ (BPETokenizer.minfreq self
            ≤ PyDict.get0
                (foldl (λ d symbol, PyDict.add symbol 1%Z d) []
                   (concat (LinkedList.values <$> corpus))) symbol)%Z) symbols).
    lia.
Qed.

(** What a stretch of training does to the Symbol Set: nothing is lost
    but what pruning may remove, duplicates do not appear, and the size
    stays within any bound that is at least [numsymbols] and that held
    before. *)
Record symbols_step symbols symbols' : Prop := {
  step_chars : ∀ s, s ∈ symbols → length s = 1 → s ∈ symbols';
  step_NoDup : NoDup symbols → NoDup symbols';
  step_size : ∀ N, (BPETokenizer.numsymbols self ≤ N)%Z →
                   (len symbols ≤ N)%Z → (len symbols' ≤ N)%Z
}.

Lemma symbols_step_refl symbols : symbols_step symbols symbols.
Proof. by split. Qed.

Lemma symbols_step_trans (s1 s2 s3 : list symbol) :
  symbols_step s1 s2 → symbols_step s2 s3 → symbols_step s1 s3.
Proof.
  intros [H1 H2 H3] [H1' H2' H3']. split.
  - intros s Hs Hlen. apply H1'; [|done]. by apply H1.
  - auto.
  - intros N HN Hs. apply H3'; [done|]. by apply H3.
Qed.

Lemma symbols_step_prune corpus symbols :
  symbols_step symbols (BPETokenizer.prunesymbols self corpus symbols).
Proof.
  split.
  - intros s. apply prunesymbols_keeps_chars.
  - apply prunesymbols_NoDup.
  - intros N _ Hs. pose proof (prunesymbols_length corpus symbols).
    unfold len in *. lia.
Qed.

Lemma symbols_step_add symbols s :
  (len symbols < BPETokenizer.numsymbols self)%Z →
  symbols_step symbols (PySet.add s symbols).
Proof.
  intros Hlt. split.
  - intros s' Hs' _. apply pyset_elem_of_add. by right.
  - apply pyset_NoDup_add.
  - intros N HN _. pose proof (pyset_length_add s symbols). unfold len in *. lia.
Qed.

Lemma mergingrun_loop_symbols fuel :
  ∀ corpus freqs symbols,
    symbols_step symbols
      (BPETokenizer.mergingrun_loop wordchar fuel self corpus freqs symbols).2.
Proof.
  induction fuel as [|fuel IH]; intros corpus freqs symbols.
  - destruct (merge_target freqs symbols) as [[L R]|] eqn:Ht.
    + rewrite (mergingrun_loop_no_fuel _ _ _ L R) by done. apply symbols_step_refl.
    + rewrite mergingrun_loop_halt by done. apply symbols_step_refl.
  - destruct (merge_target freqs symbols) as [[L R]|] eqn:Ht.
    + rewrite (mergingrun_loop_merge _ _ _ _ L R) by done.
      pose proof (mergesymbols_symbols corpus symbols freqs L R) as Hs.
      assert (symbols_step symbols (PySet.add (L ++ R) symbols)) as Hstep.
      { apply symbols_step_add. unfold merge_target in Ht.
        destruct (len symbols <? _)%Z eqn:Hlt; [|done]. by apply Z.ltb_lt. }
      destruct (BPETokenizer.mergesymbols wordchar self corpus symbols freqs L R)
        as [[[c1 f1]|e|] s1]; simpl in Hs; subst s1; [|done..].
      eapply symbols_step_trans; [exact Hstep|apply IH].
    + rewrite mergingrun_loop_halt by done. apply symbols_step_refl.
Qed.

Lemma fit_loop_symbols fuel :
  ∀ corpus freqs symbols,
    symbols_step symbols
      (BPETokenizer.fit_loop wordchar fuel self corpus freqs symbols).2.
Proof.
  induction fuel as [|fuel IH]; intros corpus freqs symbols; simpl;
    pose proof (mergingrun_loop_symbols (BPETokenizer.budget corpus freqs)
                  corpus freqs symbols) as Hrun;
    unfold BPETokenizer.mergingrun;
    destruct (BPETokenizer.mergingrun_loop _ _ _ _ _ _)
      as [[[c1 f1]|e|] s1]; simpl in Hrun; try done;
    pose proof (symbols_step_prune c1 s1) as Hprune;
    destruct (len s1 =? _)%Z; simpl;
    eauto using symbols_step_trans.
Qed.

(** The [while not finished] loop ends: a turn that goes on has pruned a
    symbol, hence merged a pair, hence lowered the budget. *)
Lemma fit_loop_fuel fuel :
  ∀ corpus freqs symbols,
    BPETokenizer.budget corpus freqs ≤ fuel →
    BPETokenizer.prunesymbols self corpus symbols = symbols →
    (BPETokenizer.fit_loop wordchar fuel self corpus freqs symbols).1 ≠ OutOfFuel.
Proof.
  induction fuel as [|fuel IH]; intros corpus freqs symbols Hb Hstable; simpl;
    pose proof (mergingrun_loop_fuel (BPETokenizer.budget corpus freqs)
                  corpus freqs symbols (le_n _)) as Hfuel;
    pose proof (mergingrun_loop_progress (BPETokenizer.budget corpus freqs)
                  corpus freqs symbols) as Hprog;
    unfold BPETokenizer.mergingrun;
    destruct (BPETokenizer.mergingrun_loop _ _ _ _ _ _)
      as [[[c1 f1]|e|] s1]; simpl in Hfuel; try done;
    destruct (len s1 =? _)%Z eqn:Hlen; simpl; try done;
    apply Z.eqb_neq in Hlen;
    destruct (Hprog c1 f1 s1 eq_refl) as [(-> & -> & ->)|Hlt].
  - rewrite Hstable in Hlen. done.
  - lia.
  - rewrite Hstable in Hlen. done.
  - apply IH; [lia|]. apply prunesymbols_idemp.
Qed.

(** *** The states of [fit] between merge steps *)

Definition initial_corpus (docs : list (list char)) : list (list symbol) :=
  (λ text : list char, LinkedList.of_list ((λ c, [c]) <$> text)) <$> docs.

Definition initial_symbols (docs : list (list char)) : list symbol :=
  PySet.of_list (concat (LinkedList.values <$> initial_corpus docs)).

(** The corpus, the table and the Symbol Set as [fit] has them after the
    initial pass and after each merge step, with a pruning pass at any of
    these points. *)
Inductive fit_state (docs : list (list char))
  : list (list symbol) → list (pair * Z) → list symbol → Prop :=
| fit_state_init :
    fit_state docs (initial_corpus docs)
      (BPETokenizer.pairfreqs wordchar self (initial_corpus docs))
      (initial_symbols docs)
| fit_state_merge corpus freqs symbols L R corpus' freqs' symbols' :
    fit_state docs corpus freqs symbols →
    merge_target freqs symbols = Some (L, R) →
    BPETokenizer.mergesymbols wordchar self corpus symbols freqs L R
    = (Ok (corpus', freqs'), symbols') →
    fit_state docs corpus' freqs' symbols'
| fit_state_prune corpus freqs symbols :
    fit_state docs corpus freqs symbols →
    fit_state docs corpus freqs (BPETokenizer.prunesymbols self corpus symbols).

Lemma mergingrun_loop_fit_state docs fuel :
  ∀ corpus freqs symbols corpus' freqs' symbols',
    fit_state docs corpus freqs symbols →
    BPETokenizer.mergingrun_loop wordchar fuel self corpus freqs symbols
    = (Ok (corpus', freqs'), symbols') →
    fit_state docs corpus' freqs' symbols'.
Proof.
  induction fuel as [|fuel IH];
    intros corpus freqs symbols corpus' freqs' symbols' Hst.
  - destruct (merge_target freqs symbols) as [[L R]|] eqn:Ht.
    + by rewrite (mergingrun_loop_no_fuel _ _ _ L R).
    + rewrite mergingrun_loop_halt by done.
      destruct (halt freqs symbols); [|done..]. by intros [= <- <- <-].
  - destruct (merge_target freqs symbols) as [[L R]|] eqn:Ht.
    + rewrite (mergingrun_loop_merge _ _ _ _ L R) by done.
      destruct (BPETokenizer.mergesymbols wordchar self corpus symbols freqs L R)
        as [[[c1 f1]|e|] s1] eqn:Hms; [|done..].
      apply IH. by eapply fit_state_merge.
    + rewrite mergingrun_loop_halt by done.
      destruct (halt freqs symbols); [|done..]. by intros [= <- <- <-].
Qed.

Lemma initial_corpus_nonempty docs doc s :
  doc ∈ initial_corpus docs → s ∈ doc → s ≠ [].
Proof.
  unfold initial_corpus, LinkedList.of_list.
  intros (d & -> & _)%list_elem_of_fmap (c & -> & _)%list_elem_of_fmap. done.
Qed.

Lemma fit_state_inv docs corpus freqs symbols :
  fit_state docs corpus freqs symbols → table_inv corpus freqs.
Proof.
  induction 1 as [|corpus freqs symbols L R corpus' freqs' symbols' _ IH Ht Hms|].
  - apply pairfreqs_inv. apply initial_corpus_nonempty.
  - apply merge_target_spec in Ht as (_ & Hk & _); [|by apply IH].
    destruct (mergesymbols_inv corpus symbols freqs L R IH Hk) as (f & Hms' & Hinv).
    rewrite Hms in Hms'. by injection Hms' as -> -> _.
  - done.
Qed.

(** *** [fit] as a whole *)

Lemma initial_symbols_char docs (text : list char) c :
  text ∈ docs → c ∈ text → [c] ∈ initial_symbols docs.
Proof.
  intros Htext Hc. unfold initial_symbols, PySet.of_list.
  apply elem_of_remove_dups, elem_of_concat.
  exists ((λ c, [c]) <$> text). split.
  - apply list_elem_of_fmap. by exists c.
  - unfold LinkedList.values, initial_corpus, LinkedList.of_list.
    apply list_elem_of_fmap. eexists. split; [done|].
    apply list_elem_of_fmap. by exists text.
Qed.

Lemma initial_symbols_length docs s : s ∈ initial_symbols docs → length s = 1.
Proof.
  unfold initial_symbols, PySet.of_list.
  intros (doc & Hs & Hdoc)%elem_of_remove_dups%elem_of_concat.
  unfold LinkedList.values in Hdoc.
  apply list_elem_of_fmap in Hdoc as (doc' & -> & Hdoc').
  apply initial_corpus_nonempty with (s := s) in Hdoc' as Hne; [|done].
  unfold initial_corpus, LinkedList.of_list in Hdoc'.
  apply list_elem_of_fmap in Hdoc' as (text & -> & _).
  by apply list_elem_of_fmap in Hs as (c & -> & _).
Qed.

Lemma initial_symbols_NoDup docs : NoDup (initial_symbols docs).
Proof. apply NoDup_remove_dups. Qed.

Lemma prunesymbols_chars corpus symbols :
  (∀ s, s ∈ symbols → length s = 1) →
  BPETokenizer.prunesymbols self corpus symbols = symbols.
Proof.
  intros Hlen. apply prunesymbols_same_length.
  unfold BPETokenizer.prunesymbols.
  induction symbols as [|s symbols IH]; [done|].
  rewrite filter_cons, decide_True.
  - simpl. f_equal. apply IH. intros s' Hs'. apply Hlen. by right.
  - left. apply Hlen. left.
Qed.

(** What [fit] leaves, however it ends: the Symbol Set reached from the
    characters of the corpus; never out of fuel; on success the matcher
    compiled from that Symbol Set; the configuration untouched. *)
Lemma bpe_fit_spec docs :
  ∃ syms,
    SubwordTokenizer.symbols
      (BPETokenizer.base (BPETokenizer.fit wordchar self docs).2) = Some syms
    ∧ symbols_step (initial_symbols docs) syms
    ∧ (BPETokenizer.fit wordchar self docs).1 ≠ OutOfFuel
    ∧ ((BPETokenizer.fit wordchar self docs).1 = Ok tt →
       fitted (BPETokenizer.base (BPETokenizer.fit wordchar self docs).2) syms)
    ∧ BPETokenizer.numsymbols (BPETokenizer.fit wordchar self docs).2
      = BPETokenizer.numsymbols self.
Proof.
  unfold BPETokenizer.fit.
  fold (initial_corpus docs). fold (initial_symbols docs).
  set (corpus := initial_corpus docs).
  set (freqs := BPETokenizer.pairfreqs wordchar self corpus).
  pose proof (fit_loop_symbols (BPETokenizer.budget corpus freqs) corpus freqs
                (initial_symbols docs)) as Hstep.
  pose proof (fit_loop_fuel (BPETokenizer.budget corpus freqs) corpus freqs
                (initial_symbols docs) (le_n _)
                (prunesymbols_chars _ _ (initial_symbols_length docs))) as Hfuel.
  destruct (BPETokenizer.fit_loop wordchar _ self corpus freqs _)
    as [[[]|e|] syms]; simpl in *; [| |done];
    exists syms; split_and!; done.
Qed.

End bpe_facts.

(** ** Training the word and list tokenizers *)

Section other_fits.
Context {char : Type} `{!EqDecision char}.
Variable wordchar : char → bool.

Lemma slice_to_length {A} (l : list A) (k : Z) :
  (0 ≤ k)%Z → (len (slice_to l k) ≤ k)%Z.
Proof.
  intros Hk. unfold slice_to, len.
  destruct (k <? 0)%Z eqn:Hneg; [apply Z.ltb_lt in Hneg; lia|].
  rewrite length_take. lia.
Qed.

Lemma word_fit_spec (self : WordTokenizer.t char) docs :
  ∃ syms,
    (WordTokenizer.fit wordchar self docs).1 = Ok tt
    ∧ WordTokenizer.symbols (WordTokenizer.fit wordchar self docs).2 = Some syms
    ∧ WordTokenizer.numsymbols (WordTokenizer.fit wordchar self docs).2
      = WordTokenizer.numsymbols self
    ∧ NoDup syms
    ∧ (∀ s, s ∈ PySet.of_list (WordTokenizer.chars docs) → s ∈ syms)
    ∧ ((len (PySet.of_list (WordTokenizer.chars docs))
        ≤ WordTokenizer.numsymbols self)%Z →
       (len syms ≤ WordTokenizer.numsymbols self)%Z).
Proof.
  unfold WordTokenizer.fit. simpl. eexists. split_and!; try done.
  - apply pyset_NoDup_update, NoDup_remove_dups.
  - intros s Hs. apply pyset_elem_of_update. by left.
  - intros Hle.
    match goal with
    | |- (len (PySet.update ?s (slice_to ?l ?k)) ≤ _)%Z =>
        pose proof (pyset_length_update s (slice_to l k));
        pose proof (slice_to_length l k)
    end.
    unfold len in *. lia.
Qed.

Lemma word_chars_elem_of docs (text : list char) c :
  text ∈ docs → c ∈ text → [c] ∈ PySet.of_list (WordTokenizer.chars docs).
Proof.
  intros Htext Hc. unfold PySet.of_list, WordTokenizer.chars.
  apply elem_of_remove_dups, list_elem_of_fmap. exists c. split; [done|].
  apply elem_of_concat. by exists text.
Qed.

Lemma subwordslist_fit_spec (self : SubwordsListTokenizer.t char) docs :
  ∃ syms,
    (SubwordsListTokenizer.fit self docs).1 = Ok tt
    ∧ fitted (SubwordsListTokenizer.base (SubwordsListTokenizer.fit self docs).2)
        syms
    ∧ (∀ (text : list char) c, text ∈ docs → c ∈ text → [c] ∈ syms)
    ∧ (∀ s, s ∈ SubwordsListTokenizer.subwords self → s ∈ syms).
Proof.
  unfold SubwordsListTokenizer.fit. simpl. eexists. split_and!; try done.
  - intros text c Htext Hc. apply pyset_elem_of_update. left.
    apply elem_of_remove_dups, list_elem_of_fmap. exists c. split; [done|].
    apply elem_of_concat. by exists text.
  - intros s Hs. apply pyset_elem_of_update. by right.
Qed.

End other_fits.

(** ** Equality of tokenizers *)

Inductive family : Type := CharFamily | WordFamily | SubwordFamily.

(** The class whose [__eq__] a tokenizer has, and against which that
    [__eq__] tests the other side *)
Definition family_of {char} (x : tokenizer char) : family :=
  match x with
  | Char => CharFamily
  | Word _ => WordFamily
  | Subword _ | BPE _ | SubwordsList _ => SubwordFamily
  end.

(** * The claims *)

(** The worked corpus of the specification and the configuration of its
    scenario *)
Definition worked_docs : list (list ascii) := [str "aaabdaaabac"].
Definition worked_bpe : BPETokenizer.t ascii := BPETokenizer.init 4096 2 false.

(** C1. During [BPETokenizer.fit], at every point between merge steps, the
    pair frequency table holds at each pair eligible under [validpair] the
    number of adjacent occurrences of that pair across the corpus, and has
    no entry for a pair that is not eligible, whatever the configuration;
    and, [minfreq] being a positive integer as the configuration requires,
    a pair that [mergingrun] selects as the pair to merge has a positive
    count and occurs in the corpus. *)
Theorem C1_pair_table_exact {char : Type} `{!EqDecision char}
    (wordchar : char → bool) (self : BPETokenizer.t char)
    (docs : list (list char)) corpus freqs symbols :
  fit_state wordchar self docs corpus freqs symbols →
  (∀ a b, BPETokenizer.validpair wordchar self a b = true →
          PyDict.get0 freqs (a, b) = occurrences (a, b) corpus)
  ∧ (∀ a b, BPETokenizer.validpair wordchar self a b = false →
            (a, b) ∉ PyDict.keys freqs)
  ∧ ((0 < BPETokenizer.minfreq self)%Z →
     ∀ L R, merge_target self freqs symbols = Some (L, R) →
            (0 < PyDict.get0 freqs (L, R))%Z
            ∧ (0 < occurrences (L, R) corpus)%Z
            ∧ ∃ doc, doc ∈ corpus ∧ (L, R) ∈ adjacent doc).
Proof.
  intros Hst. pose proof (fit_state_inv _ _ _ _ _ _ Hst) as Hinv.
  split_and!.
  - apply (inv_exact _ _ _ _ Hinv).
  - intros a b Hv. by apply (table_inv_ineligible _ _ _ _ _ _ Hinv).
  - intros Hmin L R Ht.
    apply merge_target_spec in Ht as (_ & Hk & _ & Hge);
      [|apply (inv_NoDup _ _ _ _ Hinv)].
    destruct (inv_keys _ _ _ _ Hinv _ _ Hk) as (Hv & _).
    pose proof (inv_exact _ _ _ _ Hinv _ _ Hv) as He.
    assert (0 < occurrences (L, R) corpus)%Z as Hpos by lia.
    split_and!; [lia|done|]. by apply occurrences_pos.
Qed.

(** The state of the worked scenario after its first merge *)
Lemma worked_first_merge :
  fit_state ascii_wordchar worked_bpe worked_docs
    [[str "aa"; str "a"; str "b"; str "d"; str "aa"; str "a"; str "b";
      str "a"; str "c"]]
    [((str "a", str "b"), 2%Z); ((str "b", str "d"), 1%Z);
     ((str "d", str "a"), 0%Z); ((str "b", str "a"), 1%Z);
     ((str "a", str "c"), 1%Z); ((str "aa", str "a"), 2%Z);
     ((str "d", str "aa"), 1%Z)]
    [str "d"; str "b"; str "a"; str "c"; str "aa"].
Proof.
  eapply (fit_state_merge _ _ _ _ _ _ (str "a") (str "a")).
  - apply fit_state_init.
  - vm_compute. reflexivity.
  - vm_compute. reflexivity.
Defined.

Lemma C1_witness :
  (∀ a b, BPETokenizer.validpair ascii_wordchar worked_bpe a b = true →
          PyDict.get0
            [((str "a", str "b"), 2%Z); ((str "b", str "d"), 1%Z);
             ((str "d", str "a"), 0%Z); ((str "b", str "a"), 1%Z);
             ((str "a", str "c"), 1%Z); ((str "aa", str "a"), 2%Z);
             ((str "d", str "aa"), 1%Z)] (a, b)
          = occurrences (a, b)
              [[str "aa"; str "a"; str "b"; str "d"; str "aa"; str "a";
                str "b"; str "a"; str "c"]])
  ∧ (∀ a b, BPETokenizer.validpair ascii_wordchar worked_bpe a b = false →
            (a, b) ∉ PyDict.keys
              [((str "a", str "b"), 2%Z); ((str "b", str "d"), 1%Z);
               ((str "d", str "a"), 0%Z); ((str "b", str "a"), 1%Z);
               ((str "a", str "c"), 1%Z); ((str "aa", str "a"), 2%Z);
               ((str "d", str "aa"), 1%Z)])
  ∧ ((0 < BPETokenizer.minfreq worked_bpe)%Z →
     ∀ L R, merge_target worked_bpe
              [((str "a", str "b"), 2%Z); ((str "b", str "d"), 1%Z);
               ((str "d", str "a"), 0%Z); ((str "b", str "a"), 1%Z);
               ((str "a", str "c"), 1%Z); ((str "aa", str "a"), 2%Z);
               ((str "d", str "aa"), 1%Z)]
              [str "d"; str "b"; str "a"; str "c"; str "aa"] = Some (L, R) →
            (0 < PyDict.get0
                   [((str "a", str "b"), 2%Z); ((str "b", str "d"), 1%Z);
                    ((str "d", str "a"), 0%Z); ((str "b", str "a"), 1%Z);
                    ((str "a", str "c"), 1%Z); ((str "aa", str "a"), 2%Z);
                    ((str "d", str "aa"), 1%Z)] (L, R))%Z
            ∧ (0 < occurrences (L, R)
                     [[str "aa"; str "a"; str "b"; str "d"; str "aa"; str "a";
                       str "b"; str "a"; str "c"]])%Z
            ∧ ∃ doc, doc ∈ [[str "aa"; str "a"; str "b"; str "d"; str "aa";
                             str "a"; str "b"; str "a"; str "c"]]
                     ∧ (L, R) ∈ adjacent doc).
Proof.
  apply (C1_pair_table_exact ascii_wordchar worked_bpe worked_docs).
  exact worked_first_merge.
Defined.

(** C2. In every turn of the loop of [BPETokenizer.mergingrun] the pair
    chosen for merging is a key of the table whose count no other key
    exceeds, and a maximal count below [minfreq] ends the run with nothing
    merged; on the corpus ["aaabdaaabac"] with [minfreq = 2] and the budget
    of 4096 symbols the first merge is that of ("a", "a"), whose count 4 is
    above the count of every other pair. *)
Theorem C2_merge_selects_maximum :
  (∀ (char : Type) (Heq : EqDecision char) (wordchar : char → bool)
     (self : BPETokenizer.t char) corpus freqs symbols,
      NoDup (PyDict.keys freqs) →
      (∀ L R, merge_target self freqs symbols = Some (L, R) →
              (L, R) ∈ PyDict.keys freqs
              ∧ (∀ k, k ∈ PyDict.keys freqs →
                      (PyDict.get0 freqs k ≤ PyDict.get0 freqs (L, R))%Z)
              ∧ ∀ fuel,
                  BPETokenizer.mergingrun_loop wordchar (S fuel) self
                    corpus freqs symbols
                  = match BPETokenizer.mergesymbols wordchar self corpus
                            symbols freqs L R with
                    | (Ok (corpus', freqs'), symbols') =>
                        BPETokenizer.mergingrun_loop wordchar fuel self
                          corpus' freqs' symbols'
                    | (Raise e, symbols') => (Raise e, symbols')
                    | (OutOfFuel, symbols') => (OutOfFuel, symbols')
                    end)
      ∧ (∀ L R, fst <$> PyDict.argmax freqs = Some (L, R) →
                (PyDict.get0 freqs (L, R) < BPETokenizer.minfreq self)%Z →
                merge_target self freqs symbols = None
                ∧ ∀ fuel,
                    BPETokenizer.mergingrun_loop wordchar fuel self
                      corpus freqs symbols
                    = (Ok (corpus, freqs), symbols)))
  ∧ (let corpus := initial_corpus worked_docs in
     let freqs := BPETokenizer.pairfreqs ascii_wordchar worked_bpe corpus in
     merge_target worked_bpe freqs (initial_symbols worked_docs)
     = Some (str "a", str "a")
     ∧ PyDict.get0 freqs (str "a", str "a") = 4%Z
     ∧ (∀ k, k ≠ (str "a", str "a") → (PyDict.get0 freqs k < 4)%Z)
     ∧ (BPETokenizer.mergesymbols ascii_wordchar worked_bpe corpus
          (initial_symbols worked_docs) freqs (str "a") (str "a")).2
       = [str "d"; str "b"; str "a"; str "c"; str "aa"]).
Proof.
  split.
  - intros char Heq wordchar self corpus freqs symbols Hnd. split.
    + intros L R Ht.
      destruct (merge_target_spec self freqs symbols L R Hnd Ht)
        as (_ & Hk & Hmax & _).
      split_and!; [done..|]. intros fuel. by apply mergingrun_loop_merge.
    + intros L R Hmax Hlt. split.
      * unfold merge_target. destruct (len symbols <? _)%Z; [|done].
        rewrite Hmax. apply Z.ltb_lt in Hlt. by rewrite Hlt.
      * intros fuel. by eapply mergingrun_loop_below_minfreq.
  - cbv zeta. split_and!.
    + vm_compute. reflexivity.
    + vm_compute. reflexivity.
    + intros k Hk.
      replace (BPETokenizer.pairfreqs ascii_wordchar worked_bpe
                 (initial_corpus worked_docs))
        with [((str "a", str "a"), 4%Z); ((str "a", str "b"), 2%Z);
              ((str "b", str "d"), 1%Z); ((str "d", str "a"), 1%Z);
              ((str "b", str "a"), 1%Z); ((str "a", str "c"), 1%Z)]
        by (vm_compute; reflexivity).
      unfold PyDict.get0. simpl.
      repeat (case_decide; [try done; simpl; lia|]). simpl. lia.
    + vm_compute. reflexivity.
Qed.

Lemma C2_witness :
  (∀ L R, merge_target worked_bpe
            [((str "a", str "b"), 2%Z); ((str "aa", str "a"), 2%Z)]
            [str "a"; str "b"; str "aa"] = Some (L, R) →
          (L, R) ∈ PyDict.keys
                     [((str "a", str "b"), 2%Z); ((str "aa", str "a"), 2%Z)]
          ∧ (∀ k, k ∈ PyDict.keys
                        [((str "a", str "b"), 2%Z); ((str "aa", str "a"), 2%Z)] →
                  (PyDict.get0
                     [((str "a", str "b"), 2%Z); ((str "aa", str "a"), 2%Z)] k
                   ≤ PyDict.get0
                       [((str "a", str "b"), 2%Z); ((str "aa", str "a"), 2%Z)]
                       (L, R))%Z)
          ∧ ∀ fuel,
              BPETokenizer.mergingrun_loop ascii_wordchar (S fuel) worked_bpe
                [[str "aa"; str "a"; str "b"]]
                [((str "a", str "b"), 2%Z); ((str "aa", str "a"), 2%Z)]
                [str "a"; str "b"; str "aa"]
              = match BPETokenizer.mergesymbols ascii_wordchar worked_bpe
                        [[str "aa"; str "a"; str "b"]]
                        [str "a"; str "b"; str "aa"]
                        [((str "a", str "b"), 2%Z); ((str "aa", str "a"), 2%Z)]
                        L R with
                | (Ok (corpus', freqs'), symbols') =>
                    BPETokenizer.mergingrun_loop ascii_wordchar fuel worked_bpe
                      corpus' freqs' symbols'
                | (Raise e, symbols') => (Raise e, symbols')
                | (OutOfFuel, symbols') => (OutOfFuel, symbols')
                end)
  ∧ (∀ L R, fst <$> PyDict.argmax
                      [((str "a", str "b"), 2%Z); ((str "aa", str "a"), 2%Z)]
            = Some (L, R) →
            (PyDict.get0
               [((str "a", str "b"), 2%Z); ((str "aa", str "a"), 2%Z)] (L, R)
             < BPETokenizer.minfreq worked_bpe)%Z →
            merge_target worked_bpe
              [((str "a", str "b"), 2%Z); ((str "aa", str "a"), 2%Z)]
              [str "a"; str "b"; str "aa"] = None
            ∧ ∀ fuel,
                BPETokenizer.mergingrun_loop ascii_wordchar fuel worked_bpe
                  [[str "aa"; str "a"; str "b"]]
                  [((str "a", str "b"), 2%Z); ((str "aa", str "a"), 2%Z)]
                  [str "a"; str "b"; str "aa"]
                = (Ok ([[str "aa"; str "a"; str "b"]],
                       [((str "a", str "b"), 2%Z); ((str "aa", str "a"), 2%Z)]),
                   [str "a"; str "b"; str "aa"])).
Proof.
  apply (proj1 C2_merge_selects_maximum ascii _ ascii_wordchar worked_bpe
           [[str "aa"; str "a"; str "b"]]
           [((str "a", str "b"), 2%Z); ((str "aa", str "a"), 2%Z)]
           [str "a"; str "b"; str "aa"]).
  vm_compute. apply (bool_decide_unpack _). vm_compute. reflexivity.
Defined.

(** Where symbols exist and none starts the rest of the text, [transform]
    ends in the [TypeError] of [len(None)], whatever it matched before. *)
Lemma transform_no_match_raises {char : Type} `{!EqDecision char}
    (self : SubwordTokenizer.t char) regex fuel (rest : list char) acc :
  effective_detector self = Some regex →
  rest ≠ [] → Re.match_ regex rest = None →
  (SubwordTokenizer.transform_loop (S fuel) self rest acc).1 = Raise TypeError.
Proof.
  intros Heff Hne Hm. rewrite (transform_loop_segment _ regex) by done.
  by apply segment_no_match.
Qed.

(** C3. The claim is that [transform] drops a character at which no symbol
    of the vocabulary matches and goes on. The code does not: on the
    tokenizer trained on ["aaabdaaabac"], the text "abxa" has no symbol at
    "x", [bestmatch] returns [None] there, and [transform] ends in the
    [TypeError] of [len(None)] with no tokens returned; the same text without
    the "x" is tokenized. *)
Theorem C3_unmatched_character_raises :
  let trained := (BPETokenizer.fit ascii_wordchar worked_bpe worked_docs).2 in
  (BPETokenizer.fit ascii_wordchar worked_bpe worked_docs).1 = Ok tt
  ∧ (SubwordTokenizer.bestmatch (BPETokenizer.base trained) (str "xa")).1
    = Ok None
  ∧ (BPETokenizer.transform trained (str "abxa")).1 = Raise TypeError
  ∧ (BPETokenizer.transform trained (str "aba")).1
    = Ok [str "a"; str "b"; str "a"].
Proof. cbv zeta. split_and!; vm_compute; reflexivity. Qed.

(** C4. For a subword tokenizer trained by [fit] on a corpus and a text all
    of whose characters occur in some document of the corpus, the tokens
    that [transform] returns, concatenated in order, are the text. *)
Theorem C4_transform_roundtrip {char : Type} `{!EqDecision char}
    (wordchar : char → bool) (docs : list (list char)) (text : list char) :
  (∀ c, c ∈ text → ∃ doc, doc ∈ docs ∧ c ∈ doc) →
  (∀ self : BPETokenizer.t char,
      (BPETokenizer.fit wordchar self docs).1 = Ok tt →
      ∃ tokens,
        (BPETokenizer.transform (BPETokenizer.fit wordchar self docs).2 text).1
        = Ok tokens
        ∧ concat tokens = text)
  ∧ (∀ self : SubwordsListTokenizer.t char,
        (SubwordsListTokenizer.fit self docs).1 = Ok tt
        ∧ ∃ tokens,
            (SubwordsListTokenizer.transform
               (SubwordsListTokenizer.fit self docs).2 text).1 = Ok tokens
            ∧ concat tokens = text).
Proof.
  intros Hchars. split.
  - intros self Hok.
    destruct (bpe_fit_spec wordchar self docs) as (syms & _ & Hstep & _ & Hfit & _).
    specialize (Hfit Hok).
    destruct (transform_roundtrip _ syms text Hfit) as (tokens & Ht & Hcat).
    + intros c (doc & Hdoc & Hc)%Hchars.
      apply (step_chars _ _ _ Hstep); [|done].
      by eapply initial_symbols_char.
    + exists tokens. split; [|done]. unfold BPETokenizer.transform.
      by destruct (SubwordTokenizer.transform _ text).
  - intros self.
    destruct (subwordslist_fit_spec self docs) as (syms & Hok & Hfit & Hin & _).
    split; [done|].
    destruct (transform_roundtrip _ syms text Hfit) as (tokens & Ht & Hcat).
    + intros c (doc & Hdoc & Hc)%Hchars. by eapply Hin.
    + exists tokens. split; [|done]. unfold SubwordsListTokenizer.transform.
      by destruct (SubwordTokenizer.transform _ text).
Qed.

Lemma C4_witness :
  (∀ self : BPETokenizer.t ascii,
      (BPETokenizer.fit ascii_wordchar self worked_docs).1 = Ok tt →
      ∃ tokens,
        (BPETokenizer.transform
           (BPETokenizer.fit ascii_wordchar self worked_docs).2
           (str "dabca")).1 = Ok tokens
        ∧ concat tokens = str "dabca")
  ∧ (∀ self : SubwordsListTokenizer.t ascii,
        (SubwordsListTokenizer.fit self worked_docs).1 = Ok tt
        ∧ ∃ tokens,
            (SubwordsListTokenizer.transform
               (SubwordsListTokenizer.fit self worked_docs).2
               (str "dabca")).1 = Ok tokens
            ∧ concat tokens = str "dabca").
Proof.
  apply (C4_transform_roundtrip ascii_wordchar worked_docs (str "dabca")).
  intros c Hc. exists (str "aaabdaaabac"). split; [left|].
  revert c Hc. apply Forall_forall.
  apply (bool_decide_unpack _). vm_compute. reflexivity.
Defined.

(** C5. After [fit], every character of every document of the corpus is a
    member of the Symbol Set, for the word tokenizer, the BPE tokenizer
    (however its [fit] ends) and the list tokenizer; and a pruning pass of
    BPE training removes no symbol of one character. *)
Theorem C5_characters_in_symbol_set {char : Type} `{!EqDecision char}
    (wordchar : char → bool) (docs : list (list char))
    (doc : list char) (c : char) :
  doc ∈ docs → c ∈ doc →
  (∀ self : WordTokenizer.t char,
      ∃ syms,
        WordTokenizer.symbols (WordTokenizer.fit wordchar self docs).2
        = Some syms ∧ [c] ∈ syms)
  ∧ (∀ self : BPETokenizer.t char,
        ∃ syms,
          SubwordTokenizer.symbols
            (BPETokenizer.base (BPETokenizer.fit wordchar self docs).2)
          = Some syms ∧ [c] ∈ syms)
  ∧ (∀ self : SubwordsListTokenizer.t char,
        ∃ syms,
          SubwordTokenizer.symbols
            (SubwordsListTokenizer.base (SubwordsListTokenizer.fit self docs).2)
          = Some syms ∧ [c] ∈ syms)
  ∧ (∀ (self : BPETokenizer.t char) corpus symbols s,
        s ∈ symbols → length s = 1 →
        s ∈ BPETokenizer.prunesymbols self corpus symbols).
Proof.
  intros Hdoc Hc. split_and!.
  - intros self.
    destruct (word_fit_spec wordchar self docs) as (syms & _ & Hs & _ & _ & Hin & _).
    exists syms. split; [done|]. apply Hin. by eapply word_chars_elem_of.
  - intros self.
    destruct (bpe_fit_spec wordchar self docs) as (syms & Hs & Hstep & _).
    exists syms. split; [done|].
    apply (step_chars _ _ _ Hstep); [|done]. by eapply initial_symbols_char.
  - intros self.
    destruct (subwordslist_fit_spec self docs) as (syms & _ & [Hs _] & Hin & _).
    exists syms. split; [done|]. by eapply Hin.
  - intros self corpus symbols s. apply prunesymbols_keeps_chars.
Qed.

Lemma C5_witness :
  (∀ self : WordTokenizer.t ascii,
      ∃ syms,
        WordTokenizer.symbols
          (WordTokenizer.fit ascii_wordchar self worked_docs).2
        = Some syms ∧ str "d" ∈ syms)
  ∧ (∀ self : BPETokenizer.t ascii,
        ∃ syms,
          SubwordTokenizer.symbols
            (BPETokenizer.base
               (BPETokenizer.fit ascii_wordchar self worked_docs).2)
          = Some syms ∧ str "d" ∈ syms)
  ∧ (∀ self : SubwordsListTokenizer.t ascii,
        ∃ syms,
          SubwordTokenizer.symbols
            (SubwordsListTokenizer.base
               (SubwordsListTokenizer.fit self worked_docs).2)
          = Some syms ∧ str "d" ∈ syms)
  ∧ (∀ (self : BPETokenizer.t ascii) corpus symbols s,
        s ∈ symbols → length s = 1 →
        s ∈ BPETokenizer.prunesymbols self corpus symbols).
Proof.
  apply (C5_characters_in_symbol_set ascii_wordchar worked_docs
           (str "aaabdaaabac") "d"%char).
  - left.
  - apply (bool_decide_unpack _). vm_compute. reflexivity.
Defined.

Lemma initial_symbols_chars {char : Type} `{!EqDecision char}
    (docs : list (list char)) :
  initial_symbols docs = PySet.of_list (WordTokenizer.chars docs).
Proof.
  unfold initial_symbols, WordTokenizer.chars, initial_corpus.
  f_equal. induction docs as [|doc docs IH]; [done|].
  simpl. rewrite fmap_app. f_equal. exact IH.
Qed.

(** C6, as the code has it. When the corpus has at most [numsymbols]
    distinct characters, the Symbol Set after [fit] has at most [numsymbols]
    symbols, for the word tokenizer and for the BPE tokenizer (however its
    [fit] ends); the list that stands for the set has no duplicate, so its
    length is the number of symbols. *)
Theorem C6_symbol_budget {char : Type} `{!EqDecision char}
    (wordchar : char → bool) (docs : list (list char)) (N : Z) :
  (len (PySet.of_list (WordTokenizer.chars docs)) ≤ N)%Z →
  (∀ self : WordTokenizer.t char,
      WordTokenizer.numsymbols self = N →
      ∃ syms,
        WordTokenizer.symbols (WordTokenizer.fit wordchar self docs).2
        = Some syms
        ∧ NoDup syms ∧ (len syms ≤ N)%Z)
  ∧ (∀ self : BPETokenizer.t char,
        BPETokenizer.numsymbols self = N →
        ∃ syms,
          SubwordTokenizer.symbols
            (BPETokenizer.base (BPETokenizer.fit wordchar self docs).2)
          = Some syms
          ∧ NoDup syms ∧ (len syms ≤ N)%Z).
Proof.
  intros Hchars. split.
  - intros self HN.
    destruct (word_fit_spec wordchar self docs)
      as (syms & _ & Hs & _ & Hnd & _ & Hsize).
    exists syms. split_and!; [done..|]. rewrite <- HN. apply Hsize. by rewrite HN.
  - intros self HN.
    destruct (bpe_fit_spec wordchar self docs) as (syms & Hs & Hstep & _).
    exists syms. split_and!; [done| |].
    + apply (step_NoDup _ _ _ Hstep), initial_symbols_NoDup.
    + apply (step_size _ _ _ Hstep); [lia|]. by rewrite initial_symbols_chars.
Qed.

Lemma C6_witness :
  (∀ self : WordTokenizer.t ascii,
      WordTokenizer.numsymbols self = 4%Z →
      ∃ syms,
        WordTokenizer.symbols
          (WordTokenizer.fit ascii_wordchar self worked_docs).2 = Some syms
        ∧ NoDup syms ∧ (len syms ≤ 4)%Z)
  ∧ (∀ self : BPETokenizer.t ascii,
        BPETokenizer.numsymbols self = 4%Z →
        ∃ syms,
          SubwordTokenizer.symbols
            (BPETokenizer.base
               (BPETokenizer.fit ascii_wordchar self worked_docs).2)
          = Some syms
          ∧ NoDup syms ∧ (len syms ≤ 4)%Z).
Proof.
  apply (C6_symbol_budget ascii_wordchar worked_docs 4).
  vm_compute. discriminate.
Defined.

(** C6, as stated, fails: with [numsymbols = 1] and [minfreq = 1], both
    positive, the corpus ["ab"] leaves two symbols in the Symbol Set of the
    word tokenizer and of the BPE tokenizer. *)
Lemma C6_counterexample :
  ¬ (∀ syms,
       WordTokenizer.symbols
         (WordTokenizer.fit ascii_wordchar (WordTokenizer.init 1 1)
            [str "ab"]).2 = Some syms →
       (len syms ≤ 1)%Z)
  ∧ ¬ (∀ syms,
         SubwordTokenizer.symbols
           (BPETokenizer.base
              (BPETokenizer.fit ascii_wordchar (BPETokenizer.init 1 1 false)
                 [str "ab"]).2) = Some syms →
         (len syms ≤ 1)%Z)
  ∧ (BPETokenizer.fit ascii_wordchar (BPETokenizer.init 1 1 false)
       [str "ab"]).1 = Ok tt.
Proof.
  split_and!.
  - intros H. specialize (H [str "a"; str "b"]).
    assert (len [str "a"; str "b"] ≤ 1)%Z as Hle
      by (apply H; vm_compute; reflexivity).
    vm_compute in Hle. by apply Hle.
  - intros H. specialize (H [str "a"; str "b"]).
    assert (len [str "a"; str "b"] ≤ 1)%Z as Hle
      by (apply H; vm_compute; reflexivity).
    vm_compute in Hle. by apply Hle.
  - vm_compute. reflexivity.
Qed.

(** C7. The claim is that [BPETokenizer.fit] completes on the empty corpus
    with an empty Symbol Set. The code does not complete: with the default
    budget of 4096 symbols, whatever [minfreq] and [crosswords], the first
    turn of [mergingrun] takes [max] of an empty table and [fit] ends in
    [ValueError], leaving the empty Symbol Set and no matcher. The same
    happens on a corpus whose only document has one character. *)
Theorem C7_fit_empty_corpus_raises :
  (∀ (char : Type) (Heq : EqDecision char) (wordchar : char → bool)
     (minfreq : Z) (crosswords : bool),
      BPETokenizer.fit wordchar (BPETokenizer.init 4096 minfreq crosswords) []
      = (Raise ValueError,
         BPETokenizer.mk 4096 minfreq crosswords
           (SubwordTokenizer.mk (Some []) None)))
  ∧ (BPETokenizer.fit ascii_wordchar (BPETokenizer.init 4096 10 false)
       [str "a"]).1 = Raise ValueError.
Proof.
  split.
  - intros char Heq wordchar minfreq crosswords. reflexivity.
  - vm_compute. reflexivity.
Qed.

(** C8, as the code has it. On a subword tokenizer on which [fit] was never
    called, [transform] of a text of at least one character ends in the
    "not fitted" [ValueError] of [bestmatch]; [transform] of the empty text
    never calls [bestmatch] and returns the empty list. *)
Theorem C8_transform_untrained :
  ∀ (char : Type) (Heq : EqDecision char) (c : char) (text : list char),
    (∀ numsymbols minfreq crosswords,
        (BPETokenizer.transform
           (BPETokenizer.init numsymbols minfreq crosswords) (c :: text)).1
        = Raise ValueError
        ∧ (BPETokenizer.transform
             (BPETokenizer.init numsymbols minfreq crosswords)
             ([] : list char)).1 = Ok [])
    ∧ (∀ subwords,
          (SubwordsListTokenizer.transform
             (SubwordsListTokenizer.init subwords) (c :: text)).1
          = Raise ValueError
          ∧ (SubwordsListTokenizer.transform
               (SubwordsListTokenizer.init subwords) ([] : list char)).1
            = Ok [])
    ∧ (SubwordTokenizer.transform SubwordTokenizer.init (c :: text)).1
      = Raise ValueError
    ∧ (SubwordTokenizer.transform (char:=char) SubwordTokenizer.init []).1
      = Ok [].
Proof. intros char Heq c text. split_and!; done. Qed.

(** C8, as stated, fails at the empty text: [transform] returns the empty
    list instead of failing. *)
Lemma C8_counterexample :
  (BPETokenizer.transform (BPETokenizer.init 4096 10 false) (str "")).1
  = Ok []
  ∧ (BPETokenizer.transform (BPETokenizer.init 4096 10 false) (str "")).1
    ≠ Raise ValueError.
Proof. split; [reflexivity|discriminate]. Qed.

(** C9, as the code has it. Two tokenizers compare equal exactly when they
    are of the same family (both character tokenizers, both word
    tokenizers, or both subword tokenizers of any kind) and their Symbol
    Sets are equal; no other attribute is compared. *)
Theorem C9_equality_within_family :
  ∀ (char : Type) (Heq : EqDecision char) (a b : tokenizer char),
    tokenizer_eq a b = true
    ↔ family_of a = family_of b ∧ same_set (symbol_set a) (symbol_set b).
Proof.
  intros char Heq a b.
  destruct a as [|w|s|t|l], b as [|w'|s'|t'|l']; simpl;
    rewrite ?pyset_opt_eqb_spec;
    try (split; [done|intros [? _]; done]);
    try (split; [intros ?; by split|intros [_ ?]; done]).
Qed.

(** C9, as stated, fails across families: a BPE tokenizer and a word
    tokenizer that hold the same Symbol Set are not equal, from either
    side. *)
Lemma C9_counterexample :
  let bpe :=
    BPE (BPETokenizer.mk 4096 10 false
           (SubwordTokenizer.mk (Some [str "a"]) None)) in
  let word := Word (WordTokenizer.mk 4096 2 (Some [str "a"])) in
  same_set (symbol_set bpe) (symbol_set word)
  ∧ tokenizer_eq bpe word = false
  ∧ tokenizer_eq word bpe = false.
Proof. cbv zeta. split_and!; done. Qed.

(** C10. Two subword tokenizers left by [fit] whose Symbol Sets have the
    same members return the same outcome of [transform] on every text,
    whatever the iteration order of either set; for two symbols of one
    length that both start a text are the same symbol. *)
Theorem C10_transform_function_of_symbol_set {char : Type} `{!EqDecision char}
    (self1 self2 : SubwordTokenizer.t char) (syms1 syms2 : list (list char)) :
  fitted self1 syms1 → fitted self2 syms2 →
  (∀ x, x ∈ syms1 ↔ x ∈ syms2) →
  (∀ text,
      (SubwordTokenizer.transform self1 text).1
      = (SubwordTokenizer.transform self2 text).1)
  ∧ (∀ s, Re.match_ (compiled syms1) s = Re.match_ (compiled syms2) s)
  ∧ (∀ s m1 m2 : list char,
        Re.startswith s m1 = true → Re.startswith s m2 = true →
        length m1 = length m2 → m1 = m2).
Proof.
  intros H1 H2 Hext. split_and!.
  - intros text. by eapply transform_ext.
  - intros s. by apply match_compiled_ext.
  - intros s m1 m2. apply startswith_same_length.
Qed.

Lemma C10_witness :
  let self1 :=
    (SubwordsListTokenizer.base
       (SubwordsListTokenizer.fit
          (SubwordsListTokenizer.init [str "ab"; str "ba"; str "abc"])
          [str "cab"]).2) in
  let self2 :=
    (SubwordsListTokenizer.base
       (SubwordsListTokenizer.fit
          (SubwordsListTokenizer.init [str "abc"; str "ba"; str "c"; str "ab"])
          [str "abc"]).2) in
  (∀ text,
      (SubwordTokenizer.transform self1 text).1
      = (SubwordTokenizer.transform self2 text).1)
  ∧ (∀ s,
        Re.match_
          (compiled [str "c"; str "a"; str "b"; str "ab"; str "ba"; str "abc"]) s
        = Re.match_
            (compiled [str "a"; str "b"; str "c"; str "abc"; str "ba"; str "ab"])
            s)
  ∧ (∀ s m1 m2 : list ascii,
        Re.startswith s m1 = true → Re.startswith s m2 = true →
        length m1 = length m2 → m1 = m2).
Proof.
  cbv zeta.
  apply (C10_transform_function_of_symbol_set _ _
           [str "c"; str "a"; str "b"; str "ab"; str "ba"; str "abc"]
           [str "a"; str "b"; str "c"; str "abc"; str "ba"; str "ab"]).
  - split; vm_compute; reflexivity.
  - split; vm_compute; reflexivity.
  - apply pyset_eqb_spec. vm_compute. reflexivity.
Defined.

(** * Further properties of the code *)

(** ** Counting with a [defaultdict(int)] *)

Section counting.
Context {A : Type} `{!EqDecision A}.
Implicit Types (x y : A) (l : list A) (d : list (A * Z)).

(** How many elements of [l] are [x] *)
Definition tally x l : Z := len (filter (λ y, y = x) l).

Lemma tally_nil x : tally x [] = 0%Z.
Proof. done. Qed.

Lemma tally_cons x y l :
  tally x (y :: l) = ((if decide (y = x) then 1 else 0) + tally x l)%Z.
Proof.
  unfold tally, len. rewrite filter_cons. destruct (decide (y = x)); simpl; lia.
Qed.

Lemma tally_app x l1 l2 : tally x (l1 ++ l2) = (tally x l1 + tally x l2)%Z.
Proof. unfold tally, len. rewrite filter_app, length_app. lia. Qed.

Lemma tally_pos x l : (0 < tally x l)%Z ↔ x ∈ l.
Proof.
  induction l as [|y l IH].
  - rewrite tally_nil, elem_of_nil. lia.
  - rewrite tally_cons, elem_of_cons.
    assert (0 ≤ tally x l)%Z by (unfold tally, len; lia).
    destruct (decide (y = x)) as [->|Hne].
    + split; [by left|lia].
    + rewrite Z.add_0_l, IH. split; [by right|]. intros [?|?]; [congruence|done].
Qed.

(** The loop [for x in l: d[x] += 1] *)
Definition count_into d l : list (A * Z) :=
  foldl (λ d x, PyDict.add x 1%Z d) d l.

Lemma count_into_get0 l :
  ∀ d x, PyDict.get0 (count_into d l) x = (PyDict.get0 d x + tally x l)%Z.
Proof.
  unfold count_into.
  induction l as [|y l IH]; intros d x; simpl.
  - rewrite tally_nil. lia.
  - rewrite IH, pydict_get0_add, tally_cons.
    destruct (decide (x = y)) as [->|Hne].
    + rewrite decide_True by done. lia.
    + rewrite decide_False by congruence. lia.
Qed.

Lemma count_into_keys l :
  ∀ d x, x ∈ PyDict.keys (count_into d l) ↔ x ∈ PyDict.keys d ∨ x ∈ l.
Proof.
  unfold count_into.
  induction l as [|y l IH]; intros d x; simpl.
  - rewrite elem_of_nil. tauto.
  - rewrite IH, pydict_keys_add, elem_of_cons. tauto.
Qed.

Lemma count_into_NoDup l :
  ∀ d, NoDup (PyDict.keys d) → NoDup (PyDict.keys (count_into d l)).
Proof.
  unfold count_into.
  induction l as [|y l IH]; intros d Hnd; simpl; [done|].
  apply IH. by apply pydict_NoDup_add.
Qed.

(** An entry of a count started from nothing holds the number of
    occurrences of its key. *)
Lemma count_into_entry l x v :
  (x, v) ∈ count_into [] l → v = tally x l ∧ x ∈ l.
Proof.
  intros Hin.
  assert (NoDup (PyDict.keys (count_into [] l))) as Hnd
    by apply count_into_NoDup, NoDup_nil_2.
  pose proof (pydict_get_elem _ _ _ Hnd Hin) as Hget.
  pose proof (count_into_get0 l [] x) as H0.
  unfold PyDict.get0 in H0 at 1. rewrite Hget in H0. simpl in H0.
  split; [unfold PyDict.get0 in H0; simpl in H0; lia|].
  assert (x ∈ PyDict.keys (count_into [] l)) as Hk.
  { apply list_elem_of_fmap. by exists (x, v). }
  apply count_into_keys in Hk as [Hk|Hk]; [by apply elem_of_nil in Hk|done].
Qed.

End counting.

(** ** The character tokenizer *)

(** X1. [CharTokenizer.transform] returns one token of one character per
    character of the text, and the tokens concatenate to the text. *)
Theorem X1_char_transform_roundtrip {char : Type} (text : list char) :
  ∃ tokens,
    CharTokenizer.transform text = Ok tokens
    ∧ concat tokens = text
    ∧ length tokens = length text
    ∧ ∀ t, t ∈ tokens → length t = 1.
Proof.
  unfold CharTokenizer.transform. eexists. split_and!; [done| | |].
  - induction text as [|c text IH]; [done|]. rewrite fmap_cons. simpl. by f_equal.
  - by rewrite length_fmap.
  - by intros t (c & -> & _)%list_elem_of_fmap.
Qed.

(** ** The word tokenizer *)

Section word_facts.
Context {char : Type} `{!EqDecision char}.
Variable wordchar : char → bool.
Implicit Types (text token word : list char) (syms : list (list char)).

(** The split keeps every character: its tokens concatenate to the text. *)
Lemma parser_split_from_concat text :
  ∀ word, concat (WordTokenizer.parser_split_from wordchar word text)
          = word ++ text.
Proof.
  induction text as [|c text IH]; intros word; simpl.
  - done.
  - destruct (wordchar c); simpl.
    + rewrite IH. by rewrite <- app_assoc.
    + by rewrite IH.
Qed.

Lemma parser_split_concat text :
  concat (WordTokenizer.parser_split wordchar text) = text.
Proof. apply parser_split_from_concat. Qed.

(** What [transform] appends for one token of the split *)
Definition pieces syms token : list (list char) :=
  if decide (token ∈ syms) then [token]
  else filter (λ c, c ∈ syms) ((λ c, [c]) <$> token).

Lemma concat_known_chars syms token :
  concat (filter (λ c, c ∈ syms) ((λ c, [c]) <$> token))
  = filter (λ c, [c] ∈ syms) token.
Proof.
  induction token as [|c token IH]; [done|].
  rewrite fmap_cons, !filter_cons.
  destruct (decide ([c] ∈ syms)); simpl; by rewrite IH.
Qed.




Lemma pieces_all_known syms token :
  (∀ c, c ∈ token → [c] ∈ syms) → concat (pieces syms token) = token.
Proof.
  intros Hall. unfold pieces. destruct (decide (token ∈ syms)).
  - simpl. by rewrite app_nil_r.
  - rewrite concat_known_chars. clear n.
    induction token as [|c token IH]; [done|].
    rewrite filter_cons, decide_True by (apply Hall; left).
    f_equal. apply IH. intros c' Hc'. apply Hall. by right.
Qed.

Lemma word_transform_trained numsymbols minfreq syms text :
  WordTokenizer.transform wordchar
    (WordTokenizer.mk numsymbols minfreq (Some syms)) text
  = (Ok (concat (pieces syms <$> WordTokenizer.parser_split wordchar text)),
     WordTokenizer.mk numsymbols minfreq (Some syms)).
Proof. reflexivity. Qed.

End word_facts.


(** *** Training the word tokenizer *)

Section sorted_prefix.
Context {A B : Type} (R : relation A).

Lemma StronglySorted_filter_keep (P : A → Prop) `{!∀ x, Decision (P x)} l :
  StronglySorted R l → StronglySorted R (filter P l).
Proof.
  induction 1 as [|x l Hl IH Hx]; [constructor|].
  rewrite filter_cons. destruct (decide (P x)); [|done].
  constructor; [done|]. rewrite Forall_forall in Hx. apply Forall_forall.
  intros y [_ Hy]%list_elem_of_filter. by apply Hx.
Qed.

Lemma StronglySorted_fmap_elem (R' : relation B) (f : A → B) l :
  (∀ x y, x ∈ l → y ∈ l → R x y → R' (f x) (f y)) →
  StronglySorted R l → StronglySorted R' (f <$> l).
Proof.
  intros Hf Hs. induction Hs as [|x l Hl IH Hx]; [constructor|].
  rewrite fmap_cons. constructor.
  - apply IH. intros y z Hy Hz. apply Hf; by right.
  - rewrite Forall_forall in Hx. apply Forall_forall.
    intros y' (y & -> & Hy)%list_elem_of_fmap.
    apply Hf; [left|by right|by apply Hx].
Qed.

(** In a sorted list, an element that may not come after a member of a
    prefix is in that prefix. *)
Lemma StronglySorted_take_closed l n x y :
  StronglySorted R l → x ∈ take n l → y ∈ l → ¬ R x y → y ∈ take n l.
Proof.
  intros Hs Hx Hy Hxy. rewrite <- (take_drop n l) in Hs, Hy.
  apply elem_of_app in Hy as [Hy|Hy]; [done|].
  exfalso. apply Hxy. by eapply StronglySorted_app_1_elem_of.
Qed.

End sorted_prefix.

Section word_fit_facts.
Context {char : Type} `{!EqDecision char}.
Variable wordchar : char → bool.
Variable self : WordTokenizer.t char.
Variable docs : list (list char).

(** The tokens of the corpus, the characters that start the Symbol Set,
    and the candidates left after the characters, most frequent first *)
Definition word_tokens : list (list char) :=
  concat (WordTokenizer.parser_split wordchar <$> docs).

Definition word_chars : list (list char) :=
  PySet.of_list (WordTokenizer.chars docs).

Definition word_remain : list (list char) :=
  filter (λ s, s ∉ word_chars)
    (fst <$> sorted_desc snd
               (filter (λ sf, (WordTokenizer.minfreq self ≤ sf.2)%Z)
                  (WordTokenizer.counter word_tokens))).

Lemma word_fit_symbols :
  WordTokenizer.symbols (WordTokenizer.fit wordchar self docs).2
  = Some (PySet.update word_chars
            (slice_to word_remain
               (WordTokenizer.numsymbols self - len word_chars)%Z)).
Proof. reflexivity. Qed.

Lemma slice_to_take {X} (l : list X) k : ∃ n, slice_to l k = take n l.
Proof. unfold slice_to. destruct (k <? 0)%Z; eauto. Qed.

Lemma word_remain_elem_of s :
  s ∈ word_remain ↔
  (s ∉ word_chars)
  ∧ s ∈ word_tokens
  ∧ (WordTokenizer.minfreq self ≤ tally s word_tokens)%Z.
Proof.
  unfold word_remain. rewrite list_elem_of_filter. split.
  - intros [Hs (sf & -> & Hsf)%list_elem_of_fmap]. split; [done|].
    apply sorted_desc_elem_of, list_elem_of_filter in Hsf as [Hmin Hsf].
    destruct sf as [s v]. simpl in *.
    apply count_into_entry in Hsf as [-> Hin]. done.
  - intros (Hs & Hin & Hmin). split; [done|].
    apply list_elem_of_fmap. exists (s, tally s word_tokens). split; [done|].
    apply sorted_desc_elem_of, list_elem_of_filter. split; [done|].
    assert (s ∈ PyDict.keys (WordTokenizer.counter word_tokens)) as Hk.
    { apply (count_into_keys word_tokens [] s). by right. }
    apply list_elem_of_fmap in Hk as ([s' v] & -> & Hsv).
    simpl. by destruct (count_into_entry _ _ _ Hsv) as [-> _].
Qed.

Lemma word_remain_sorted :
  StronglySorted (λ s s', (tally s' word_tokens ≤ tally s word_tokens)%Z)
    word_remain.
Proof.
  unfold word_remain. apply StronglySorted_filter_keep.
  eapply StronglySorted_fmap_elem; [|apply sorted_desc_sorted].
  intros [s v] [s' v'] Hs Hs'. unfold key_ge. simpl.
  apply sorted_desc_elem_of, list_elem_of_filter in Hs as [_ Hs].
  apply sorted_desc_elem_of, list_elem_of_filter in Hs' as [_ Hs'].
  apply count_into_entry in Hs as [-> _].
  apply count_into_entry in Hs' as [-> _]. done.
Qed.

End word_fit_facts.

(** X3. A word tokenizer trained by [fit] on a corpus, applied to a text
    all of whose characters occur in the corpus, returns tokens that
    concatenate to the text: nothing is dropped. *)
Theorem X3_word_transform_roundtrip {char : Type} `{!EqDecision char}
    (wordchar : char → bool) (self : WordTokenizer.t char)
    (docs : list (list char)) (text : list char) :
  (∀ c, c ∈ text → ∃ doc, doc ∈ docs ∧ c ∈ doc) →
  ∃ tokens,
    (WordTokenizer.transform wordchar
       (WordTokenizer.fit wordchar self docs).2 text).1 = Ok tokens
    ∧ concat tokens = text.
Proof.
  intros Hchars.
  destruct (word_fit_spec wordchar self docs) as (syms & _ & Hs & _ & _ & Hin & _).
  destruct (WordTokenizer.fit wordchar self docs).2 as [n m osyms].
  simpl in Hs. subst osyms. rewrite word_transform_trained. simpl.
  eexists. split; [done|].
  assert (Hknown : ∀ c, c ∈ text → [c] ∈ syms).
  { intros c (doc & Hdoc & Hc)%Hchars. apply Hin.
    by eapply word_chars_elem_of. }
  rewrite <- (parser_split_concat wordchar text) in Hknown.
  rewrite <- (parser_split_concat wordchar text) at 2.
  revert Hknown. generalize (WordTokenizer.parser_split wordchar text).
  intros toks Hknown. induction toks as [|token toks IH]; [done|].
  simpl. rewrite concat_app. f_equal.
  - apply pieces_all_known. intros c Hc. apply Hknown. simpl.
    apply elem_of_app. by left.
  - apply IH. intros c Hc. apply Hknown. simpl. apply elem_of_app. by right.
Qed.

Lemma X3_witness :
  ∃ tokens,
    (WordTokenizer.transform ascii_wordchar
       (WordTokenizer.fit ascii_wordchar (WordTokenizer.init 4096 2)
          [str "the cat sat."; str "the cat sat."]).2
       (str "that cat.the.hat")).1 = Ok tokens
    ∧ concat tokens = str "that cat.the.hat".
Proof.
  apply (X3_word_transform_roundtrip ascii_wordchar (WordTokenizer.init 4096 2)
           [str "the cat sat."; str "the cat sat."] (str "that cat.the.hat")).
  intros c Hc. exists (str "the cat sat."). split; [left|].
  revert c Hc. apply Forall_forall.
  apply (bool_decide_unpack _). vm_compute. reflexivity.
Defined.

(** X4. After [WordTokenizer.fit], every symbol of the Symbol Set is a
    character of the corpus, or a token of the split of the corpus that
    occurs at least [minfreq] times in it: a token seen less often is never
    a symbol. *)
Theorem X4_word_fit_frequent_tokens :
  ∀ (char : Type) (Heq : EqDecision char) (wordchar : char → bool)
    (self : WordTokenizer.t char) (docs : list (list char)),
    ∃ syms,
      WordTokenizer.fit wordchar self docs
      = (Ok tt,
         WordTokenizer.mk (WordTokenizer.numsymbols self)
           (WordTokenizer.minfreq self) (Some syms))
      ∧ NoDup syms
      ∧ ∀ s, s ∈ syms →
             (∃ c, s = [c] ∧ c ∈ concat docs)
             ∨ (s ∈ word_tokens wordchar docs
                ∧ (WordTokenizer.minfreq self
                   ≤ tally s (word_tokens wordchar docs))%Z).
Proof.
  intros char Heq wordchar self docs. eexists. split; [reflexivity|]. split.
  - apply pyset_NoDup_update, NoDup_remove_dups.
  - intros s [Hs|Hs]%pyset_elem_of_update.
    + left. unfold PySet.of_list, WordTokenizer.chars in Hs.
      apply elem_of_remove_dups, list_elem_of_fmap in Hs as (c & -> & Hc). eauto.
    + right.
      destruct (slice_to_take
                  (word_remain wordchar self docs)
                  (WordTokenizer.numsymbols self - len (word_chars docs))%Z)
        as [n Hn].
      fold (word_chars docs) in Hs.
      change (filter _ (fst <$> _)) with (word_remain wordchar self docs) in Hs.
      rewrite Hn in Hs. apply subseteq_take in Hs.
      by apply word_remain_elem_of in Hs as (_ & ? & ?).
Qed.

(** X5. [WordTokenizer.fit] fills the space left by the characters with the
    most frequent tokens first: when a token that is not a character of the
    corpus has become a symbol, every token that occurs more often in the
    corpus is a symbol too. *)
Theorem X5_word_fit_most_frequent_first {char : Type} `{!EqDecision char}
    (wordchar : char → bool) (self : WordTokenizer.t char)
    (docs : list (list char)) (syms : list (list char)) (s s' : list char) :
  WordTokenizer.symbols (WordTokenizer.fit wordchar self docs).2 = Some syms →
  s ∈ syms → s ∉ word_chars docs →
  (tally s (word_tokens wordchar docs)
   < tally s' (word_tokens wordchar docs))%Z →
  s' ∈ syms.
Proof.
  rewrite word_fit_symbols. intros [= <-] Hs Hchar Hlt.
  apply pyset_elem_of_update in Hs as [Hs|Hs]; [done|].
  apply pyset_elem_of_update.
  destruct (decide (s' ∈ word_chars docs)) as [Hc'|Hc']; [by left|right].
  destruct (slice_to_take
              (word_remain wordchar self docs)
              (WordTokenizer.numsymbols self - len (word_chars docs))%Z)
    as [n Hn].
  rewrite Hn in *.
  pose proof (subseteq_take _ _ _ Hs) as Hrem.
  apply word_remain_elem_of in Hrem as (_ & Hin & Hmin).
  eapply StronglySorted_take_closed;
    [apply word_remain_sorted|exact Hs| |simpl; lia].
  apply word_remain_elem_of. split_and!; [done| |lia].
  apply tally_pos. apply tally_pos in Hin. lia.
Qed.

Lemma X5_witness :
  str "the" ∈ [str "t"; str " "; str "h"; str "e"; str "the"; str "he"].
Proof.
  apply (X5_word_fit_most_frequent_first ascii_wordchar
           (WordTokenizer.init 6 1) [str "the the he"]
           [str "t"; str " "; str "h"; str "e"; str "the"; str "he"]
           (str "he") (str "the")).
  - vm_compute. reflexivity.
  - apply (bool_decide_unpack _). vm_compute. reflexivity.
  - apply (bool_decide_unpack _). vm_compute. reflexivity.
  - vm_compute. reflexivity.
Defined.

(** ** More on the subword matcher *)

Section subword_more.
Context {char : Type} `{!EqDecision char}.
Implicit Types (self : SubwordTokenizer.t char) (rest text : list char).
Implicit Types (syms acc tokens : list (list char)).

(** A run of the loop that ends well has appended, to what it started
    with, nonempty matches that spell the rest of the text. *)
Lemma segment_Ok_sound (matcher : list char → option (list char))
    (P : list char → Prop) fuel :
  (∀ s m, matcher s = Some m → Re.startswith s m = true) →
  (∀ s m, matcher s = Some m → m ≠ [] → P m) →
  ∀ rest acc result,
    segment matcher fuel rest acc = Ok result →
    ∃ tokens, result = acc ++ tokens ∧ concat tokens = rest
              ∧ ∀ t, t ∈ tokens → t ≠ [] ∧ P t.
Proof.
  intros Hpre HP. induction fuel as [|fuel IH]; intros rest acc result.
  - destruct rest; [|done]. intros [= <-]. exists [].
    rewrite app_nil_r. split_and!; [done..|]. intros t Ht. by apply elem_of_nil in Ht.
  - destruct rest as [|c rest].
    { intros [= <-]. exists []. rewrite app_nil_r. split_and!; [done..|].
      intros t Ht. by apply elem_of_nil in Ht. }
    simpl. destruct (matcher (c :: rest)) as [m|] eqn:Hm; [|done].
    destruct m as [|a m].
    { intros Hok. exfalso.
      change (drop (length []) (c :: rest)) with (c :: rest) in Hok.
      by rewrite segment_stuck in Hok. }
    intros (tokens & -> & Hcat & Hall)%IH.
    exists ((a :: m) :: tokens). rewrite <- app_assoc. split_and!; [done| |].
    + cbn [concat]. rewrite Hcat. apply startswith_drop. by apply Hpre.
    + intros t [->|Ht]%elem_of_cons; [|by apply Hall].
      split; [done|]. by eapply HP.
Qed.

Lemma match_compiled_prefix syms s m :
  Re.match_ (compiled syms) s = Some m → Re.startswith s m = true.
Proof.
  intros Hm. pose proof (match_compiled syms s) as H. rewrite Hm in H.
  by destruct H as (? & _).
Qed.

Lemma match_compiled_member syms s m :
  Re.match_ (compiled syms) s = Some m → m ≠ [] → m ∈ syms.
Proof.
  intros Hm Hne. pose proof (match_compiled syms s) as H. rewrite Hm in H.
  by destruct H as (_ & [?|[_ ->]] & _).
Qed.

(** When the empty string is all that can match, the matcher matches it. *)
Lemma match_compiled_empty syms s :
  syms = [] ∨ [] ∈ syms →
  (∀ m, m ∈ syms → m ≠ [] → Re.startswith s m = false) →
  Re.match_ (compiled syms) s = Some [].
Proof.
  intros Hempty Hnone. pose proof (match_compiled syms s) as H.
  destruct (Re.match_ (compiled syms) s) as [m|]; simpl in H.
  - destruct H as (Hs & Hin & _). f_equal.
    destruct Hin as [Hin|[_ ->]]; [|done].
    destruct m as [|a m]; [done|].
    rewrite (Hnone (a :: m)) in Hs; done.
  - destruct H as [Hne Hall]. destruct Hempty as [->|Hin]; [done|].
    by specialize (Hall [] Hin).
Qed.

End subword_more.

(** X6. Whenever [transform] of a trained subword tokenizer returns, the
    tokens it returns concatenate to the text, and each of them is a
    nonempty member of the Symbol Set. *)
Theorem X6_subword_transform_sound {char : Type} `{!EqDecision char}
    (self : SubwordTokenizer.t char) (syms : list (list char))
    (text : list char) (tokens : list (list char)) :
  fitted self syms →
  (SubwordTokenizer.transform self text).1 = Ok tokens →
  concat tokens = text ∧ ∀ t, t ∈ tokens → t ≠ [] ∧ t ∈ syms.
Proof.
  intros Hfit. unfold SubwordTokenizer.transform.
  rewrite (transform_loop_segment _ (compiled syms)) by by apply fitted_effective.
  intros Hok.
  destruct (segment_Ok_sound (Re.match_ (compiled syms)) (λ m, m ∈ syms)
              (length text) (match_compiled_prefix syms)
              (match_compiled_member syms) text [] tokens Hok)
    as (tokens' & -> & Hcat & Hall).
  done.
Qed.

Lemma X6_witness :
  concat [str "aaab"; str "d"; str "a"; str "c"] = str "aaabdac"
  ∧ ∀ t, t ∈ [str "aaab"; str "d"; str "a"; str "c"] →
         t ≠ [] ∧ t ∈ [str "d"; str "b"; str "a"; str "c"; str "aaab"].
Proof.
  apply (X6_subword_transform_sound
           (BPETokenizer.base
              (BPETokenizer.fit ascii_wordchar worked_bpe worked_docs).2)
           [str "d"; str "b"; str "a"; str "c"; str "aaab"]
           (str "aaabdac") [str "aaab"; str "d"; str "a"; str "c"]).
  - split; vm_compute; reflexivity.
  - vm_compute. reflexivity.
Defined.

(** X7. [bestmatch] of a trained subword tokenizer with at least one symbol
    returns the longest symbol that starts the string, and [None] exactly
    when no symbol starts it; the tokenizer is left as it was. *)
Theorem X7_bestmatch_longest {char : Type} `{!EqDecision char}
    (self : SubwordTokenizer.t char) (syms : list (list char))
    (string : list char) :
  fitted self syms → syms ≠ [] →
  ∃ r,
    SubwordTokenizer.bestmatch self string = (Ok r, self)
    ∧ (r = None ↔ ∀ m, m ∈ syms → ¬ m `prefix_of` string)
    ∧ ∀ m, r = Some m →
           m ∈ syms ∧ m `prefix_of` string
           ∧ ∀ m', m' ∈ syms → m' `prefix_of` string → length m' ≤ length m.
Proof.
  intros [Hs Hd] Hne. exists (Re.match_ (compiled syms) string). split.
  - unfold SubwordTokenizer.bestmatch. rewrite Hd. simpl. by rewrite Hd.
  - pose proof (match_compiled syms string) as H.
    destruct (Re.match_ (compiled syms) string) as [m|]; simpl in H.
    + destruct H as (Hpre & Hin & Hmax). split.
      * split; [done|]. intros Hnone. exfalso.
        destruct Hin as [Hin|[-> _]]; [|done].
        apply (Hnone m Hin). by apply startswith_prefix.
      * intros m' [= <-]. destruct Hin as [Hin|[-> _]]; [|done].
        split_and!; [done|by apply startswith_prefix|].
        intros m' Hm' Hp. apply Hmax; [done|]. by apply startswith_prefix.
    + destruct H as [_ Hall]. split; [|done].
      split; [|done]. intros _ m Hm Hp.
      apply startswith_prefix in Hp. rewrite (Hall m Hm) in Hp. done.
Qed.

Lemma X7_witness :
  ∃ r,
    SubwordTokenizer.bestmatch
      (SubwordTokenizer.mk (Some [str "a"; str "ab"; str "abc"; str "b"])
         (Some (compiled [str "a"; str "ab"; str "abc"; str "b"])))
      (str "abd")
    = (Ok r,
       SubwordTokenizer.mk (Some [str "a"; str "ab"; str "abc"; str "b"])
         (Some (compiled [str "a"; str "ab"; str "abc"; str "b"])))
    ∧ (r = None ↔
       ∀ m, m ∈ [str "a"; str "ab"; str "abc"; str "b"] →
            ¬ m `prefix_of` str "abd")
    ∧ ∀ m, r = Some m →
           m ∈ [str "a"; str "ab"; str "abc"; str "b"]
           ∧ m `prefix_of` str "abd"
           ∧ ∀ m', m' ∈ [str "a"; str "ab"; str "abc"; str "b"] →
                   m' `prefix_of` str "abd" → length m' ≤ length m.
Proof.
  apply (X7_bestmatch_longest
           (SubwordTokenizer.mk (Some [str "a"; str "ab"; str "abc"; str "b"])
              (Some (compiled [str "a"; str "ab"; str "abc"; str "b"])))
           [str "a"; str "ab"; str "abc"; str "b"] (str "abd")).
  - split; reflexivity.
  - discriminate.
Defined.

(** X8. When the Symbol Set of a trained subword tokenizer is empty, or
    has the empty string as a symbol, [transform] never returns on a text
    at whose start no nonempty symbol matches: the loop matches the empty
    string and stays at that position, however many turns it is given. *)
Theorem X8_transform_empty_match_loops {char : Type} `{!EqDecision char}
    (self : SubwordTokenizer.t char) (syms : list (list char))
    (text : list char) :
  fitted self syms → text ≠ [] →
  syms = [] ∨ [] ∈ syms →
  (∀ m, m ∈ syms → m ≠ [] → ¬ m `prefix_of` text) →
  ∀ fuel acc,
    (SubwordTokenizer.transform_loop fuel self text acc).1 = OutOfFuel.
Proof.
  intros Hfit Hne Hempty Hnone fuel acc.
  eapply transform_loop_stuck; [by apply fitted_effective|done|].
  apply match_compiled_empty; [done|].
  intros m Hm Hmne. destruct (Re.startswith text m) eqn:Hs; [|done].
  exfalso. apply (Hnone m Hm Hmne). by apply startswith_prefix.
Qed.

Lemma X8_witness :
  (SubwordTokenizer.transform_loop 1000
     (SubwordsListTokenizer.base
        (SubwordsListTokenizer.fit (SubwordsListTokenizer.init [])
           ([] : list (list ascii))).2)
     (str "a") []).1 = OutOfFuel.
Proof.
  apply (X8_transform_empty_match_loops
           (SubwordsListTokenizer.base
              (SubwordsListTokenizer.fit (SubwordsListTokenizer.init [])
                 ([] : list (list ascii))).2)
           [] (str "a")).
  - split; reflexivity.
  - discriminate.
  - by left.
  - intros m Hm. by apply elem_of_nil in Hm.
Defined.

(** ** More on BPE training *)

Section bpe_more.
Context {char : Type} `{!EqDecision char}.
Variable wordchar : char → bool.
Variable self : BPETokenizer.t char.
Local Abbreviation symbol := (list char).
Local Abbreviation pair := (list char * list char)%type.
Implicit Types (s a b L R : symbol) (p : pair).
Implicit Types (doc : list symbol) (corpus : list (list symbol)).
Implicit Types (freqs : list (pair * Z)) (symbols : list symbol).

(** *** A merge keeps the text *)

Lemma merge_list_concat L R doc : concat (merge_list L R doc) = concat doc.
Proof.
  induction doc as [| x | x y doc IH1 IH2] using list_pair_ind; [done..|].
  rewrite merge_list_unfold.
  destruct (bool_decide (x = L) && bool_decide (y = R)).
  - cbn [concat]. rewrite IH2. by rewrite <- app_assoc.
  - cbn [concat] in *. by rewrite IH1.
Qed.

(** The text a document of symbols spells *)
Definition text_of doc : list char := concat doc.

Lemma merge_corpus_concat L R corpus :
  text_of <$> (merge_list L R <$> corpus) = text_of <$> corpus.
Proof.
  induction corpus as [|doc corpus IH]; [done|].
  rewrite !fmap_cons, IH. unfold text_of. by rewrite merge_list_concat.
Qed.

Lemma merge_corpus_nodes L R corpus :
  length (concat (merge_list L R <$> corpus)) ≤ length (concat corpus).
Proof.
  induction corpus as [|doc corpus IH]; [done|].
  rewrite fmap_cons. cbn [concat]. rewrite !length_app.
  pose proof (merge_list_length L R doc). lia.
Qed.

Lemma merge_target_key freqs symbols L R :
  merge_target self freqs symbols = Some (L, R) → (L, R) ∈ PyDict.keys freqs.
Proof.
  unfold merge_target. destruct (len symbols <? _)%Z; [|done].
  destruct (PyDict.argmax freqs) as [[[L' R'] v]|] eqn:Hmax; simpl; [|done].
  destruct (PyDict.get0 freqs (L', R') <? _)%Z; [done|]. intros [= -> ->].
  apply pydict_argmax_spec in Hmax as [Hin _].
  apply list_elem_of_fmap. by exists (L, R, v).
Qed.

(** *** Termination, and the one exception of training *)

(** An outcome that is a result or the [ValueError] of [max] *)
Definition result_or_ValueError {X} (r : outcome X) : Prop :=
  match r with
  | Ok _ => True
  | Raise e => e = ValueError
  | OutOfFuel => False
  end.

Lemma mergingrun_loop_fuel_mono fuel :
  ∀ fuel' corpus freqs symbols,
    fuel ≤ fuel' →
    (BPETokenizer.mergingrun_loop wordchar fuel self corpus freqs symbols).1
    ≠ OutOfFuel →
    BPETokenizer.mergingrun_loop wordchar fuel' self corpus freqs symbols
    = BPETokenizer.mergingrun_loop wordchar fuel self corpus freqs symbols.
Proof.
  induction fuel as [|fuel IH]; intros fuel' corpus freqs symbols Hle Hfin;
    destruct (merge_target self freqs symbols) as [[L R]|] eqn:Ht.
  - by rewrite (mergingrun_loop_no_fuel _ _ _ _ _ L R) in Hfin.
  - by rewrite !mergingrun_loop_halt.
  - destruct fuel' as [|fuel']; [lia|].
    rewrite (mergingrun_loop_merge wordchar self fuel _ _ _ L R Ht) in Hfin.
    rewrite (mergingrun_loop_merge wordchar self fuel _ _ _ L R Ht).
    rewrite (mergingrun_loop_merge wordchar self fuel' _ _ _ L R Ht).
    destruct (BPETokenizer.mergesymbols wordchar self corpus symbols freqs L R)
      as [[[c1 f1]|e|] s1]; [|done..].
    apply IH; [lia|done].
  - by rewrite !mergingrun_loop_halt.
Qed.

Lemma mergingrun_loop_outcome fuel :
  ∀ corpus freqs symbols,
    BPETokenizer.budget corpus freqs ≤ fuel →
    result_or_ValueError
      (BPETokenizer.mergingrun_loop wordchar fuel self corpus freqs symbols).1.
Proof.
  induction fuel as [|fuel IH]; intros corpus freqs symbols Hb;
    destruct (merge_target self freqs symbols) as [[L R]|] eqn:Ht.
  - apply merge_target_key in Ht. unfold BPETokenizer.budget in Hb.
    destruct freqs; [by apply elem_of_nil in Ht|simpl in Hb; lia].
  - rewrite mergingrun_loop_halt by done. unfold halt.
    destruct (len symbols <? _)%Z; [|done]. by destruct (PyDict.argmax freqs).
  - rewrite (mergingrun_loop_merge _ _ _ _ _ _ L R) by done.
    destruct (mergesymbols_Ok wordchar self corpus symbols freqs L R
                (merge_target_key _ _ _ _ Ht)) as (f1 & _ & Hms).
    rewrite Hms. apply IH.
    apply mergesymbols_budget in Hms. lia.
  - rewrite mergingrun_loop_halt by done. unfold halt.
    destruct (len symbols <? _)%Z; [|done]. by destruct (PyDict.argmax freqs).
Qed.

Lemma fit_loop_outcome fuel :
  ∀ corpus freqs symbols,
    BPETokenizer.budget corpus freqs ≤ fuel →
    BPETokenizer.prunesymbols self corpus symbols = symbols →
    result_or_ValueError
      (BPETokenizer.fit_loop wordchar fuel self corpus freqs symbols).1.
Proof.
  intros corpus freqs symbols Hb Hstable.
  pose proof (fit_loop_fuel wordchar self fuel corpus freqs symbols Hb Hstable)
    as Hfuel.
  revert corpus freqs symbols Hb Hstable Hfuel.
  induction fuel as [|fuel IH]; intros corpus freqs symbols Hb Hstable; simpl;
    pose proof (mergingrun_loop_outcome (BPETokenizer.budget corpus freqs)
                  corpus freqs symbols (le_n _)) as Hout;
    pose proof (mergingrun_loop_progress wordchar self
                  (BPETokenizer.budget corpus freqs)
                  corpus freqs symbols) as Hprog;
    unfold BPETokenizer.mergingrun;
    destruct (BPETokenizer.mergingrun_loop _ _ _ _ _ _)
      as [[[c1 f1]|e|] s1]; simpl in Hout; try done;
    destruct (len s1 =? _)%Z eqn:Hlen; simpl; try done.
  intros Hfuel. apply Z.eqb_neq in Hlen.
  destruct (Hprog c1 f1 s1 eq_refl) as [(-> & -> & ->)|Hlt].
  - by rewrite Hstable in Hlen.
  - apply IH; [lia|apply prunesymbols_idemp|done].
Qed.

Lemma fit_loop_fuel_mono fuel :
  ∀ fuel' corpus freqs symbols,
    fuel ≤ fuel' →
    (BPETokenizer.fit_loop wordchar fuel self corpus freqs symbols).1
    ≠ OutOfFuel →
    BPETokenizer.fit_loop wordchar fuel' self corpus freqs symbols
    = BPETokenizer.fit_loop wordchar fuel self corpus freqs symbols.
Proof.
  induction fuel as [|fuel IH]; intros fuel' corpus freqs symbols Hle;
    destruct fuel' as [|fuel']; try lia; try done; simpl;
    destruct (BPETokenizer.mergingrun wordchar self corpus freqs symbols)
      as [[[c1 f1]|e|] s1]; try done;
    destruct (len s1 =? _)%Z; simpl; try done.
  intros Hfin. apply IH; [lia|done].
Qed.

End bpe_more.

(** X9. [BPETokenizer.fit] always ends, for every corpus and every
    configuration, and it ends either normally or with the [ValueError] of
    [max] over an empty table: it raises nothing else. The loops need no
    more turns than the budget they are given: with any larger number of
    turns [mergingrun] and the outer loop of [fit] give the same result. *)
Theorem X9_bpe_fit_terminates :
  ∀ (char : Type) (Heq : EqDecision char) (wordchar : char → bool)
    (self : BPETokenizer.t char) (docs : list (list char)),
    ((BPETokenizer.fit wordchar self docs).1 = Ok tt
     ∨ (BPETokenizer.fit wordchar self docs).1 = Raise ValueError)
    ∧ (∀ corpus freqs symbols fuel,
          BPETokenizer.budget corpus freqs ≤ fuel →
          BPETokenizer.mergingrun_loop wordchar fuel self corpus freqs symbols
          = BPETokenizer.mergingrun wordchar self corpus freqs symbols)
    ∧ (∀ fuel,
          BPETokenizer.budget (initial_corpus docs)
            (BPETokenizer.pairfreqs wordchar self (initial_corpus docs)) ≤ fuel →
          BPETokenizer.fit_loop wordchar fuel self (initial_corpus docs)
            (BPETokenizer.pairfreqs wordchar self (initial_corpus docs))
            (initial_symbols docs)
          = BPETokenizer.fit_loop wordchar
              (BPETokenizer.budget (initial_corpus docs)
                 (BPETokenizer.pairfreqs wordchar self (initial_corpus docs)))
              self (initial_corpus docs)
              (BPETokenizer.pairfreqs wordchar self (initial_corpus docs))
              (initial_symbols docs)).
Proof.
  intros char Heq wordchar self docs.
  assert (Hstable : BPETokenizer.prunesymbols self (initial_corpus docs)
                      (initial_symbols docs) = initial_symbols docs)
    by apply prunesymbols_chars, initial_symbols_length.
  split_and!.
  - unfold BPETokenizer.fit.
    fold (initial_corpus docs). fold (initial_symbols docs).
    pose proof (fit_loop_outcome wordchar self _ (initial_corpus docs)
                  (BPETokenizer.pairfreqs wordchar self (initial_corpus docs))
                  (initial_symbols docs) (le_n _) Hstable) as Hout.
    destruct (BPETokenizer.fit_loop wordchar _ self _ _ _) as [[[]|e|] syms];
      simpl in *; [by left|right; by subst|done].
  - intros corpus freqs symbols fuel Hle. unfold BPETokenizer.mergingrun.
    apply mergingrun_loop_fuel_mono; [done|].
    by apply mergingrun_loop_fuel.
  - intros fuel Hle. apply fit_loop_fuel_mono; [done|].
    by apply fit_loop_fuel.
Qed.

Section bpe_reach.
Context {char : Type} `{!EqDecision char}.
Variable wordchar : char → bool.
Variable self : BPETokenizer.t char.
Local Abbreviation symbol := (list char).
Local Abbreviation pair := (list char * list char)%type.
Local Abbreviation valid := (BPETokenizer.validpair wordchar self).
Implicit Types (s a b L R : symbol) (p : pair).
Implicit Types (doc : list symbol) (corpus : list (list symbol)).
Implicit Types (freqs : list (pair * Z)) (symbols : list symbol).

(** *** Where the Symbol Set of [fit] comes from *)

Lemma mergingrun_loop_reach docs fuel :
  ∀ corpus freqs symbols,
    fit_state wordchar self docs corpus freqs symbols →
    ∃ corpus' freqs',
      fit_state wordchar self docs corpus' freqs'
        (BPETokenizer.mergingrun_loop wordchar fuel self corpus freqs symbols).2
      ∧ ∀ c1 f1,
          (BPETokenizer.mergingrun_loop wordchar fuel self corpus freqs symbols).1
          = Ok (c1, f1) → corpus' = c1 ∧ freqs' = f1.
Proof.
  induction fuel as [|fuel IH]; intros corpus freqs symbols Hst;
    destruct (merge_target self freqs symbols) as [[L R]|] eqn:Ht.
  - rewrite (mergingrun_loop_no_fuel _ _ _ _ _ L R) by done.
    exists corpus, freqs. by split.
  - rewrite mergingrun_loop_halt by done. exists corpus, freqs.
    split; [done|]. destruct (halt self freqs symbols); simpl; [|done..].
    by intros c1 f1 [= <- <-].
  - rewrite (mergingrun_loop_merge wordchar self fuel _ _ _ L R Ht).
    destruct (mergesymbols_Ok wordchar self corpus symbols freqs L R
                (merge_target_key _ _ _ _ _ Ht)) as (f1 & _ & Hms).
    rewrite Hms. apply IH. by eapply fit_state_merge.
  - rewrite mergingrun_loop_halt by done. exists corpus, freqs.
    split; [done|]. destruct (halt self freqs symbols); simpl; [|done..].
    by intros c1 f1 [= <- <-].
Qed.

Lemma fit_loop_unfold fuel corpus freqs symbols :
  BPETokenizer.fit_loop wordchar fuel self corpus freqs symbols
  = match BPETokenizer.mergingrun wordchar self corpus freqs symbols with
    | (Ok (corpus', freqs'), symbols') =>
        let symbols'' := BPETokenizer.prunesymbols self corpus' symbols' in
        if (len symbols' =? len symbols'')%Z then (Ok tt, symbols'')
        else
          match fuel with
          | O => (OutOfFuel, symbols'')
          | S fuel' =>
              BPETokenizer.fit_loop wordchar fuel' self corpus' freqs' symbols''
          end
    | (Raise e, symbols') => (Raise e, symbols')
    | (OutOfFuel, symbols') => (OutOfFuel, symbols')
    end.
Proof. by destruct fuel. Qed.

(** The Symbol Set the outer loop leaves belongs to a state of training,
    and on success no pruning pass over the corpus of that state removes
    anything from it. *)
Lemma fit_loop_reach docs fuel :
  ∀ corpus freqs symbols,
    fit_state wordchar self docs corpus freqs symbols →
    ∃ corpus' freqs',
      fit_state wordchar self docs corpus' freqs'
        (BPETokenizer.fit_loop wordchar fuel self corpus freqs symbols).2
      ∧ ((BPETokenizer.fit_loop wordchar fuel self corpus freqs symbols).1
         = Ok tt →
         BPETokenizer.prunesymbols self corpus'
           (BPETokenizer.fit_loop wordchar fuel self corpus freqs symbols).2
         = (BPETokenizer.fit_loop wordchar fuel self corpus freqs symbols).2).
Proof.
  induction fuel as [|fuel IH]; intros corpus freqs symbols Hst;
    rewrite fit_loop_unfold;
    destruct (mergingrun_loop_reach docs (BPETokenizer.budget corpus freqs)
                corpus freqs symbols Hst) as (c' & f' & Hst' & Hok);
    unfold BPETokenizer.mergingrun;
    destruct (BPETokenizer.mergingrun_loop _ _ _ _ _ _)
      as [[[c1 f1]|e|] s1]; simpl in Hst', Hok.
  - destruct (Hok c1 f1 eq_refl) as [-> ->]. cbv zeta.
    destruct (len s1 =? _)%Z; exists c1, f1; simpl.
    + split; [by apply fit_state_prune|]. intros _. apply prunesymbols_idemp.
    + split; [by apply fit_state_prune|done].
  - exists c', f'. by split.
  - exists c', f'. by split.
  - destruct (Hok c1 f1 eq_refl) as [-> ->]. cbv zeta.
    destruct (len s1 =? _)%Z.
    + exists c1, f1; simpl.
      split; [by apply fit_state_prune|]. intros _. apply prunesymbols_idemp.
    + apply IH. by apply fit_state_prune.
  - exists c', f'. by split.
  - exists c', f'. by split.
Qed.

Lemma bpe_fit_reach docs :
  ∃ corpus freqs syms,
    SubwordTokenizer.symbols
      (BPETokenizer.base (BPETokenizer.fit wordchar self docs).2) = Some syms
    ∧ fit_state wordchar self docs corpus freqs syms
    ∧ ((BPETokenizer.fit wordchar self docs).1 = Ok tt →
       BPETokenizer.prunesymbols self corpus syms = syms).
Proof.
  unfold BPETokenizer.fit.
  fold (initial_corpus docs). fold (initial_symbols docs).
  destruct (fit_loop_reach docs
              (BPETokenizer.budget (initial_corpus docs)
                 (BPETokenizer.pairfreqs wordchar self (initial_corpus docs)))
              _ _ _ (fit_state_init wordchar self docs))
    as (c' & f' & Hst & Hok).
  destruct (BPETokenizer.fit_loop wordchar _ self _ _ _) as [[[]|e|] syms];
    simpl in *; exists c', f', syms; split_and!; done.
Qed.

(** *** The text under the merges *)

Lemma initial_corpus_text docs : @text_of char <$> initial_corpus docs = docs.
Proof.
  unfold initial_corpus, LinkedList.of_list, text_of.
  induction docs as [|text docs IH]; [done|].
  rewrite !fmap_cons. f_equal; [|done].
  clear IH. induction text as [|c text IH]; [done|].
  rewrite fmap_cons. cbn [concat]. simpl. by f_equal.
Qed.

(** Every document of a state of training spells the document of the
    corpus it stands for. *)
Lemma fit_state_text docs corpus freqs symbols :
  fit_state wordchar self docs corpus freqs symbols →
  @text_of char <$> corpus = docs.
Proof.
  induction 1 as [|corpus freqs symbols L R corpus' freqs' symbols' _ IH Ht Hms|].
  - apply initial_corpus_text.
  - destruct (mergesymbols_Ok wordchar self corpus symbols freqs L R
                (merge_target_key _ _ _ _ _ Ht)) as (f1 & _ & Hms').
    rewrite Hms in Hms'. injection Hms' as -> _ _.
    by rewrite merge_corpus_concat.
  - done.
Qed.

Lemma adjacent_split {X} (l : list X) x y :
  (x, y) ∈ adjacent l → ∃ l1 l2, l = l1 ++ x :: y :: l2.
Proof.
  induction l as [|a l IH]; simpl.
  - intros H. by apply elem_of_nil in H.
  - destruct l as [|b l].
    + intros H. by apply elem_of_nil in H.
    + intros [[= -> ->]|Hin]%elem_of_cons.
      * by exists [], l.
      * destruct (IH Hin) as (l1 & l2 & Hl). exists (a :: l1), l2.
        by rewrite Hl.
Qed.

(** A string that occurs in a document of the corpus *)
Definition occurs_in (docs : list (list char)) s : Prop :=
  ∃ text l1 l2, text ∈ docs ∧ text = l1 ++ s ++ l2.

Lemma fit_state_substrings docs corpus freqs symbols :
  (0 < BPETokenizer.minfreq self)%Z →
  fit_state wordchar self docs corpus freqs symbols →
  ∀ s, s ∈ symbols → s ≠ [] ∧ occurs_in docs s.
Proof.
  intros Hmin Hst.
  induction Hst
    as [|corpus freqs symbols L R corpus' freqs' symbols' Hst IH Ht Hms
        |corpus freqs symbols Hst IH].
  - intros s Hs. pose proof (initial_symbols_length _ _ Hs) as Hlen.
    split; [by destruct s|].
    unfold initial_symbols, PySet.of_list in Hs.
    apply elem_of_remove_dups, elem_of_concat in Hs as (doc & Hs & Hdoc).
    unfold LinkedList.values in Hdoc.
    apply list_elem_of_fmap in Hdoc as (doc' & -> & Hdoc').
    unfold initial_corpus, LinkedList.of_list in Hdoc'.
    apply list_elem_of_fmap in Hdoc' as (text & -> & Htext).
    apply list_elem_of_fmap in Hs as (c & -> & Hc).
    apply list_elem_of_split in Hc as (l1 & l2 & ->).
    by exists (l1 ++ c :: l2), l1, l2.
  - pose proof (fit_state_inv _ _ _ _ _ _ Hst) as Hinv.
    pose proof (fit_state_text _ _ _ _ Hst) as Htext.
    destruct (merge_target_spec _ _ _ _ _ (inv_NoDup _ _ _ _ Hinv) Ht)
      as (_ & Hk & _ & Hge).
    destruct (inv_keys _ _ _ _ Hinv _ _ Hk) as (Hv & HL & HR).
    pose proof (inv_exact _ _ _ _ Hinv _ _ Hv) as He.
    assert (0 < occurrences (L, R) corpus)%Z as Hpos by lia.
    apply occurrences_pos in Hpos as (doc & Hdoc & Hadj).
    apply adjacent_split in Hadj as (d1 & d2 & ->).
    pose proof (mergesymbols_symbols wordchar self corpus symbols freqs L R)
      as Hsym.
    rewrite Hms in Hsym. simpl in Hsym. subst symbols'.
    intros s [->|Hs]%pyset_elem_of_add; [|by apply IH].
    split; [by destruct L|].
    exists (text_of (d1 ++ L :: R :: d2)), (concat d1), (concat d2). split.
    + rewrite <- Htext. apply list_elem_of_fmap. eauto.
    + unfold text_of. rewrite concat_app. cbn [concat].
      by rewrite <- !app_assoc.
  - intros s Hs%prunesymbols_elem_of. by apply IH.
Qed.

(** *** The boundary policy *)

(** A nonempty symbol that, when longer than one character, is made of
    word characters only *)
Definition within_word s : Prop :=
  s ≠ [] ∧ (1 < length s → ∀ c, c ∈ s → wordchar c = true).

Lemma wordsymbol_within_word s :
  within_word s → wordsymbol wordchar s = true →
  ∀ c, c ∈ s → wordchar c = true.
Proof.
  intros [Hne Hlong]. unfold wordsymbol, len.
  destruct s as [|c0 [|c1 s]]; [done| |].
  - simpl. intros Hw c ->%list_elem_of_singleton. done.
  - intros _. apply Hlong. simpl. lia.
Qed.

Lemma within_word_merged L R :
  BPETokenizer.crosswords self = false →
  within_word L → within_word R → valid L R = true →
  within_word (L ++ R).
Proof.
  intros Hcw HL HR Hv. rewrite validpair_wordsymbol, Hcw in Hv. simpl in Hv.
  apply andb_true_iff in Hv as [HwL HwR].
  split; [destruct HL as [? _]; by destruct L|].
  intros _ c [Hc|Hc]%elem_of_app.
  - by apply (wordsymbol_within_word L).
  - by apply (wordsymbol_within_word R).
Qed.

Lemma fit_state_within_word docs corpus freqs symbols :
  BPETokenizer.crosswords self = false →
  fit_state wordchar self docs corpus freqs symbols →
  (∀ doc s, doc ∈ corpus → s ∈ doc → within_word s)
  ∧ (∀ a b, (a, b) ∈ PyDict.keys freqs → within_word a ∧ within_word b)
  ∧ (∀ s, s ∈ symbols → within_word s).
Proof.
  intros Hcw Hst.
  assert (Hone : ∀ s, length s = 1 → within_word s).
  { intros s Hlen. split; [by destruct s|]. lia. }
  induction Hst
    as [|corpus freqs symbols L R corpus' freqs' symbols' Hst IH Ht Hms
        |corpus freqs symbols Hst IH].
  - assert (Hdoc : ∀ doc s, doc ∈ initial_corpus docs → s ∈ doc → within_word s).
    { intros doc s Hdoc Hs. apply Hone.
      unfold initial_corpus, LinkedList.of_list in Hdoc.
      apply list_elem_of_fmap in Hdoc as (text & -> & _).
      by apply list_elem_of_fmap in Hs as (c & -> & _). }
    split_and!; [done| |].
    + intros a b Hk.
      destruct (pairfreqs_fold_keys wordchar self _ _ _ Hk) as [Hk'|(_ & doc & Hdoc' & Hadj)].
      * by apply elem_of_nil in Hk'.
      * apply adjacent_elem_of in Hadj as [Ha Hb]. eauto.
    + intros s Hs. apply Hone. by eapply initial_symbols_length.
  - destruct IH as (IHc & IHk & IHs).
    pose proof (fit_state_inv _ _ _ _ _ _ Hst) as Hinv.
    pose proof (merge_target_key _ _ _ _ _ Ht) as Hk.
    destruct (inv_keys _ _ _ _ Hinv _ _ Hk) as (Hv & _ & _).
    destruct (IHk _ _ Hk) as [HL HR].
    pose proof (within_word_merged L R Hcw HL HR Hv) as HLR.
    destruct (mergesymbols_Ok wordchar self corpus symbols freqs L R Hk)
      as (f1 & Hdel & Hms').
    rewrite Hms in Hms'. injection Hms' as -> -> ->.
    split_and!.
    + intros doc' s (doc & -> & Hdoc)%list_elem_of_fmap Hs.
      apply merge_list_elem_of in Hs as [Hs| ->]; eauto.
    + intros a b Hab. eapply pydict_del_keys in Hab; [|exact Hdel].
      apply merge_docs_keys in Hab as [Hab|(c & Hc & _ & Hab)]; [by apply IHk|].
      assert (within_word c) as Hwc.
      { destruct Hc as [Hc| ->]; [|done].
        apply elem_of_concat in Hc as (doc & Hc & Hdoc). eauto. }
      destruct Hab as [[= -> ->]|[[= -> ->]|[[= -> ->]|[= -> ->]]]]; done.
    + intros s [->|Hs]%pyset_elem_of_add; eauto.
  - destruct IH as (IHc & IHk & IHs). split_and!; [done..|].
    intros s Hs%prunesymbols_elem_of. by apply IHs.
Qed.

(** *** Pruning *)

Lemma prunesymbols_spec corpus symbols s :
  s ∈ BPETokenizer.prunesymbols self corpus symbols
  ↔ s ∈ symbols
    ∧ (length s = 1
       ∨ (BPETokenizer.minfreq self ≤ tally s (concat corpus))%Z).
Proof.
  unfold BPETokenizer.prunesymbols. rewrite list_elem_of_filter.
  change (foldl (λ d symbol, PyDict.add symbol 1%Z d) []
            (concat (LinkedList.values <$> corpus)))
    with (count_into [] (concat (LinkedList.values <$> corpus))).
  rewrite count_into_get0.
  replace (LinkedList.values <$> corpus) with corpus
    by (unfold LinkedList.values; by rewrite list_fmap_id).
  unfold PyDict.get0 at 1. simpl. rewrite Z.add_0_l. tauto.
Qed.

End bpe_reach.

(** X10. [mergesymbols] on a pair that is a key of the table returns
    normally: it adds the concatenation of the pair to the Symbol Set,
    leaves every document spelling the same text with no more nodes than
    before, and, the two symbols being nonempty, leaves no adjacent
    occurrence of the pair in any document. *)
Theorem X10_mergesymbols_merges_all {char : Type} `{!EqDecision char}
    (wordchar : char → bool) (self : BPETokenizer.t char)
    (corpus : list (list (list char))) (symbols : list (list char))
    (freqs : list (list char * list char * Z)) (L R : list char) :
  (L, R) ∈ PyDict.keys freqs →
  ∃ corpus' freqs',
    BPETokenizer.mergesymbols wordchar self corpus symbols freqs L R
    = (Ok (corpus', freqs'), PySet.add (L ++ R) symbols)
    ∧ @text_of char <$> corpus' = @text_of char <$> corpus
    ∧ length (concat corpus') ≤ length (concat corpus)
    ∧ (L ≠ [] → R ≠ [] →
       ∀ doc, doc ∈ corpus' → (L, R) ∉ adjacent doc).
Proof.
  intros Hk.
  destruct (mergesymbols_Ok wordchar self corpus symbols freqs L R Hk)
    as (freqs' & _ & Hms).
  exists (merge_list L R <$> corpus), freqs'. split_and!.
  - done.
  - apply merge_corpus_concat.
  - apply merge_corpus_nodes.
  - intros HL HR doc' (doc & -> & _)%list_elem_of_fmap.
    by apply merge_list_no_pair.
Qed.

Lemma X10_witness :
  ∃ corpus' freqs',
    BPETokenizer.mergesymbols ascii_wordchar worked_bpe
      [[str "a"; str "a"; str "a"; str "b"]] [str "a"; str "b"]
      [((str "a", str "a"), 2%Z); ((str "a", str "b"), 1%Z)]
      (str "a") (str "a")
    = (Ok (corpus', freqs'), PySet.add (str "a" ++ str "a") [str "a"; str "b"])
    ∧ @text_of ascii <$> corpus'
      = @text_of ascii <$> [[str "a"; str "a"; str "a"; str "b"]]
    ∧ length (concat corpus')
      ≤ length (concat [[str "a"; str "a"; str "a"; str "b"]])
    ∧ (str "a" ≠ [] → str "a" ≠ [] →
       ∀ doc, doc ∈ corpus' → (str "a", str "a") ∉ adjacent doc).
Proof.
  apply (X10_mergesymbols_merges_all ascii_wordchar worked_bpe
           [[str "a"; str "a"; str "a"; str "b"]] [str "a"; str "b"]
           [((str "a", str "a"), 2%Z); ((str "a", str "b"), 1%Z)]
           (str "a") (str "a")).
  left.
Defined.

(** X11. On any corpus of symbol sequences, [pairfreqs] returns a table
    with one entry per key that holds, at every pair, the number of
    adjacent occurrences of the pair when the pair is eligible under
    [validpair] and nothing otherwise; every entry it has is at least 1. *)
Theorem X11_pairfreqs_counts :
  ∀ (char : Type) (Heq : EqDecision char) (wordchar : char → bool)
    (self : BPETokenizer.t char) (corpus : list (list (list char))),
    NoDup (PyDict.keys (BPETokenizer.pairfreqs wordchar self corpus))
    ∧ (∀ a b,
          PyDict.get0 (BPETokenizer.pairfreqs wordchar self corpus) (a, b)
          = if BPETokenizer.validpair wordchar self a b
            then occurrences (a, b) corpus else 0%Z)
    ∧ (∀ a b v,
          ((a, b), v) ∈ BPETokenizer.pairfreqs wordchar self corpus →
          (1 ≤ v)%Z ∧ v = occurrences (a, b) corpus
          ∧ BPETokenizer.validpair wordchar self a b = true).
Proof.
  intros char Heq wordchar self corpus.
  assert (Hnd : NoDup (PyDict.keys (BPETokenizer.pairfreqs wordchar self corpus)))
    by apply pairfreqs_fold_NoDup, NoDup_nil_2.
  assert (Hget : ∀ a b,
            PyDict.get0 (BPETokenizer.pairfreqs wordchar self corpus) (a, b)
            = if BPETokenizer.validpair wordchar self a b
              then occurrences (a, b) corpus else 0%Z).
  { intros a b. unfold BPETokenizer.pairfreqs.
    rewrite pairfreqs_fold_get0. simpl. by destruct (BPETokenizer.validpair _ _ _ _). }
  split_and!; [done..|].
  intros a b v Hin.
  assert ((a, b) ∈ PyDict.keys (BPETokenizer.pairfreqs wordchar self corpus))
    as Hk by (apply list_elem_of_fmap; by exists (a, b, v)).
  apply pairfreqs_fold_keys in Hk as [Hk|(Hv & doc & Hdoc & Hadj)];
    [by apply elem_of_nil in Hk|].
  simpl in Hv. specialize (Hget a b). rewrite Hv in Hget.
  unfold PyDict.get0 in Hget. rewrite (pydict_get_elem _ _ _ Hnd Hin) in Hget.
  simpl in Hget. subst v.
  assert (0 < occurrences (a, b) corpus)%Z by (apply occurrences_pos; eauto).
  split_and!; [lia|done..].
Qed.

(** X12. A symbol is in the Symbol Set after [prunesymbols] exactly when it
    was in it before and has one character or occurs at least [minfreq]
    times among the symbols of the corpus; pruning a second time over the
    same corpus removes nothing more. *)
Theorem X12_prunesymbols_keeps_frequent :
  ∀ (char : Type) (Heq : EqDecision char) (self : BPETokenizer.t char)
    (corpus : list (list (list char))) (symbols : list (list char)),
    (∀ s,
        s ∈ BPETokenizer.prunesymbols self corpus symbols
        ↔ s ∈ symbols
          ∧ (length s = 1
             ∨ (BPETokenizer.minfreq self ≤ tally s (concat corpus))%Z))
    ∧ BPETokenizer.prunesymbols self corpus
        (BPETokenizer.prunesymbols self corpus symbols)
      = BPETokenizer.prunesymbols self corpus symbols.
Proof.
  intros char Heq self corpus symbols. split.
  - intros s. apply prunesymbols_spec.
  - apply prunesymbols_idemp.
Qed.

(** X13. With [minfreq] positive, every symbol of the Symbol Set that
    [BPETokenizer.fit] leaves, however it ends, is a nonempty string that
    occurs in some document of the corpus. *)
Theorem X13_bpe_symbols_occur {char : Type} `{!EqDecision char}
    (wordchar : char → bool) (self : BPETokenizer.t char)
    (docs : list (list char)) :
  (0 < BPETokenizer.minfreq self)%Z →
  ∃ syms,
    SubwordTokenizer.symbols
      (BPETokenizer.base (BPETokenizer.fit wordchar self docs).2) = Some syms
    ∧ ∀ s, s ∈ syms →
           s ≠ [] ∧ ∃ text l1 l2, text ∈ docs ∧ text = l1 ++ s ++ l2.
Proof.
  intros Hmin.
  destruct (bpe_fit_reach wordchar self docs) as (corpus & freqs & syms & Hs & Hst & _).
  exists syms. split; [done|].
  by apply (fit_state_substrings wordchar self docs corpus freqs syms Hmin Hst).
Qed.

Lemma X13_witness :
  ∃ syms,
    SubwordTokenizer.symbols
      (BPETokenizer.base
         (BPETokenizer.fit ascii_wordchar worked_bpe worked_docs).2) = Some syms
    ∧ ∀ s, s ∈ syms →
           s ≠ [] ∧ ∃ text l1 l2, text ∈ worked_docs ∧ text = l1 ++ s ++ l2.
Proof.
  apply (X13_bpe_symbols_occur ascii_wordchar worked_bpe worked_docs).
  reflexivity.
Defined.

(** X14. With [crosswords] off, every symbol of more than one character in
    the Symbol Set that [BPETokenizer.fit] leaves, however it ends, is made
    of word characters only: no learned symbol spans a character that is
    not a word character. *)
Theorem X14_bpe_symbols_within_words :
  ∀ (char : Type) (Heq : EqDecision char) (wordchar : char → bool)
    (numsymbols minfreq : Z) (base : SubwordTokenizer.t char)
    (docs : list (list char)),
    let self := BPETokenizer.mk numsymbols minfreq false base in
    ∃ syms,
      SubwordTokenizer.symbols
        (BPETokenizer.base (BPETokenizer.fit wordchar self docs).2) = Some syms
      ∧ ∀ s, s ∈ syms → 1 < length s → ∀ c, c ∈ s → wordchar c = true.
Proof.
  intros char Heq wordchar numsymbols minfreq base docs self.
  destruct (bpe_fit_reach wordchar self docs) as (corpus & freqs & syms & Hs & Hst & _).
  exists syms. split; [done|].
  destruct (fit_state_within_word wordchar self docs corpus freqs syms eq_refl Hst)
    as (_ & _ & Hsyms).
  intros s Hin Hlen. by apply (Hsyms s Hin).
Qed.

(** X15. When [BPETokenizer.fit] returns normally, the corpus has a
    segmentation into symbols, spelling each document, in which every
    symbol of the final Symbol Set that is longer than one character
    occurs at least [minfreq] times. *)
Theorem X15_bpe_fit_symbols_in_use {char : Type} `{!EqDecision char}
    (wordchar : char → bool) (self : BPETokenizer.t char)
    (docs : list (list char)) :
  (BPETokenizer.fit wordchar self docs).1 = Ok tt →
  ∃ syms corpus,
    SubwordTokenizer.symbols
      (BPETokenizer.base (BPETokenizer.fit wordchar self docs).2) = Some syms
    ∧ @text_of char <$> corpus = docs
    ∧ ∀ s, s ∈ syms →
           length s = 1
           ∨ (BPETokenizer.minfreq self ≤ tally s (concat corpus))%Z.
Proof.
  intros Hok.
  destruct (bpe_fit_reach wordchar self docs)
    as (corpus & freqs & syms & Hs & Hst & Hstable).
  exists syms, corpus. split_and!; [done| |].
  - by eapply fit_state_text.
  - intros s Hin. rewrite <- (Hstable Hok) in Hin.
    by apply prunesymbols_spec in Hin as [_ ?].
Qed.

Lemma X15_witness :
  ∃ syms corpus,
    SubwordTokenizer.symbols
      (BPETokenizer.base
         (BPETokenizer.fit ascii_wordchar worked_bpe worked_docs).2) = Some syms
    ∧ @text_of ascii <$> corpus = worked_docs
    ∧ ∀ s, s ∈ syms →
           length s = 1
           ∨ (BPETokenizer.minfreq worked_bpe ≤ tally s (concat corpus))%Z.
Proof.
  apply (X15_bpe_fit_symbols_in_use ascii_wordchar worked_bpe worked_docs).
  vm_compute. reflexivity.
Defined.

(** ** More on equality and on the list tokenizer *)

Lemma same_set_refl {A} (o : option (list A)) : same_set o o.
Proof. by destruct o. Qed.

Lemma same_set_sym {A} (o1 o2 : option (list A)) :
  same_set o1 o2 → same_set o2 o1.
Proof. destruct o1, o2; simpl; try done; intros H x; by rewrite H. Qed.

Lemma same_set_trans {A} (o1 o2 o3 : option (list A)) :
  same_set o1 o2 → same_set o2 o3 → same_set o1 o3.
Proof.
  destruct o1, o2, o3; simpl; try done; intros H1 H2 x; by rewrite H1, H2.
Qed.

Lemma tokenizer_eq_spec {char : Type} `{!EqDecision char}
    (a b : tokenizer char) :
  tokenizer_eq a b = true
  ↔ family_of a = family_of b ∧ same_set (symbol_set a) (symbol_set b).
Proof.
  destruct a as [|w|s|t|l], b as [|w'|s'|t'|l']; simpl;
    rewrite ?pyset_opt_eqb_spec;
    try (split; [done|intros [? _]; done]);
    try (split; [intros ?; by split|intros [_ ?]; done]).
Qed.

(** X16. [==] on tokenizers is an equivalence: every tokenizer equals
    itself, the result does not depend on which side is asked, and it is
    transitive, across all the classes. *)
Theorem X16_tokenizer_eq_equivalence :
  ∀ (char : Type) (Heq : EqDecision char),
    (∀ a : tokenizer char, tokenizer_eq a a = true)
    ∧ (∀ a b : tokenizer char, tokenizer_eq a b = tokenizer_eq b a)
    ∧ (∀ a b c : tokenizer char,
          tokenizer_eq a b = true → tokenizer_eq b c = true →
          tokenizer_eq a c = true).
Proof.
  intros char Heq. split_and!.
  - intros a. apply tokenizer_eq_spec. split; [done|apply same_set_refl].
  - intros a b.
    destruct (tokenizer_eq a b) eqn:Hab, (tokenizer_eq b a) eqn:Hba; try done.
    + apply tokenizer_eq_spec in Hab as [Hf Hs].
      assert (tokenizer_eq b a = true) as Heq'
        by (apply tokenizer_eq_spec; split; [done|by apply same_set_sym]).
      congruence.
    + apply tokenizer_eq_spec in Hba as [Hf Hs].
      assert (tokenizer_eq a b = true) as Heq'
        by (apply tokenizer_eq_spec; split; [done|by apply same_set_sym]).
      congruence.
  - intros a b c [Hf1 Hs1]%tokenizer_eq_spec [Hf2 Hs2]%tokenizer_eq_spec.
    apply tokenizer_eq_spec. split; [congruence|by eapply same_set_trans].
Qed.

(** X17. [SubwordsListTokenizer.fit] always returns normally; the Symbol
    Set it leaves holds exactly the characters of the corpus and the
    subwords given at construction, each once, and the matcher is the one
    compiled from that Symbol Set. *)
Theorem X17_subwordslist_fit_symbols :
  ∀ (char : Type) (Heq : EqDecision char)
    (subwords : list (list char)) (docs : list (list char)),
    ∃ syms,
      SubwordsListTokenizer.fit (SubwordsListTokenizer.init subwords) docs
      = (Ok tt,
         SubwordsListTokenizer.mk (PySet.of_list subwords)
           (SubwordTokenizer.mk (Some syms) (Some (compiled syms))))
      ∧ NoDup syms
      ∧ ∀ s, s ∈ syms ↔ (∃ c, s = [c] ∧ c ∈ concat docs) ∨ s ∈ subwords.
Proof.
  intros char Heq subwords docs. eexists. split_and!.
  - reflexivity.
  - apply pyset_NoDup_update, NoDup_remove_dups.
  - intros s. rewrite pyset_elem_of_update. unfold PySet.of_list. simpl.
    rewrite !elem_of_remove_dups, list_elem_of_fmap. done.
Qed.

(** ** The matcher a tokenizer holds *)

(** X18. [transform] of a subword tokenizer works from the matcher the
    tokenizer holds and never recompiles it: two tokenizers that hold the
    same matcher give the same outcome whatever their Symbol Sets are; and
    a tokenizer that holds no matcher but has a Symbol Set gives the outcome
    of the tokenizer that holds the matcher compiled from that set. *)
Theorem X18_transform_uses_held_matcher :
  ∀ (char : Type) (Heq : EqDecision char),
    (∀ (osyms osyms' : option (list (list char))) (regex : list (list char))
       (text : list char),
        (SubwordTokenizer.transform
           (SubwordTokenizer.mk osyms (Some regex)) text).1
        = (SubwordTokenizer.transform
             (SubwordTokenizer.mk osyms' (Some regex)) text).1)
    ∧ (∀ (syms : list (list char)) (text : list char),
          (SubwordTokenizer.transform
             (SubwordTokenizer.mk (Some syms) None) text).1
          = (SubwordTokenizer.transform
               (SubwordTokenizer.mk (Some syms) (Some (compiled syms))) text).1).
Proof.
  intros char Heq. split.
  - intros osyms osyms' regex text. unfold SubwordTokenizer.transform.
    by rewrite !(transform_loop_segment _ regex).
  - intros syms text. unfold SubwordTokenizer.transform.
    by rewrite !(transform_loop_segment _ (compiled syms)).
Qed.

(** X19. When [BPETokenizer.fit] ends in an exception on a tokenizer that
    already holds a matcher, the matcher stays the old one although the
    Symbol Set is the new one: [transform] goes on tokenizing as before the
    call. *)
Theorem X19_failed_fit_keeps_matcher {char : Type} `{!EqDecision char}
    (wordchar : char → bool) (self : BPETokenizer.t char)
    (docs : list (list char)) (e : exn) (regex : list (list char)) :
  SubwordTokenizer.detector (BPETokenizer.base self) = Some regex →
  (BPETokenizer.fit wordchar self docs).1 = Raise e →
  SubwordTokenizer.detector
    (BPETokenizer.base (BPETokenizer.fit wordchar self docs).2) = Some regex
  ∧ SubwordTokenizer.symbols
      (BPETokenizer.base (BPETokenizer.fit wordchar self docs).2)
    ≠ None
  ∧ ∀ text,
      (BPETokenizer.transform (BPETokenizer.fit wordchar self docs).2 text).1
      = (BPETokenizer.transform self text).1.
Proof.
  intros Hd. unfold BPETokenizer.fit.
  destruct (BPETokenizer.fit_loop wordchar _ self _ _ _) as [[[]|e'|] syms];
    simpl; [done| |done].
  intros _. rewrite Hd. split_and!; [done..|].
  intros text. unfold BPETokenizer.transform, SubwordTokenizer.transform.
  simpl.
  pose proof (transform_loop_segment
                (SubwordTokenizer.mk (Some syms) (Some regex)) regex
                (length text) text [] eq_refl) as H1.
  pose proof (transform_loop_segment (BPETokenizer.base self) regex
                (length text) text []) as H2.
  unfold effective_detector in H2. rewrite Hd in H2. specialize (H2 eq_refl).
  destruct (SubwordTokenizer.transform_loop (length text)
              (SubwordTokenizer.mk (Some syms) (Some regex)) text []).
  destruct (SubwordTokenizer.transform_loop (length text)
              (BPETokenizer.base self) text []).
  simpl in *. congruence.
Qed.

Lemma X19_witness :
  let self := (BPETokenizer.fit ascii_wordchar worked_bpe worked_docs).2 in
  SubwordTokenizer.detector
    (BPETokenizer.base (BPETokenizer.fit ascii_wordchar self [str "x"]).2)
  = Some [str "aaab"; str "d"; str "b"; str "a"; str "c"]
  ∧ SubwordTokenizer.symbols
      (BPETokenizer.base (BPETokenizer.fit ascii_wordchar self [str "x"]).2)
    ≠ None
  ∧ ∀ text,
      (BPETokenizer.transform
         (BPETokenizer.fit ascii_wordchar self [str "x"]).2 text).1
      = (BPETokenizer.transform self text).1.
Proof.
  cbv zeta.
  apply (X19_failed_fit_keeps_matcher ascii_wordchar
           (BPETokenizer.fit ascii_wordchar worked_bpe worked_docs).2
           [str "x"] ValueError).
  - vm_compute. reflexivity.
  - vm_compute. reflexivity.
Defined.

(** ** The size of the word vocabulary *)

Section word_size.
Context {char : Type} `{!EqDecision char}.
Variable wordchar : char → bool.
Variable self : WordTokenizer.t char.
Variable docs : list (list char).

Lemma pyset_update_length_fresh {X} `{!EqDecision X} (l : list X) :
  ∀ s : list X,
    NoDup l → (∀ x, x ∈ l → x ∉ s) →
    length (PySet.update s l) = length s + length l.
Proof.
  unfold PySet.update.
  induction l as [|x l IH]; intros s Hnd Hfresh; simpl; [lia|].
  apply NoDup_cons in Hnd as [Hx Hnd].
  rewrite IH; [|done|].
  - unfold PySet.add. rewrite decide_False by (apply Hfresh; left).
    rewrite length_app. simpl. lia.
  - intros y Hy Hin. apply pyset_elem_of_add in Hin as [->|Hin]; [done|].
    apply (Hfresh y); [by right|done].
Qed.

Lemma word_remain_NoDup : NoDup (word_remain wordchar self docs).
Proof.
  unfold word_remain. apply NoDup_filter.
  rewrite sorted_desc_perm.
  eapply sublist_NoDup; [|apply fmap_sublist, sublist_filter].
  apply (count_into_NoDup (word_tokens wordchar docs) []), NoDup_nil_2.
Qed.

Lemma word_fit_size :
  (len (word_chars docs) ≤ WordTokenizer.numsymbols self)%Z →
  ∃ syms,
    WordTokenizer.symbols (WordTokenizer.fit wordchar self docs).2 = Some syms
    ∧ len syms
      = Z.min (WordTokenizer.numsymbols self)
          (len (word_chars docs) + len (word_remain wordchar self docs)).
Proof.
  intros Hle. eexists. split; [apply word_fit_symbols|].
  unfold len in *. rewrite pyset_update_length_fresh.
  - unfold slice_to.
    destruct (_ <? 0)%Z eqn:Hneg; [apply Z.ltb_lt in Hneg; lia|].
    rewrite length_take. lia.
  - destruct (slice_to_take (word_remain wordchar self docs)
                (WordTokenizer.numsymbols self
                 - Z.of_nat (length (word_chars docs)))%Z) as [n ->].
    eapply sublist_NoDup; [apply word_remain_NoDup|apply sublist_take].
  - intros x Hx.
    destruct (slice_to_take (word_remain wordchar self docs)
                (WordTokenizer.numsymbols self
                 - Z.of_nat (length (word_chars docs)))%Z) as [n Hn].
    rewrite Hn in Hx. apply subseteq_take in Hx.
    by apply word_remain_elem_of in Hx as (? & _).
Qed.

End word_size.

(** X20. When the corpus has at most [numsymbols] distinct characters,
    [WordTokenizer.fit] leaves a Symbol Set of exactly
    [min(numsymbols, characters + candidates)] symbols, where the
    candidates are the distinct tokens of the corpus that are not one of
    its characters and occur at least [minfreq] times: the space left by
    the characters is filled whenever there are candidates enough. *)
Theorem X20_word_fit_fills_budget {char : Type} `{!EqDecision char}
    (wordchar : char → bool) (self : WordTokenizer.t char)
    (docs : list (list char)) :
  (len (word_chars docs) ≤ WordTokenizer.numsymbols self)%Z →
  ∃ syms,
    WordTokenizer.symbols (WordTokenizer.fit wordchar self docs).2 = Some syms
    ∧ NoDup (word_remain wordchar self docs)
    ∧ (∀ s, s ∈ word_remain wordchar self docs ↔
            (s ∉ word_chars docs)
            ∧ s ∈ word_tokens wordchar docs
            ∧ (WordTokenizer.minfreq self
               ≤ tally s (word_tokens wordchar docs))%Z)
    ∧ len syms
      = Z.min (WordTokenizer.numsymbols self)
          (len (word_chars docs) + len (word_remain wordchar self docs)).
Proof.
  intros Hle.
  destruct (word_fit_size wordchar self docs Hle) as (syms & Hs & Hlen).
  exists syms. split_and!; [done| | |done].
  - apply word_remain_NoDup.
  - apply word_remain_elem_of.
Qed.

(** A word tokenizer with room for five symbols *)
Definition small_word : WordTokenizer.t ascii := WordTokenizer.init 5 1.

Lemma X20_witness :
  ∃ syms,
    WordTokenizer.symbols
      (WordTokenizer.fit ascii_wordchar small_word [str "the the he"]).2
    = Some syms
    ∧ NoDup (word_remain ascii_wordchar small_word [str "the the he"])
    ∧ (∀ s, s ∈ word_remain ascii_wordchar small_word [str "the the he"] ↔
            (s ∉ word_chars [str "the the he"])
            ∧ s ∈ word_tokens ascii_wordchar [str "the the he"]
            ∧ (WordTokenizer.minfreq small_word
               ≤ tally s (word_tokens ascii_wordchar [str "the the he"]))%Z)
    ∧ len syms
      = Z.min (WordTokenizer.numsymbols small_word)
          (len (word_chars [str "the the he"])
           + len (word_remain ascii_wordchar small_word [str "the the he"])).
Proof.
  apply (X20_word_fit_fills_budget ascii_wordchar small_word
           [str "the the he"]).
  vm_compute. discriminate.
Defined.
